(** * pg-mcp: the safety gateway and the introspective query executor

    A shallow embedding of the Go program (package [main]): the policy
    validator [isSafeQuery], the three tool handlers [ExecuteQuery],
    [ListTables], [DescribeTable], the schema fallback [getSchemaInfo], the
    registration of the tools in [setupMCPTools], and the configuration
    [main] reads from the environment with [getEnv] and [getEnvInt].

    Go strings are byte sequences: they are Rocq [string]s.  The parts of the
    Go standard library the program calls ([utf8], [unicode], [strings],
    [regexp], [database/sql], [encoding/json]) are written out below as far as
    the program uses them. *)

From Stdlib Require Import NArith ZArith Ascii String List Bool Lia.
From Stdlib Require Import Floats.SpecFloat.
From stdpp Require Import base option list strings gmap fin_maps sorting pretty.

Local Open Scope string_scope.
Local Open Scope list_scope.
Local Open Scope N_scope.

(** ** Errors and results *)

(** A Go [error] value: [None] is [nil], [Some msg] an error whose [Error()]
    text is [msg]. *)
Definition error := option string.

(** [fmt.Errorf(prefix + "%w", err)], [fmt.Errorf(prefix + "%s", s)]. *)
Definition Errorf (prefix msg : string) : string := prefix +:+ msg.

(** ** Package utf8 *)

Definition rune := N.

Definition RuneError : rune := 0xFFFD.
Definition RuneSelf : N := 0x80.

Definition ord (a : ascii) : N := N_of_ascii a.

Definition between (lo hi b : N) : bool := (lo <=? b) && (b <=? hi).

(** Continuation bytes: [locb = 0x80], [hicb = 0xBF]. *)
Definition cont (b : N) : bool := between 0x80 0xBF b.
Definition maskx (b : N) : N := N.land b 0x3F.

(** [first[s0]] together with [acceptRanges]: the length of the sequence a
    leading byte announces and the range its second byte must lie in. *)
Definition first (s0 : N) : option (nat * N * N) :=
  if between 0xC2 0xDF s0 then Some (2%nat, 0x80, 0xBF)
  else if s0 =? 0xE0 then Some (3%nat, 0xA0, 0xBF)
  else if between 0xE1 0xEC s0 then Some (3%nat, 0x80, 0xBF)
  else if s0 =? 0xED then Some (3%nat, 0x80, 0x9F)
  else if between 0xEE 0xEF s0 then Some (3%nat, 0x80, 0xBF)
  else if s0 =? 0xF0 then Some (4%nat, 0x90, 0xBF)
  else if between 0xF1 0xF3 s0 then Some (4%nat, 0x80, 0xBF)
  else if s0 =? 0xF4 then Some (4%nat, 0x80, 0x8F)
  else None.

(** [utf8.DecodeRuneInString]: the first rune of [s] and its width in bytes;
    an invalid or truncated sequence is [(RuneError, 1)]. *)
Definition DecodeRuneInString (s : string) : rune * nat :=
  match s with
  | EmptyString => (RuneError, 0%nat)
  | String a0 t0 =>
    let s0 := ord a0 in
    if s0 <? RuneSelf then (s0, 1%nat)
    else match first s0 with
    | None => (RuneError, 1%nat)
    | Some (sz, lo, hi) =>
      match t0 with
      | EmptyString => (RuneError, 1%nat)
      | String a1 t1 =>
        let s1 := ord a1 in
        if negb (between lo hi s1) then (RuneError, 1%nat)
        else if (sz <=? 2)%nat then
          (N.lor (N.shiftl (N.land s0 0x1F) 6) (maskx s1), 2%nat)
        else match t1 with
        | EmptyString => (RuneError, 1%nat)
        | String a2 t2 =>
          let s2 := ord a2 in
          if negb (cont s2) then (RuneError, 1%nat)
          else if (sz <=? 3)%nat then
            (N.lor (N.lor (N.shiftl (N.land s0 0x0F) 12) (N.shiftl (maskx s1) 6))
                   (maskx s2), 3%nat)
          else match t2 with
          | EmptyString => (RuneError, 1%nat)
          | String a3 _ =>
            let s3 := ord a3 in
            if negb (cont s3) then (RuneError, 1%nat)
            else
              (N.lor (N.lor (N.lor (N.shiftl (N.land s0 0x07) 18)
                                   (N.shiftl (maskx s1) 12))
                            (N.shiftl (maskx s2) 6))
                     (maskx s3), 4%nat)
          end
        end
      end
    end
  end.

Fixpoint take_bytes (n : nat) (s : string) : string :=
  match n, s with
  | S k, String a t => String a (take_bytes k t)
  | _, _ => EmptyString
  end.

(** [for i, c := range s]: the runes of [s], each with the bytes it was
    decoded from.  [skip] counts the bytes of the current rune still to pass. *)
Fixpoint range_go (skip : nat) (s : string) : list (rune * string) :=
  match s with
  | EmptyString => []
  | String _ t =>
    match skip with
    | S k => range_go k t
    | O => let '(r, n) := DecodeRuneInString s in
           (r, take_bytes n s) :: range_go (Nat.pred n) t
    end
  end.

Definition range (s : string) : list (rune * string) := range_go 0 s.
Definition runes (s : string) : list rune := (range s).*1.

Definition byte1 (n : N) : string := String (ascii_of_N n) EmptyString.

(** [utf8.AppendRune]: the UTF-8 encoding of [r]; surrogates and values past
    [MaxRune] are written as [RuneError]. *)
Definition EncodeRune (r : rune) : string :=
  if r <=? 0x7F then byte1 r
  else if r <=? 0x7FF then
    byte1 (N.lor 0xC0 (N.shiftr r 6)) +:+ byte1 (N.lor 0x80 (maskx r))
  else if (0x10FFFF <? r) || between 0xD800 0xDFFF r then
    byte1 0xEF +:+ byte1 0xBF +:+ byte1 0xBD
  else if r <=? 0xFFFF then
    byte1 (N.lor 0xE0 (N.shiftr r 12)) +:+ byte1 (N.lor 0x80 (maskx (N.shiftr r 6)))
      +:+ byte1 (N.lor 0x80 (maskx r))
  else
    byte1 (N.lor 0xF0 (N.shiftr r 18)) +:+ byte1 (N.lor 0x80 (maskx (N.shiftr r 12)))
      +:+ byte1 (N.lor 0x80 (maskx (N.shiftr r 6))) +:+ byte1 (N.lor 0x80 (maskx r)).

Fixpoint concat_bytes (l : list string) : string :=
  match l with
  | [] => EmptyString
  | s :: l' => s +:+ concat_bytes l'
  end.

(** ** Package unicode *)

(** [unicode.IsSpace]: the Latin-1 switch, then the [White_Space] table. *)
Definition IsSpace (r : rune) : bool :=
  if r <=? 0xFF then
    (r =? 0x09) || (r =? 0x0A) || (r =? 0x0B) || (r =? 0x0C) || (r =? 0x0D)
    || (r =? 0x20) || (r =? 0x85) || (r =? 0xA0)
  else
    (r =? 0x1680) || between 0x2000 0x200A r || between 0x2028 0x2029 r
    || (r =? 0x202F) || (r =? 0x205F) || (r =? 0x3000).

(** A sample of the case table, enough to run examples: Latin-1 capitals,
    the Kelvin sign and the dotted capital I. *)
Definition sample_LowerCase (r : rune) : rune :=
  if between 0xC0 0xDE r && negb (r =? 0xD7) then r + 32
  else if r =? 0x212A then 0x6B
  else if r =? 0x130 then 0x69
  else r.

(** ** Package strings (byte-level helpers) *)

Fixpoint HasPrefix (s prefix : string) : bool :=
  match prefix, s with
  | EmptyString, _ => true
  | String p prefix', String a s' => if ascii_dec a p then HasPrefix s' prefix' else false
  | String _ _, EmptyString => false
  end.

(** [strings.Contains]: [substr] occurs in [s]. *)
Fixpoint Contains (s substr : string) : bool :=
  HasPrefix s substr ||
  match s with
  | EmptyString => false
  | String _ s' => Contains s' substr
  end.

Fixpoint string_forall (p : N → bool) (s : string) : bool :=
  match s with
  | EmptyString => true
  | String a s' => p (ord a) && string_forall p s'
  end.

Fixpoint string_map (f : N → N) (s : string) : string :=
  match s with
  | EmptyString => EmptyString
  | String a s' => String (ascii_of_N (f (ord a))) (string_map f s')
  end.

Definition isUpperASCII (c : N) : bool := between 0x41 0x5A c.
Definition lowerASCII (c : N) : N := if isUpperASCII c then c + 32 else c.

(** [strings.Map(mapping, s)]: every rune of [s] (an invalid byte counts as
    [RuneError]) is replaced by the encoding of its image. *)
Definition Map (mapping : rune → rune) (s : string) : string :=
  concat_bytes (map (λ c, EncodeRune (mapping c)) (runes s)).

(** [strings.TrimFunc]: leading and trailing runes satisfying [f] removed.
    The library reads the tail backwards with [DecodeLastRuneInString]; a
    trailing rune that [f] accepts is a well-formed sequence, which a scan
    from the front delimits in the same way, so the runes of [range] serve
    for both ends. *)
Fixpoint drop_while {A} (f : A → bool) (l : list A) : list A :=
  match l with
  | x :: l' => if f x then drop_while f l' else l
  | [] => []
  end.

Definition TrimLeftFunc_range (f : rune → bool) (l : list (rune * string)) :=
  drop_while (λ c, f c.1) l.
Definition TrimRightFunc_range (f : rune → bool) (l : list (rune * string)) :=
  rev (drop_while (λ c, f c.1) (rev l)).

Definition TrimFunc (s : string) (f : rune → bool) : string :=
  concat_bytes (TrimRightFunc_range f (TrimLeftFunc_range f (range s))).*2.

(** [strings.TrimSpace]; its fast path over [asciiSpace] agrees with
    [unicode.IsSpace] below [RuneSelf]. *)
Definition TrimSpace (s : string) : string := TrimFunc s IsSpace.

(** ** Package regexp, the fragment of RE2 syntax the program's patterns use

    A pattern is a sequence of items: the assertion [\b], or an atom (a
    literal character, the class [\s], or [.]) taken once, or repeated by a
    postfix [+] or [*]. *)

Inductive atom :=
  | Lit (c : rune)     (* a literal character *)
  | Space              (* \s : [\t\n\f\r ] *)
  | AnyNotNL.          (* .  : any character but newline *)

Inductive item :=
  | WordBoundary       (* \b : ASCII word boundary *)
  | One (a : atom)
  | Plus (a : atom)
  | Star (a : atom).

Definition regex := list item.

Definition flush (pending : option atom) : regex :=
  match pending with Some a => [One a] | None => [] end.

Definition is_meta (c : N) : bool :=
  existsb (N.eqb c) [0x28; 0x29; 0x5B; 0x5D; 0x7B; 0x7D; 0x7C; 0x3F; 0x5E; 0x24].

(** [regexp.Compile] on that fragment; [None] stands for a pattern outside
    it (among them the patterns RE2 rejects).  [pending] is the atom read
    last, which a following [+] or [*] would repeat. *)
Fixpoint Compile_go (pending : option atom) (s : string) : option regex :=
  match s with
  | EmptyString => Some (flush pending)
  | String a t =>
    let c := ord a in
    if c =? 0x2B then                              (* + *)
      match pending with
      | Some x => cons (Plus x) <$> Compile_go None t
      | None => None
      end
    else if c =? 0x2A then                         (* * *)
      match pending with
      | Some x => cons (Star x) <$> Compile_go None t
      | None => None
      end
    else if c =? 0x5C then                         (* backslash *)
      match t with
      | String e t' =>
        if ord e =? 0x62 then                     (* \b *)
          (λ re, (flush pending ++ WordBoundary :: re)%list) <$> Compile_go None t'
        else if ord e =? 0x73 then                (* \s *)
          app (flush pending) <$> Compile_go (Some Space) t'
        else None
      | EmptyString => None
      end
    else if c =? 0x2E then                         (* . *)
      app (flush pending) <$> Compile_go (Some AnyNotNL) t
    else if is_meta c || (RuneSelf <=? c) then None
    else app (flush pending) <$> Compile_go (Some (Lit c)) t
  end.

Definition Compile (pattern : string) : option regex := Compile_go None pattern.

(** [\w] of RE2: [0-9A-Za-z_]. *)
Definition isWordChar (r : rune) : bool :=
  between 0x30 0x39 r || between 0x41 0x5A r || between 0x61 0x7A r || (r =? 0x5F).

Definition isWord (o : option rune) : bool :=
  match o with Some r => isWordChar r | None => false end.

(** [\b] holds between [prev] and [next] (each [None] at an end of the text)
    when exactly one of them is a word character. *)
Definition at_word_boundary (prev next : option rune) : bool :=
  xorb (isWord prev) (isWord next).

Definition atom_matches (a : atom) (r : rune) : bool :=
  match a with
  | Lit c => r =? c
  | Space => (r =? 0x09) || (r =? 0x0A) || (r =? 0x0C) || (r =? 0x0D) || (r =? 0x20)
  | AnyNotNL => negb (r =? 0x0A)
  end.

(** Zero or more characters matching [a], then the continuation [k]. *)
Fixpoint star (a : atom) (k : option rune → list rune → bool)
    (prev : option rune) (s : list rune) : bool :=
  k prev s ||
  match s with
  | c :: s' => atom_matches a c && star a k (Some c) s'
  | [] => false
  end.

(** [re] matches some prefix of [s], the text before [s] ending in [prev]. *)
Fixpoint match_here (re : regex) (prev : option rune) (s : list rune) : bool :=
  match re with
  | [] => true
  | WordBoundary :: re' => at_word_boundary prev (head s) && match_here re' prev s
  | One a :: re' =>
    match s with
    | c :: s' => atom_matches a c && match_here re' (Some c) s'
    | [] => false
    end
  | Plus a :: re' =>
    match s with
    | c :: s' => atom_matches a c && star a (match_here re') (Some c) s'
    | [] => false
    end
  | Star a :: re' => star a (match_here re') prev s
  end.

(** An unanchored search: [re] matches at some position of the text. *)
Fixpoint search (re : regex) (prev : option rune) (s : list rune) : bool :=
  match_here re prev s ||
  match s with
  | c :: s' => search re (Some c) s'
  | [] => false
  end.

(** [regexp.MatchString(pattern, s)]: whether [s] contains a match of
    [pattern], and the compile error if there is one (its text is the
    library's; only its presence matters to the program). *)
Definition MatchString (pattern s : string) : bool * error :=
  match Compile pattern with
  | Some re => (search re None (runes s), None)
  | None => (false, Some (Errorf "error parsing regexp: " pattern))
  end.

(** *** What a pattern means

    The meaning of a pattern, stated without the matcher: [matches re prev w
    rest] says that [re] matches exactly the word [w], standing after a text
    that ends in [prev] and before the text [rest]. *)

(** The character before the position reached after reading [u]. *)
Definition last_or (prev : option rune) (u : list rune) : option rune :=
  match last u with Some c => Some c | None => prev end.

Inductive matches : regex → option rune → list rune → list rune → Prop :=
  | matches_nil prev rest :
      matches [] prev [] rest
  | matches_boundary re prev w rest :
      at_word_boundary prev (head (w ++ rest)) = true →
      matches re prev w rest →
      matches (WordBoundary :: re) prev w rest
  | matches_one a c re prev w rest :
      atom_matches a c = true →
      matches re (Some c) w rest →
      matches (One a :: re) prev (c :: w) rest
  | matches_plus a u re prev w rest :
      u ≠ [] →
      Forall (λ c, atom_matches a c = true) u →
      matches re (last_or prev u) w rest →
      matches (Plus a :: re) prev (u ++ w) rest
  | matches_star a u re prev w rest :
      Forall (λ c, atom_matches a c = true) u →
      matches re (last_or prev u) w rest →
      matches (Star a :: re) prev (u ++ w) rest.

(** [re] occurs in the text [s]: some word of [s] matches it there. *)
Definition occurs (re : regex) (s : list rune) : Prop :=
  ∃ pre w post, s = pre ++ w ++ post ∧ matches re (last pre) w post.

(** The rule written [pattern] matches the text [text]. *)
Definition rule_matches (pattern text : string) : Prop :=
  ∃ re, Compile pattern = Some re ∧ occurs re (runes text).

(** ** The policy validator *)

Definition dangerousPatterns : list string :=
  [ "\bdrop\s+table\b";
    "\bdrop\s+database\b";
    "\bdrop\s+schema\b";
    "\btruncate\b";
    "\bdelete\s+from\b";
    "\bupdate\s+.*\s+set\b";
    "\binsert\s+into\b";
    "\balter\s+table\b";
    "\bcreate\s+table\b";
    "\bgrant\b";
    "\brevoke\b" ].

Definition not_a_read_query : string :=
  "only SELECT and CTE (WITH) queries are allowed".

(** The reason reported when the rule [pattern] fires. *)
Definition dangerous (pattern : string) : string :=
  Errorf "query contains potentially dangerous operation: " pattern.

Section Policy.

(** [unicode.To(unicode.LowerCase, r)] for [r] above [MaxASCII]: the case
    table of the Unicode version the toolchain ships. *)
Variable To_LowerCase : rune → rune.

(** [unicode.ToLower]. *)
Definition unicode_ToLower (r : rune) : rune :=
  if r <=? 0x7F then lowerASCII r else To_LowerCase r.

(** [strings.ToLower]: the ASCII fast path, else [Map(unicode.ToLower, s)]. *)
Definition ToLower (s : string) : string :=
  let isASCII := string_forall (λ c, c <? RuneSelf) s in
  let hasUpper := negb (string_forall (λ c, negb (isUpperASCII c)) s) in
  if isASCII then
    if negb hasUpper then s else string_map lowerASCII s
  else Map unicode_ToLower s.

(** The loop of [isSafeQuery] over the patterns. *)
Fixpoint scan_patterns (patterns : list string) (query : string) : error :=
  match patterns with
  | [] => None
  | pattern :: rest =>
    let '(matched, err) := MatchString pattern query in
    match err with
    | Some e => Some (Errorf "regex error: " e)
    | None =>
      if matched
      then Some (Errorf "query contains potentially dangerous operation: " pattern)
      else scan_patterns rest query
    end
  end.

Definition isSafeQuery (query : string) : error :=
  let query := TrimSpace (ToLower query) in
  match scan_patterns dangerousPatterns query with
  | Some e => Some e
  | None =>
    if negb (HasPrefix query "select") && negb (HasPrefix query "with")
    then Some not_a_read_query
    else None
  end.

End Policy.

Local Close Scope N_scope.

(** ** Values, slices and results *)

(** A Go pair [(T, error)] of which exactly one side is set. *)
Inductive result (A : Type) :=
  | Ok (a : A)
  | Err (msg : string).
Arguments Ok {A} a.
Arguments Err {A} msg.

(** A Go slice: [None] is the nil slice, [Some l] a non-nil slice with the
    elements [l] ([make([]T, 0)] is [Some []]). *)
Definition slice (A : Type) := option (list A).

Definition elems {A} (s : slice A) : list A := default [] s.
Definition len {A} (s : slice A) : nat := length (elems s).
Definition append {A} (s : slice A) (x : A) : slice A := Some (elems s ++ [x]).

(** [time.Time], as an instant and the offset of its zone. *)
Record Time := { unixNano : Z; zoneOffset : Z }.

(** What [database/sql] stores in an [interface{}] destination: the driver's
    value types. *)
Inductive value :=
  | VNil
  | VInt64 (n : Z)
  | VFloat64 (f : spec_float)
  | VBool (b : bool)
  | VBytes (b : list Byte.byte)
  | VString (s : string)
  | VTime (t : Time).

(** The text formats of the Go library the program's output passes through. *)
Record Formats := {
  json_string : string → string;          (* encoding/json: a quoted, escaped string *)
  json_float : spec_float → string;       (* encoding/json: a finite float64 *)
  json_time : Time → result string;       (* time.Time.MarshalJSON *)
  json_bytes : list Byte.byte → string;   (* encoding/json: []byte, quoted base64 *)
  strconv_Quote : string → string;        (* the %q verb *)
  strconv_FormatFloat : spec_float → string;
  time_Format : Time → string             (* time.RFC3339Nano *)
}.

Definition nl : string := String (ascii_of_nat 10) EmptyString.
Definition dquote : string := String (ascii_of_nat 34) EmptyString.

(** Sample formats, enough to run examples: strings are quoted without
    escapes, floats and times are not spelled out. *)
Definition sample_Formats : Formats := {|
  json_string s := dquote +:+ s +:+ dquote;
  json_float _ := "<float>";
  json_time _ := Ok "<time>";
  json_bytes _ := "<base64>";
  strconv_Quote s := dquote +:+ s +:+ dquote;
  strconv_FormatFloat _ := "<float>";
  time_Format _ := "<time>"
|}.

(** ** Package database/sql *)

(** One call of [db.QueryContext]: the SQL text and its bound arguments (the
    program binds strings only). *)
Definition Call : Type := string * list string.

(** [*sql.Rows] once the query has run: what [Columns()] answers, the rows
    the cursor delivers before [rows.Next()] turns false, each a list of
    driver values, and what [rows.Err()] would answer then: the error that
    ended the iteration early, if one did. *)
Record Rows := {
  Columns : result (slice string);
  Next : list (list value);
  rows_Err : error
}.

(** The database behind the handle: its answer to a call may depend on the
    calls made before. *)
Record DB := { answer : list Call → Call → result Rows }.

Record PostgresServer := { db : DB }.

(** Handlers run in a state monad over the log of calls issued so far. *)
Definition M (A : Type) : Type := list Call → A * list Call.

Definition ret {A} (a : A) : M A := λ log, (a, log).
Definition bind {A B} (m : M A) (k : A → M B) : M B :=
  λ log, let '(a, log') := m log in k a log'.

Notation "'let!' x ':=' m 'in' k" := (bind m (λ x, k))
  (at level 10, x name, m at level 100, k at level 200).

(** [db.QueryContext(ctx, query, args...)]. *)
Definition QueryContext (d : DB) (query : string) (args : list string)
    : M (result Rows) :=
  λ log, (answer d log (query, args), log ++ [(query, args)]).

Definition arity_error (have want : nat) : string :=
  "sql: expected " +:+ pretty have +:+ " destination arguments in Scan, not "
  +:+ pretty want.

(** [rows.Scan] into [n] destinations of type [*interface{}]: the driver's
    values as they are. *)
Definition Scan_any (row : list value) (n : nat) : result (list value) :=
  if decide (length row = n) then Ok row else Err (arity_error (length row) n).

(** [convertAssign] to a [*string] destination. *)
Definition asString (F : Formats) (v : value) : option string :=
  match v with
  | VNil => None
  | VInt64 n => Some (pretty n)
  | VFloat64 f => Some (strconv_FormatFloat F f)
  | VBool b => Some (if b then "true" else "false")
  | VBytes b => Some (string_of_list_byte b)
  | VString s => Some s
  | VTime t => Some (time_Format F t)
  end.

Fixpoint Scan_strings_go (F : Formats) (names : list string) (i : nat)
    (row : list value) : result (list string) :=
  match row with
  | [] => Ok []
  | v :: row' =>
    match asString F v with
    | None =>
      Err ("sql: Scan error on column index " +:+ pretty i +:+ ", name "
           +:+ strconv_Quote F (nth i names "")
           +:+ ": converting NULL to string is unsupported")
    | Some s =>
      match Scan_strings_go F names (S i) row' with
      | Ok l => Ok (s :: l)
      | Err e => Err e
      end
    end
  end.

(** [rows.Scan] into [n] destinations of type [*string]. *)
Definition Scan_strings (F : Formats) (names : list string) (row : list value)
    (n : nat) : result (list string) :=
  if decide (length row = n) then Scan_strings_go F names 0 row
  else Err (arity_error (length row) n).

(** ** Package encoding/json *)

Fixpoint join (sep : string) (l : list string) : string :=
  match l with
  | [] => ""
  | [x] => x
  | x :: l' => x +:+ sep +:+ join sep l'
  end.

Definition json_array (items : list string) : string :=
  "[" +:+ join "," items +:+ "]".

(** A map is written with its keys sorted. *)
Definition sorted_entries {V} (m : gmap string V) : list (string * V) :=
  merge_sort (λ x y, String.le x.1 y.1) (map_to_list m).

Definition json_object (F : Formats) (fields : list (string * string)) : string :=
  "{" +:+ join "," (map (λ kv, json_string F kv.1 +:+ ":" +:+ kv.2) fields) +:+ "}".

Definition json_slice {A} (enc : A → string) (s : slice A) : string :=
  match s with
  | None => "null"
  | Some l => json_array (map enc l)
  end.

(** [[]string] *)
Definition Marshal_strings (F : Formats) (s : slice string) : string :=
  json_slice (json_string F) s.

(** [map[string]string] *)
Definition Marshal_map (F : Formats) (m : gmap string string) : string :=
  json_object F (map (λ kv, (kv.1, json_string F kv.2)) (sorted_entries m)).

(** [[]map[string]string] *)
Definition Marshal_columns (F : Formats) (s : slice (gmap string string)) : string :=
  json_slice (Marshal_map F) s.

(** [map[string][]map[string]string] *)
Definition Marshal_schema (F : Formats)
    (m : gmap string (slice (gmap string string))) : string :=
  json_object F (map (λ kv, (kv.1, Marshal_columns F kv.2)) (sorted_entries m)).

Definition is_finite (f : spec_float) : bool :=
  match f with
  | S754_zero _ | S754_finite _ _ _ => true
  | S754_infinity _ | S754_nan => false
  end.

Definition unsupported_float (f : spec_float) : string :=
  "json: unsupported value: " +:+
  match f with
  | S754_nan => "NaN"
  | S754_infinity false => "+Inf"
  | S754_infinity true => "-Inf"
  | _ => ""
  end.

(** A value held in an [interface{}]. *)
Definition Marshal_value (F : Formats) (v : value) : result string :=
  match v with
  | VNil => Ok "null"
  | VInt64 n => Ok (pretty n)
  | VFloat64 f => if is_finite f then Ok (json_float F f) else Err (unsupported_float f)
  | VBool b => Ok (if b then "true" else "false")
  | VBytes b => Ok (json_bytes F b)
  | VString s => Ok (json_string F s)
  | VTime t => json_time F t
  end.

(** The encodings of a list, up to the first failure. *)
Fixpoint sequence {A} (l : list (result A)) : result (list A) :=
  match l with
  | [] => Ok []
  | Ok a :: l' => match sequence l' with Ok r => Ok (a :: r) | Err e => Err e end
  | Err e :: _ => Err e
  end.

(** [map[string]interface{}] *)
Definition Marshal_row (F : Formats) (m : gmap string value) : result string :=
  match sequence (map (λ kv, match Marshal_value F kv.2 with
                             | Ok s => Ok (kv.1, s)
                             | Err e => Err e
                             end) (sorted_entries m)) with
  | Ok fields => Ok (json_object F fields)
  | Err e => Err e
  end.

(** [QueryResult represents the result of a database query] *)
Record QueryResult := {
  QR_Columns : slice string;
  QR_Rows : slice (gmap string value);
  QR_Count : nat
}.

(** [json.Marshal(response)] for a [QueryResult]: the fields in declaration
    order under their tags. *)
Definition Marshal_QueryResult (F : Formats) (r : QueryResult) : result string :=
  match QR_Rows r with
  | None =>
    Ok (json_object F [("columns", Marshal_strings F (QR_Columns r));
                       ("rows", "null");
                       ("count", pretty (QR_Count r))])
  | Some rows =>
    match sequence (map (Marshal_row F) rows) with
    | Ok rs =>
      Ok (json_object F [("columns", Marshal_strings F (QR_Columns r));
                         ("rows", json_array rs);
                         ("count", pretty (QR_Count r))])
    | Err e => Err e
    end
  end.

(** [string(b)] of the bytes [json.Marshal] returned: [nil] on an error. *)
Definition bytes_or_nil (r : result string) : string :=
  match r with Ok s => s | Err _ => "" end.

(** ** Package mcp: requests and tool results *)

Inductive argument :=
  | ArgString (s : string)
  | ArgOther.           (* any JSON value that is not a string *)

Record CallToolRequest := { Arguments : gmap string argument }.

(** [req.RequireString(key)] *)
Definition RequireString (F : Formats) (req : CallToolRequest) (key : string)
    : result string :=
  match Arguments req !! key with
  | Some (ArgString str) => Ok str
  | Some ArgOther => Err ("argument " +:+ strconv_Quote F key +:+ " is not a string")
  | None => Err ("required argument " +:+ strconv_Quote F key +:+ " not found")
  end.

Record CallToolResult := { Text : string; IsError : bool }.

Definition NewToolResultText (text : string) : CallToolResult :=
  {| Text := text; IsError := false |}.
Definition NewToolResultError (text : string) : CallToolResult :=
  {| Text := text; IsError := true |}.

(** ** The handlers *)

(** The SQL texts, as the raw string literals of the source have them. *)
Definition sql_list_tables : string :=
  join nl [ "";
            "        SELECT table_name ";
            "        FROM information_schema.tables ";
            "        WHERE table_schema = 'public'";
            "    " ].

Definition sql_describe_table : string :=
  join nl [ "";
            "        SELECT column_name, data_type";
            "        FROM information_schema.columns";
            "        WHERE table_schema = 'public' AND table_name = $1";
            "        ORDER BY ordinal_position";
            "    " ].

(** The same statement inside [getSchemaInfo], indented one level more. *)
Definition sql_describe_table_schema : string :=
  join nl [ "";
            "            SELECT column_name, data_type";
            "            FROM information_schema.columns";
            "            WHERE table_schema = 'public' AND table_name = $1";
            "            ORDER BY ordinal_position";
            "        " ].

Definition column_names (rows : Rows) : list string :=
  match Columns rows with Ok c => elems c | Err _ => [] end.

(** [for rows.Next() { var table string; rows.Scan(&table); tables = append(tables, table) }] *)
Fixpoint collect_tables (F : Formats) (names : list string)
    (next : list (list value)) (tables : slice string) : result (slice string) :=
  match next with
  | [] => Ok tables
  | row :: rest =>
    match Scan_strings F names row 1 with
    | Err err => Err err
    | Ok dest => collect_tables F names rest (append tables (nth 0 dest ""))
    end
  end.

(** [for rows.Next() { var name, dtype string; rows.Scan(&name, &dtype);
     columns = append(columns, map[string]string{"column": name, "type": dtype}) }] *)
Fixpoint collect_columns (F : Formats) (names : list string)
    (next : list (list value)) (columns : slice (gmap string string))
    : result (slice (gmap string string)) :=
  match next with
  | [] => Ok columns
  | row :: rest =>
    match Scan_strings F names row 2 with
    | Err err => Err err
    | Ok dest =>
      let name := nth 0 dest "" in
      let dtype := nth 1 dest "" in
      collect_columns F names rest
        (append columns (<["type" := dtype]> (<["column" := name]> ∅)))
    end
  end.

Definition ListTables (F : Formats) (s : PostgresServer) (req : CallToolRequest)
    : M (result CallToolResult) :=
  let! rows := QueryContext (db s) sql_list_tables [] in
  match rows with
  | Err err => ret (Err (Errorf "failed to list tables: " err))
  | Ok rows =>
    match collect_tables F (column_names rows) (Next rows) None with
    | Err err => ret (Err err)
    | Ok tables =>
      let response := Marshal_strings F tables in
      ret (Ok (NewToolResultText response))
    end
  end.

Definition DescribeTable (F : Formats) (s : PostgresServer) (req : CallToolRequest)
    : M (result CallToolResult) :=
  match RequireString F req "table" with
  | Err _ => ret (Ok (NewToolResultError "Missing required parameter 'table'"))
  | Ok table =>
    let! rows := QueryContext (db s) sql_describe_table [table] in
    match rows with
    | Err err => ret (Err (Errorf "failed to describe table: " err))
    | Ok rows =>
      match collect_columns F (column_names rows) (Next rows) None with
      | Err err => ret (Err err)
      | Ok columns =>
        let response := Marshal_columns F columns in
        ret (Ok (NewToolResultText response))
      end
    end
  end.

(** The second loop of [getSchemaInfo]: one catalog query per table. *)
Fixpoint describe_each (F : Formats) (d : DB) (tables : list string)
    (schemaInfo : gmap string (slice (gmap string string)))
    : M (result (gmap string (slice (gmap string string)))) :=
  match tables with
  | [] => ret (Ok schemaInfo)
  | table :: rest =>
    let! colRows := QueryContext d sql_describe_table_schema [table] in
    match colRows with
    | Err err =>
      ret (Err (Errorf ("failed to describe table " +:+ table +:+ ": ") err))
    | Ok colRows =>
      match collect_columns F (column_names colRows) (Next colRows) None with
      | Err err => ret (Err err)
      | Ok cols => describe_each F d rest (<[table := cols]> schemaInfo)
      end
    end
  end.

Definition getSchemaInfo (F : Formats) (s : PostgresServer)
    : M (result (gmap string (slice (gmap string string)))) :=
  let schemaInfo : gmap string (slice (gmap string string)) := ∅ in
  let! tableRows := QueryContext (db s) sql_list_tables [] in
  match tableRows with
  | Err err => ret (Err (Errorf "failed to list tables: " err))
  | Ok tableRows =>
    match collect_tables F (column_names tableRows) (Next tableRows) None with
    | Err err => ret (Err err)
    | Ok tables => describe_each F (db s) (elems tables) schemaInfo
    end
  end.

(** [if b, ok := val.([]byte); ok { string(b) } else { val }] *)
Definition normalize (val : value) : value :=
  match val with
  | VBytes b => VString (string_of_list_byte b)
  | _ => val
  end.

(** [for i, colName := range columns { val := values[i]; rowMap[colName] = ... }] *)
Fixpoint fill_rowMap (i : nat) (columns : list string) (values : list value)
    (rowMap : gmap string value) : gmap string value :=
  match columns with
  | [] => rowMap
  | colName :: rest =>
    let val := nth i values VNil in
    fill_rowMap (S i) rest values (<[colName := normalize val]> rowMap)
  end.

(** The row loop of [ExecuteQuery]. *)
Fixpoint collect_rows (columns : slice string) (next : list (list value))
    (results : slice (gmap string value)) : result (slice (gmap string value)) :=
  match next with
  | [] => Ok results
  | row :: rest =>
    match Scan_any row (len columns) with
    | Err err => Err (Errorf "failed to scan row: " err)
    | Ok values =>
      let rowMap := fill_rowMap 0 (elems columns) values ∅ in
      collect_rows columns rest (append results rowMap)
    end
  end.

Section Handlers.

Variable To_LowerCase : rune → rune.
Variable F : Formats.

Definition ExecuteQuery (s : PostgresServer) (req : CallToolRequest)
    : M (result CallToolResult) :=
  match RequireString F req "query" with
  | Err _ => ret (Ok (NewToolResultError "Missing required parameter 'query'"))
  | Ok query =>
    match isSafeQuery To_LowerCase query with
    | Some err => ret (Err (Errorf "unsafe query: " err))
    | None =>
      let! rows := QueryContext (db s) query [] in
      match rows with
      | Err err =>
        if Contains err "column" || Contains err "table" then
          let! schema := getSchemaInfo F s in
          match schema with
          | Err schemaErr =>
            ret (Ok (NewToolResultError
              ("Query failed: " +:+ err +:+ ". Also failed to fetch schema: "
               +:+ schemaErr)))
          | Ok schemaInfo =>
            let schemaJSON := Marshal_schema F schemaInfo in
            ret (Ok (NewToolResultError
              ("Query failed: " +:+ err +:+ nl +:+ nl +:+ "Here is the schema:"
               +:+ nl +:+ schemaJSON)))
          end
        else ret (Ok (NewToolResultError ("Query failed: " +:+ err)))
      | Ok rows =>
        match Columns rows with
        | Err err => ret (Err (Errorf "failed to get columns: " err))
        | Ok columns =>
          match collect_rows columns (Next rows) (Some []) with
          | Err err => ret (Err err)
          | Ok results =>
            let response :=
              {| QR_Columns := columns; QR_Rows := results; QR_Count := len results |} in
            let responseJSON := bytes_or_nil (Marshal_QueryResult F response) in
            ret (Ok (NewToolResultText responseJSON))
          end
        end
      end
    end
  end.

End Handlers.

(** The single-tool server of [main.go]: its [ExecuteQuery]. *)
Module MainGo.
Section Handlers.

Variable To_LowerCase : rune → rune.
Variable F : Formats.

Definition ExecuteQuery (s : PostgresServer) (req : CallToolRequest)
    : M (result CallToolResult) :=
  match RequireString F req "query" with
  | Err err => ret (Ok (NewToolResultError err))
  | Ok query =>
    match isSafeQuery To_LowerCase query with
    | Some err => ret (Err (Errorf "unsafe query: " err))
    | None =>
      let! rows := QueryContext (db s) query [] in
      match rows with
      | Err err => ret (Err (Errorf "failed to execute query: " err))
      | Ok rows =>
        match Columns rows with
        | Err err => ret (Err (Errorf "failed to get columns: " err))
        | Ok columns =>
          match collect_rows columns (Next rows) (Some []) with
          | Err err => ret (Err err)
          | Ok results =>
            let count := len results in
            let response :=
              {| QR_Columns := columns; QR_Rows := results; QR_Count := count |} in
            match Marshal_QueryResult F response with
            | Err err => ret (Err (Errorf "failed to marshal response: " err))
            | Ok responseJSON => ret (Ok (NewToolResultText responseJSON))
            end
          end
        end
      end
    end
  end.

End Handlers.
End MainGo.

(** ** The catalog queries, as a PostgreSQL server answers them *)

Record Column := {
  column_name : string;
  data_type : string;
  ordinal_position : Z
}.

Record Table := {
  table_schema : string;
  table_name : string;
  table_columns : list Column
}.

Definition Catalog := list Table.

Definition in_public (t : Table) : bool :=
  bool_decide (table_schema t = "public").

(** [SELECT table_name FROM information_schema.tables WHERE table_schema = 'public'] *)
Definition public_tables (cat : Catalog) : list string :=
  map table_name (filter (λ t, in_public t = true) cat).

Definition by_ordinal (c1 c2 : Column) : Prop :=
  (ordinal_position c1 ≤ ordinal_position c2)%Z.

#[local] Instance by_ordinal_dec : RelDecision by_ordinal :=
  λ c1 c2, Z_le_dec (ordinal_position c1) (ordinal_position c2).

#[local] Instance by_ordinal_total : Total by_ordinal.
Proof. intros c1 c2. unfold by_ordinal. lia. Qed.

(** [SELECT column_name, data_type FROM information_schema.columns
     WHERE table_schema = 'public' AND table_name = $1 ORDER BY ordinal_position] *)
Definition public_columns (cat : Catalog) (table : string) : list Column :=
  merge_sort by_ordinal
    (flat_map table_columns
       (filter (λ t, in_public t = true ∧ table_name t = table) cat)).

Definition text_rows (columns : list string) (data : list (list string)) : Rows :=
  {| Columns := Ok (Some columns); Next := map (map VString) data; rows_Err := None |}.

(** A database that holds the catalog [cat] and answers every other query
    with [other]. *)
Definition catalog_DB (cat : Catalog) (other : string → result Rows) : DB :=
  {| answer := λ _ call,
       let '(query, args) := call in
       if decide (query = sql_list_tables) then
         Ok (text_rows ["table_name"] (map (λ t, [t]) (public_tables cat)))
       else if decide (query = sql_describe_table ∨ query = sql_describe_table_schema) then
         Ok (text_rows ["column_name"; "data_type"]
               (map (λ c, [column_name c; data_type c])
                    (public_columns cat (nth 0 args ""))))
       else other query |}.

(** [map[string]string{"column": name, "type": dtype}] for a catalog column. *)
Definition column_entry (c : Column) : gmap string string :=
  <["type" := data_type c]> (<["column" := column_name c]> ∅).

(** ** Sample data for the examples *)

Definition sample_catalog : Catalog :=
  [ {| table_schema := "public"; table_name := "users";
       table_columns := [ {| column_name := "email"; data_type := "text"; ordinal_position := 2 |};
                          {| column_name := "id"; data_type := "integer"; ordinal_position := 1 |} ] |};
    {| table_schema := "audit"; table_name := "log";
       table_columns := [ {| column_name := "at"; data_type := "timestamp"; ordinal_position := 1 |} ] |} ].

Definition request (key value : string) : CallToolRequest :=
  {| Arguments := <[key := ArgString value]> ∅ |}.

(** A server whose database fails every query outside the catalog with [msg]. *)
Definition failing_server (cat : Catalog) (msg : string) : PostgresServer :=
  {| db := catalog_DB cat (λ _, Err msg) |}.

(** A server whose database answers every query outside the catalog with the
    same result set. *)
Definition answering_server (cat : Catalog) (rows : Rows) : PostgresServer :=
  {| db := catalog_DB cat (λ _, Ok rows) |}.

(** A server on which even the catalog is out of reach. *)
Definition broken_server (msg : string) : PostgresServer :=
  {| db := {| answer := λ _ _, Err msg |} |}.

(** ** Package mcp: tools and the server's registry *)

Record PropertySchema := { SchemaType : string; PropertyDescription : string }.

(** [mcp.Tool] with its input schema: the declared properties and the names
    of the required ones. *)
Record Tool := {
  Name : string;
  Description : string;
  Properties : gmap string PropertySchema;
  Required : list string
}.

Definition ToolOption := Tool → Tool.

Definition NewTool (name : string) (opts : list ToolOption) : Tool :=
  foldl (λ tool opt, opt tool)
        {| Name := name; Description := ""; Properties := ∅; Required := [] |} opts.

Definition WithDescription (description : string) : ToolOption :=
  λ t, {| Name := Name t; Description := description;
          Properties := Properties t; Required := Required t |}.

(** [mcp.WithString(name, mcp.Required(), mcp.Description(description))] *)
Definition WithString (name : string) (description : string) : ToolOption :=
  λ t, {| Name := Name t; Description := Description t;
          Properties := <[name := {| SchemaType := "string";
                                     PropertyDescription := description |}]>
                          (Properties t);
          Required := Required t ++ [name] |}.

Definition ToolHandlerFunc := CallToolRequest → M (result CallToolResult).

(** The tools of a [server.MCPServer], by name. *)
Record MCPServer := { tools : gmap string (Tool * ToolHandlerFunc) }.

(** [server.NewMCPServer(...)]: no tool yet. *)
Definition NewMCPServer : MCPServer := {| tools := ∅ |}.

(** [mcpServer.AddTool(tool, handler)] *)
Definition AddTool (mcpServer : MCPServer) (tool : Tool) (handler : ToolHandlerFunc)
    : MCPServer :=
  {| tools := <[Name tool := (tool, handler)]> (tools mcpServer) |}.

Section Setup.

Variable To_LowerCase : rune → rune.
Variable F : Formats.

Definition setupMCPTools (s : PostgresServer) (mcpServer : MCPServer) : MCPServer :=
  let queryTool :=
    NewTool "postgres_query"
      [ WithDescription "Execute a SQL query against the PostgreSQL database";
        WithString "query"
          "The SQL query to execute (only SELECT and CTE queries are allowed)" ] in
  let listTablesTool :=
    NewTool "list_tables"
      [ WithDescription "List all tables in the PostgreSQL database" ] in
  let describeTableTool :=
    NewTool "describe_table"
      [ WithDescription "Describe the columns of a specified table";
        WithString "table" "Name of the table to describe" ] in
  let mcpServer := AddTool mcpServer queryTool (ExecuteQuery To_LowerCase F s) in
  let mcpServer := AddTool mcpServer listTablesTool (ListTables F s) in
  AddTool mcpServer describeTableTool (DescribeTable F s).

End Setup.

(** ** Package os: the environment *)

Definition Environ := gmap string string.

(** [os.Getenv]: the value of the variable, empty when it is not set. *)
Definition Getenv (env : Environ) (key : string) : string := default "" (env !! key).

(** ** Package fmt: [Sscanf] with the format [%d] and an [*int] operand

    The scanner reads its input rune by rune, an invalid byte counting as
    [RuneError]: the input is the list [runes str].  (The scanner stops
    after [hugeWid], that is 2^30, runes; the value of an environment
    variable is shorter.)  The error texts are the library's; the program
    only looks at whether there is an error. *)

(** The table [space] of package [fmt]. *)
Definition fmt_space : list (N * N) :=
  [ (0x0009, 0x000d); (0x0020, 0x0020); (0x0085, 0x0085); (0x00a0, 0x00a0);
    (0x1680, 0x1680); (0x2000, 0x200a); (0x2028, 0x2029); (0x202f, 0x202f);
    (0x205f, 0x205f); (0x3000, 0x3000) ]%N.

Definition isSpace (r : rune) : bool :=
  if (0x10000 <=? r)%N then false
  else existsb (λ rng, between rng.1 rng.2 r) fmt_space.

(** [s.peek(nl)] for the line feed. *)
Definition peek_newline (s : list rune) : bool :=
  match s with r :: _ => (r =? 0x0A)%N | [] => false end.

(** [s.SkipSpace()], on the runes still to read.  [Sscanf] does not count a
    line feed as space: meeting one is an error. *)
Fixpoint SkipSpace (s : list rune) : result (list rune) :=
  match s with
  | [] => Ok []
  | r :: s' =>
    if (r =? 0x0D)%N && peek_newline s' then SkipSpace s'
    else if (r =? 0x0A)%N then Err "unexpected newline"
    else if negb (isSpace r) then Ok s
    else SkipSpace s'
  end.

(** The sets [sign] and [decimalDigits]. *)
Definition isSign (r : rune) : bool := (r =? 0x2B)%N || (r =? 0x2D)%N.
Definition isDigit (r : rune) : bool := between 0x30 0x39 r.

(** [s.accept(ok)]: the next rune goes to the buffer when it is one of [ok]. *)
Definition accept (ok : rune → bool) (buf s : list rune)
    : bool * list rune * list rune :=
  match s with
  | r :: s' => if ok r then (true, buf ++ [r], s') else (false, buf, s)
  | [] => (false, buf, [])
  end.

(** [for s.accept(ok) { }] *)
Fixpoint accept_all (ok : rune → bool) (buf s : list rune) : list rune * list rune :=
  match s with
  | r :: s' => if ok r then accept_all ok (buf ++ [r]) s' else (buf, s)
  | [] => (buf, [])
  end.

(** [s.scanNumber(decimalDigits, false)]: the token and the input left. *)
Definition scanNumber (buf s : list rune) : result (list rune * list rune) :=
  match s with
  | [] => Err "EOF"
  | _ =>
    let '(ok, buf, s) := accept isDigit buf s in
    if ok then Ok (accept_all isDigit buf s) else Err "expected integer"
  end.

(** The token as a string, for the error texts. *)
Definition token (buf : list rune) : string := concat_bytes (map EncodeRune buf).

(** The value of a sequence of decimal digits. *)
Definition ParseUint (s : list rune) : N :=
  fold_left (λ n d, 10 * n + (d - 0x30))%N s 0%N.

(** [strconv.ParseInt(tok, 10, bitSize)]: an optional sign and digits, the
    value within the range of [bitSize] bits. *)
Definition ParseInt (tok : list rune) (bitSize : Z) : result Z :=
  let '(neg, digits) :=
    match tok with
    | c :: s' => if (c =? 0x2B)%N then (false, s')
                 else if (c =? 0x2D)%N then (true, s') else (false, tok)
    | [] => (false, [])
    end in
  let syntaxError := "strconv.ParseInt: parsing " +:+ dquote +:+ token tok +:+ dquote
                +:+ ": invalid syntax" in
  let rangeError := "strconv.ParseInt: parsing " +:+ dquote +:+ token tok +:+ dquote
               +:+ ": value out of range" in
  match digits with
  | [] => Err syntaxError
  | _ =>
    if forallb isDigit digits then
      let un := Z.of_N (ParseUint digits) in
      let cutoff := (2 ^ (bitSize - 1))%Z in
      if negb neg && (cutoff <=? un)%Z then Err rangeError
      else if neg && (cutoff <? un)%Z then Err rangeError
      else Ok (if neg then - un else un)%Z
    else Err syntaxError
  end.

(** The size of [int] on the platforms the program is built for (amd64 and
    arm64). *)
Definition intBits : Z := 64.

(** [s.scanInt('d', intBits)] *)
Definition scanInt (s : list rune) : result Z :=
  match SkipSpace s with
  | Err e => Err e
  | Ok s =>
    match s with
    | [] => Err "EOF"
    | _ =>
      let '(_, buf, s) := accept isSign [] s in
      match scanNumber buf s with
      | Err e => Err e
      | Ok (tok, _) =>
        match ParseInt tok 64 with
        | Err e => Err e
        | Ok i =>
          if ((- 2 ^ (intBits - 1) <=? i) && (i <? 2 ^ (intBits - 1)))%Z then Ok i
          else Err ("integer overflow on token " +:+ token tok)
        end
      end
    end
  end.

(** [fmt.Sscanf(str, "%d", &arg)]: the number of operands stored, the error,
    and what [arg] holds afterwards.  Input left after the number is not
    looked at. *)
Definition Sscanf_d (str : string) (arg : Z) : nat * error * Z :=
  match SkipSpace (runes str) with
  | Err e => (0, Some e, arg)
  | Ok s =>
    match scanInt s with
    | Ok i => (1, None, i)
    | Err e => (0, Some e, arg)
    end
  end.

(** ** The configuration *)

(** [DatabaseConfig holds the database connection configuration] *)
Record DatabaseConfig := {
  Host : string;
  Port : Z;
  User : string;
  Password : string;
  DBName : string;
  SSLMode : string
}.

Definition getEnv (env : Environ) (key defaultValue : string) : string :=
  let value := Getenv env key in
  if decide (value ≠ "") then value else defaultValue.

(** [Sscanf] writes through [&defaultValue]; both ways out return the
    variable. *)
Definition getEnvInt (env : Environ) (key : string) (defaultValue : Z) : Z :=
  let value := Getenv env key in
  if decide (value ≠ "") then
    let '(intValue, err, defaultValue) := Sscanf_d value defaultValue in
    if decide (err = None ∧ intValue = 1) then defaultValue else defaultValue
  else defaultValue.

(** The configuration [main] loads from the environment. *)
Definition main_config (env : Environ) : DatabaseConfig :=
  {| Host := getEnv env "DB_HOST" "localhost";
     Port := getEnvInt env "DB_PORT" 5432;
     User := getEnv env "DB_USER" "postgres";
     Password := getEnv env "DB_PASSWORD" "password";
     DBName := getEnv env "DB_NAME" "mydb";
     SSLMode := getEnv env "DB_SSLMODE" "disable" |}.

(** The single-tool server of [main.go]: its tool and its configuration. *)
Module SingleTool.
Section Setup.

Variable To_LowerCase : rune → rune.
Variable F : Formats.

Definition setupMCPTools (s : PostgresServer) (mcpServer : MCPServer) : MCPServer :=
  let queryTool :=
    NewTool "postgres_query"
      [ WithDescription "Execute a SQL query against the PostgreSQL database" ] in
  AddTool mcpServer queryTool (MainGo.ExecuteQuery To_LowerCase F s).

End Setup.

Definition main_config (env : Environ) : DatabaseConfig :=
  {| Host := getEnv env "DB_HOST" "localhost";
     Port := getEnvInt env "DB_PORT" 5432;
     User := getEnv env "DB_USER" "";
     Password := getEnv env "DB_PASSWORD" "";
     DBName := getEnv env "DB_NAME" "mydb";
     SSLMode := getEnv env "DB_SSLMODE" "disable" |}.

End SingleTool.

(** ** The vocabulary of the statements *)

(** Go's [asciiSpace] table: the white space below [RuneSelf]. *)
Definition asciiSpace (c : N) : bool := ((c <? RuneSelf)%N && IsSpace c).

(** The runes [unicode.IsSpace] accepts. *)
Definition white_space : list rune :=
  [ 0x09; 0x0A; 0x0B; 0x0C; 0x0D; 0x20; 0x85; 0xA0; 0x1680;
    0x2000; 0x2001; 0x2002; 0x2003; 0x2004; 0x2005; 0x2006; 0x2007; 0x2008;
    0x2009; 0x200A; 0x2028; 0x2029; 0x202F; 0x205F; 0x3000 ]%N.

(** White space has no case: what every Unicode case table satisfies. *)
Definition white_space_is_caseless (To_LowerCase : rune → rune) : Prop :=
  ∀ r, (0x7F < r)%N → IsSpace r = true → To_LowerCase r = r.

(** A query made of white space only (the empty query among them). *)
Definition whitespace_only (query : string) : Prop :=
  Forall (λ r, IsSpace r = true) (runes query).

(** A query whose first token opens an SQL comment. *)
Definition begins_with_comment (query : string) : Prop :=
  ∃ ws rest, string_forall asciiSpace ws = true
             ∧ (query = ws +:+ "--" +:+ rest ∨ query = ws +:+ "/*" +:+ rest).

(** A sequence of literal characters. *)
Definition lits (kw : list rune) : regex := map (λ c, One (Lit c)) kw.

Definition is_space (c : rune) : Prop := atom_matches Space c = true.
Definition not_newline (c : rune) : Prop := atom_matches AnyNotNL c = true.

(** The three shapes of the patterns: [\bKW\b], [\bK1\s+K2\b] and
    [\bupdate\s+.*\s+set\b]. *)
Definition keyword_rule (kw : string) : regex :=
  WordBoundary :: lits (runes kw) ++ [WordBoundary].

Definition two_keyword_rule (k1 k2 : string) : regex :=
  WordBoundary :: lits (runes k1) ++ Plus Space :: lits (runes k2) ++ [WordBoundary].

Definition update_set_rule : regex :=
  WordBoundary :: lits (runes "update") ++ Plus Space :: Star AnyNotNL :: Plus Space
    :: lits (runes "set") ++ [WordBoundary].

(** Repeated [append]. *)
Definition extend {A} (s : slice A) (l : list A) : slice A :=
  match l with [] => s | _ => Some (elems s ++ l) end.

(** The row map the loop builds from the scanned [values] of one row. *)
Definition rowMap_of (columns : slice string) (values : list value) : gmap string value :=
  fill_rowMap 0 (elems columns) values ∅.


(** A call that reads the catalog for the schema snapshot. *)
Definition catalog_call (c : Call) : Prop :=
  c.1 = sql_list_tables ∨ c.1 = sql_describe_table_schema.

(** The schema snapshot of a catalog: every public table with its columns in
    ordinal order. *)
Definition snapshot_of (cat : Catalog) : gmap string (slice (gmap string string)) :=
  foldl (λ m t, <[t := extend None (map column_entry (public_columns cat t))]> m)
        ∅ (public_tables cat).


Definition duplicate_rows : Rows :=
  {| Columns := Ok (Some ["a"; "a"]); Next := [[VInt64 1; VInt64 2]]; rows_Err := None |}.

Definition nan_rows : Rows :=
  {| Columns := Ok (Some ["x"]); Next := [[VFloat64 S754_nan]]; rows_Err := None |}.

Definition empty_rows : Rows :=
  {| Columns := Ok (Some ["a"]); Next := []; rows_Err := None |}.

(** The text contains the keyword as a run of characters, wherever it
    stands. *)
Definition mentions (text kw : string) : Prop :=
  ∃ pre post, runes text = pre ++ runes kw ++ post.

(** The keyword every denylist pattern begins with. *)
Definition denylist_keywords : list string :=
  ["drop"; "truncate"; "delete"; "update"; "insert"; "alter"; "create";
   "grant"; "revoke"].

(** A string of bytes below [RuneSelf]. *)
Definition isASCII (s : string) : bool := string_forall (λ c, (c <? RuneSelf)%N) s.

(** The string is empty or begins with a byte below [RuneSelf]. *)
Definition ascii_start (w : string) : Prop :=
  match w with String c _ => (ord c < RuneSelf)%N | EmptyString => True end.

(** The byte values of a string. *)
Definition codes (s : string) : list rune := map ord (list_ascii_of_string s).

(** A value [encoding/json] cannot write. *)
Definition unserializable (F : Formats) (v : value) : Prop :=
  ∃ err, Marshal_value F v = Err err.

(** The call that reads the columns of [table] for the schema snapshot. *)
Definition schema_call (table : string) : Call := (sql_describe_table_schema, [table]).

(** A row of one column whose value reads as the string [name]. *)
Definition reads_as (F : Formats) (row : list value) (name : string) : Prop :=
  ∃ v, row = [v] ∧ asString F v = Some name.

(** The request carries the parameter [p] as a string. *)
Definition has_string (req : CallToolRequest) (p : string) : Prop :=
  ∃ v, Arguments req !! p = Some (ArgString v).

(** The tool-level answer to a request that lacks the parameter [p]. *)
Definition missing_parameter (p : string) : CallToolResult :=
  NewToolResultError ("Missing required parameter '" +:+ p +:+ "'").

(** Spaces and tabs. *)
Definition blank (c : N) : bool := (c =? 0x20)%N || (c =? 0x09)%N.

(** The text does not go on with a decimal digit. *)
Definition no_digit_ahead (rest : string) : Prop :=
  match runes rest with r :: _ => isDigit r = false | [] => True end.

(** The update rule in the words of the specification: the word [update],
    then any characters, then [set], each keyword standing as a word of its
    own. *)
Definition spec_update_then_set (text : list rune) : Prop :=
  ∃ pre mid post,
    text = pre ++ runes "update" ++ mid ++ runes "set" ++ post
    ∧ mid ≠ []
    ∧ isWord (last pre) = false ∧ isWord (head mid) = false
    ∧ isWord (last mid) = false ∧ isWord (head post) = false.

(** A data-modifying statement inside a [WITH] query, written over three
    lines. *)
Definition multiline_update : string :=
  "WITH moved AS (UPDATE ONLY" +:+ nl +:+ "accounts" +:+ nl
  +:+ "SET balance = 0 RETURNING id) SELECT id FROM moved".

(** A result set that an error ends after two rows. *)
Definition interrupted_query : string :=
  "SELECT 10 / (3 - n) AS q FROM generate_series(1, 5) AS n".

Definition interrupted_rows : Rows :=
  {| Columns := Ok (Some ["q"]);
     Next := [[VInt64 5]; [VInt64 10]];
     rows_Err := Some "pq: division by zero" |}.


(** The call that lists the tables, and the log once it is made. *)
Definition list_call : Call := (sql_list_tables, []).

(** The log when the column query for the [k]-th of [tables] is issued,
    [log] being the log when the first is. *)
Definition asked_before (log : list Call) (tables : list string) (k : nat) : list Call :=
  log ++ map schema_call (take k tables).

(** What the column query for [table] comes to when it is issued at [log]:
    the columns scanned from the answer, or the error [getSchemaInfo]
    returns for it. *)
Definition column_query (F : Formats) (d : DB) (log : list Call) (table : string)
    : result (slice (gmap string string)) :=
  match answer d log (schema_call table) with
  | Err err => Err (Errorf ("failed to describe table " +:+ table +:+ ": ") err)
  | Ok colRows => collect_columns F (column_names colRows) (Next colRows) None
  end.

(** * Properties *)

(** ** The matcher against the meaning of patterns *)

Lemma last_or_cons prev c u : last_or prev (c :: u) = last_or (Some c) u.
Proof.
  unfold last_or. destruct u as [|d u]; [reflexivity|].
  change (last (c :: d :: u)) with (last (d :: u)).
  destruct (last (d :: u)) eqn:E; [reflexivity|].
  apply last_None in E. discriminate.
Qed.

Lemma last_or_last pre : last_or None pre = last pre.
Proof. unfold last_or. by destruct (last pre). Qed.

Lemma star_spec a k prev s :
  star a k prev s = true ↔
  ∃ u rest, s = u ++ rest ∧ Forall (λ c, atom_matches a c = true) u
            ∧ k (last_or prev u) rest = true.
Proof.
  revert prev. induction s as [|c s IH]; intros prev; simpl.
  - rewrite orb_false_r. split.
    + intros Hk. exists [], []. by repeat split.
    + intros (u & rest & Hs & _ & Hk). symmetry in Hs.
      apply app_eq_nil in Hs as [-> ->]. exact Hk.
  - rewrite orb_true_iff, andb_true_iff, IH. split.
    + intros [Hk | (Hc & u & rest & -> & Hu & Hk)].
      * exists [], (c :: s). by repeat split.
      * exists (c :: u), rest. rewrite last_or_cons. by repeat split; [constructor|].
    + intros (u & rest & Hs & Hu & Hk). destruct u as [|d u]; simpl in Hs.
      * left. by subst rest.
      * right. injection Hs as -> ->. inversion_clear Hu as [|? ? Hd Hu'].
        rewrite last_or_cons in Hk. split; [done|]. by exists u, rest.
Qed.

Lemma match_here_spec re prev s :
  match_here re prev s = true ↔ ∃ w rest, s = w ++ rest ∧ matches re prev w rest.
Proof.
  revert prev s. induction re as [|it re IH]; intros prev s.
  - simpl. split; [|done]. intros _. exists [], s. split; [done|constructor].
  - destruct it as [|a|a|a]; simpl.
    + rewrite andb_true_iff, IH. split.
      * intros (Hb & w & rest & -> & Hm). exists w, rest. split; [done|].
        by constructor.
      * intros (w & rest & -> & Hm). inversion_clear Hm. split; [done|].
        by exists w, rest.
    + destruct s as [|c s].
      * split; [done|]. intros (w & rest & Hs & Hm). inversion Hm; subst.
        discriminate.
      * rewrite andb_true_iff, IH. split.
        -- intros (Hc & w & rest & -> & Hm). exists (c :: w), rest.
           split; [done|]. by constructor.
        -- intros (w & rest & Hs & Hm). inversion Hm; subst.
           injection Hs as -> ->. split; [done|]. by eexists _, _.
    + destruct s as [|c s].
      * split; [done|]. intros (w & rest & Hs & Hm). inversion Hm; subst.
        destruct u; [done|discriminate].
      * rewrite andb_true_iff, star_spec. split.
        -- intros (Hc & u & rest & -> & Hu & Hk).
           apply IH in Hk as (w & rest' & -> & Hm).
           exists ((c :: u) ++ w), rest'. split.
           { by rewrite <- !app_assoc. }
           constructor; [done|by constructor|]. by rewrite last_or_cons.
        -- intros (w & rest & Hs & Hm). inversion Hm as [| | |? u ? ? w' ? Hne Hu Hm'|]; subst.
           destruct u as [|d u]; [done|]. simpl in Hs. injection Hs as -> ->.
           inversion_clear Hu. split; [done|].
           exists u, (w' ++ rest). rewrite <- app_assoc. split; [done|].
           split; [done|]. apply IH. rewrite last_or_cons in Hm'. by eexists _, _.
    + rewrite star_spec. split.
      * intros (u & rest & -> & Hu & Hk). apply IH in Hk as (w & rest' & -> & Hm).
        exists (u ++ w), rest'. split; [by rewrite <- app_assoc|]. by constructor.
      * intros (w & rest & -> & Hm). inversion Hm as [| | | |? u ? ? w' ? Hu Hm']; subst.
        exists u, (w' ++ rest). rewrite <- app_assoc. split; [done|].
        split; [done|]. apply IH. by eexists _, _.
Qed.

Lemma search_spec re prev s :
  search re prev s = true ↔
  ∃ pre w post, s = pre ++ w ++ post ∧ matches re (last_or prev pre) w post.
Proof.
  revert prev. induction s as [|c s IH]; intros prev; simpl.
  - rewrite orb_false_r, match_here_spec. split.
    + intros (w & rest & Hs & Hm). by exists [], w, rest.
    + intros (pre & w & post & Hs & Hm). symmetry in Hs.
      apply app_eq_nil in Hs as [-> Hs]. by exists w, post.
  - rewrite orb_true_iff, match_here_spec, IH. split.
    + intros [(w & rest & Hs & Hm) | (pre & w & post & -> & Hm)].
      * by exists [], w, rest.
      * exists (c :: pre), w, post. by rewrite last_or_cons.
    + intros (pre & w & post & Hs & Hm). destruct pre as [|d pre].
      * left. by exists w, post.
      * right. simpl in Hs. injection Hs as -> ->. rewrite last_or_cons in Hm.
        by exists pre, w, post.
Qed.

Lemma search_occurs re s : search re None s = true ↔ occurs re s.
Proof.
  rewrite search_spec. unfold occurs.
  split; intros (pre & w & post & Hs & Hm); exists pre, w, post;
    (split; [done|]); [by rewrite <- last_or_last | by rewrite last_or_last].
Qed.

(** ** The policy validator *)

Lemma patterns_compile : Forall (λ p, is_Some (Compile p)) dangerousPatterns.
Proof. repeat constructor; vm_compute; eauto. Qed.

Lemma MatchString_cases pattern text :
  is_Some (Compile pattern) →
  (MatchString pattern text = (true, None) ∧ rule_matches pattern text)
  ∨ (MatchString pattern text = (false, None) ∧ ¬ rule_matches pattern text).
Proof.
  intros [re Hre]. unfold MatchString, rule_matches. rewrite Hre.
  destruct (search re None (runes text)) eqn:E.
  - left. split; [done|]. exists re. split; [done|]. by apply search_occurs.
  - right. split; [done|]. intros (re' & Hre' & Hocc).
    injection Hre' as <-. apply search_occurs in Hocc. congruence.
Qed.

Lemma scan_patterns_spec patterns text :
  Forall (λ p, is_Some (Compile p)) patterns →
  (scan_patterns patterns text = None
   ∧ ∀ rule, rule ∈ patterns → ¬ rule_matches rule text)
  ∨ (∃ before rule after,
       patterns = before ++ rule :: after
       ∧ rule_matches rule text
       ∧ (∀ r, r ∈ before → ¬ rule_matches r text)
       ∧ scan_patterns patterns text = Some (dangerous rule)).
Proof.
  induction 1 as [|pattern rest Hc _ IH]; simpl.
  - left. split; [done|]. intros rule Hin. by apply elem_of_nil in Hin.
  - destruct (MatchString_cases pattern text Hc) as [[-> Hm] | [-> Hm]].
    + right. exists [], pattern, rest. repeat split; [done|].
      intros r Hin. by apply elem_of_nil in Hin.
    + destruct IH as [[Hnone Hall] | (before & rule & after & -> & Hr & Hb & Hs)].
      * left. split; [done|]. intros rule [->|Hin]%elem_of_cons; auto.
      * right. exists (pattern :: before), rule, after. repeat split; [done| |done].
        intros r [->|Hin]%elem_of_cons; auto.
Qed.

(** The first matching rule is determined by the text. *)
Lemma first_hit_unique (text : string) before rule after before' rule' after' :
  before ++ rule :: after = before' ++ rule' :: after' →
  rule_matches rule text → (∀ r, r ∈ before → ¬ rule_matches r text) →
  rule_matches rule' text → (∀ r, r ∈ before' → ¬ rule_matches r text) →
  before = before' ∧ rule = rule'.
Proof.
  revert before'. induction before as [|b before IH]; intros [|b' before'] Heq Hr Hb Hr' Hb';
    simpl in Heq; injection Heq as -> Heq.
  - done.
  - exfalso. apply (Hb' b'); [left|done].
  - exfalso. apply (Hb rule'); [left|done].
  - destruct (IH before' Heq) as [-> ->]; try done.
    + intros r Hin. apply Hb. by right.
    + intros r Hin. apply Hb'. by right.
Qed.

Section PolicyProperties.

Variable To_LowerCase : rune → rune.

Local Abbreviation normalized query := (TrimSpace (ToLower To_LowerCase query)).

Lemma isSafeQuery_cases query :
  (∃ before rule after,
     dangerousPatterns = before ++ rule :: after
     ∧ rule_matches rule (normalized query)
     ∧ (∀ r, r ∈ before → ¬ rule_matches r (normalized query))
     ∧ isSafeQuery To_LowerCase query = Some (dangerous rule))
  ∨ ((∀ rule, rule ∈ dangerousPatterns → ¬ rule_matches rule (normalized query))
     ∧ isSafeQuery To_LowerCase query =
         if negb (HasPrefix (normalized query) "select")
            && negb (HasPrefix (normalized query) "with")
         then Some not_a_read_query else None).
Proof.
  unfold isSafeQuery.
  destruct (scan_patterns_spec dangerousPatterns (normalized query) patterns_compile)
    as [[-> Hall] | (before & rule & after & Heq & Hr & Hb & ->)].
  - right. done.
  - left. by exists before, rule, after.
Qed.

(** Whenever a pattern of the denylist matches the trimmed, lower-cased
    query, [isSafeQuery] rejects and reports a rule: the rules are tried in
    the listed order and the rule reported is the first that matches,
    whatever the casing of the original text and whatever it begins with. *)
Theorem denylist_reports_first_hit query :
  (∀ before rule after,
     dangerousPatterns = before ++ rule :: after →
     rule_matches rule (normalized query) →
     (∀ r, r ∈ before → ¬ rule_matches r (normalized query)) →
     isSafeQuery To_LowerCase query = Some (dangerous rule))
  ∧ (∀ rule,
       rule ∈ dangerousPatterns → rule_matches rule (normalized query) →
       ∃ before first after,
         dangerousPatterns = before ++ first :: after
         ∧ rule_matches first (normalized query)
         ∧ (∀ r, r ∈ before → ¬ rule_matches r (normalized query))
         ∧ isSafeQuery To_LowerCase query = Some (dangerous first)).
Proof.
  split.
  - intros before rule after Heq Hr Hb.
    destruct (isSafeQuery_cases query)
      as [(before' & rule' & after' & Heq' & Hr' & Hb' & ->) | [Hall _]].
    + rewrite Heq in Heq'.
      by destruct (first_hit_unique _ _ _ _ _ _ _ Heq' Hr Hb Hr' Hb') as [_ ->].
    + exfalso. apply (Hall rule); [|done]. rewrite Heq.
      apply elem_of_app. right. left.
  - intros rule Hin Hr.
    destruct (isSafeQuery_cases query) as [Hhit | [Hall _]]; [done|].
    exfalso. by apply (Hall rule).
Qed.

End PolicyProperties.

(** ** Normalization: what trimming and lower-casing leave in place *)

Lemma append_cons a s t : String a s +:+ t = String a (s +:+ t).
Proof. reflexivity. Qed.

Lemma append_nil s : "" +:+ s = s.
Proof. reflexivity. Qed.

Lemma ord_ascii a : ascii_of_N (ord a) = a.
Proof. apply ascii_N_embedding. Qed.

Lemma range_ascii a s :
  (ord a < RuneSelf)%N → range (String a s) = (ord a, String a "") :: range s.
Proof.
  intros Ha. unfold range. simpl.
  apply N.ltb_lt in Ha. rewrite Ha. reflexivity.
Qed.

Lemma HasPrefix_first a s b p :
  a ≠ b → HasPrefix (String a s) (String b p) = false.
Proof. intros Hne. simpl. by destruct (ascii_dec a b). Qed.

(** Right trimming leaves a leading element that is not trimmed. *)
Lemma TrimRight_keep (f : rune → bool) x l :
  f x.1 = false →
  TrimRightFunc_range f (x :: l) = x :: TrimRightFunc_range f l.
Proof.
  intros Hx. unfold TrimRightFunc_range. simpl.
  generalize (rev l). intros r. induction r as [|y r IH]; simpl.
  - by rewrite Hx.
  - destruct (f y.1); [exact IH|]. simpl. by rewrite rev_unit.
Qed.

Lemma TrimFunc_all (f : rune → bool) s :
  Forall (λ r, f r = true) (runes s) → TrimFunc s f = "".
Proof.
  unfold TrimFunc, runes, TrimLeftFunc_range. intros H.
  induction (range s) as [|x l IH]; [reflexivity|].
  inversion_clear H as [|? ? Hx Hl]. simpl. rewrite Hx. by apply IH.
Qed.

(** Leading ASCII white space goes, and the first other character stays. *)
Lemma TrimSpace_first ws c s :
  string_forall asciiSpace ws = true →
  (ord c < RuneSelf)%N → IsSpace (ord c) = false →
  ∃ s', TrimSpace (ws +:+ String c s) = String c s'.
Proof.
  intros Hws Hc Hsp. unfold TrimSpace, TrimFunc.
  induction ws as [|a ws IH]; simpl in Hws.
  - rewrite append_nil, range_ascii by done.
    unfold TrimLeftFunc_range. simpl. rewrite Hsp.
    rewrite TrimRight_keep by done. simpl. eauto.
  - apply andb_true_iff in Hws as [Ha Hws]. unfold asciiSpace in Ha.
    apply andb_true_iff in Ha as [Ha1 Ha2]. apply N.ltb_lt in Ha1.
    rewrite append_cons, range_ascii by done.
    unfold TrimLeftFunc_range in *. simpl. rewrite Ha2. by apply IH.
Qed.

Lemma space_not_upper c : IsSpace c = true → isUpperASCII c = false.
Proof.
  unfold IsSpace, isUpperASCII, between. intros H.
  destruct (N.leb_spec 65 c); [|done]. destruct (N.leb_spec c 90); [|done].
  exfalso. destruct (N.leb_spec c 255); [|lia].
  repeat (apply orb_true_iff in H as [H|H]); apply N.eqb_eq in H; lia.
Qed.

Lemma string_map_append f s t :
  string_map f (s +:+ t) = string_map f s +:+ string_map f t.
Proof. induction s as [|a s IH]; [done|]. simpl. rewrite append_cons. by f_equal. Qed.

Lemma string_map_spaces ws :
  string_forall asciiSpace ws = true → string_map lowerASCII ws = ws.
Proof.
  induction ws as [|a ws IH]; [done|]. simpl. intros [Ha Hws]%andb_true_iff.
  unfold asciiSpace in Ha. apply andb_true_iff in Ha as [_ Ha].
  unfold lowerASCII. rewrite (space_not_upper _ Ha), ord_ascii. f_equal. auto.
Qed.

Lemma concat_bytes_app l1 l2 :
  concat_bytes (l1 ++ l2) = concat_bytes l1 +:+ concat_bytes l2.
Proof.
  induction l1 as [|s l1 IH]; [done|]. simpl. rewrite IH.
  induction s as [|a s IHs]; [done|]. rewrite !append_cons. by f_equal.
Qed.

Section Normalization.

Variable To_LowerCase : rune → rune.

Lemma unicode_ToLower_ascii c :
  (c < RuneSelf)%N → isUpperASCII c = false → unicode_ToLower To_LowerCase c = c.
Proof.
  intros Hc Hu. unfold unicode_ToLower, lowerASCII. rewrite Hu.
  unfold RuneSelf in Hc. destruct (N.leb_spec c 127); [done|lia].
Qed.

Lemma EncodeRune_ascii a : (ord a < RuneSelf)%N → EncodeRune (ord a) = String a "".
Proof.
  intros Ha. unfold EncodeRune, RuneSelf in *.
  destruct (N.leb_spec (ord a) 127); [|lia]. unfold byte1. by rewrite ord_ascii.
Qed.

Lemma Map_ascii a s :
  (ord a < RuneSelf)%N → isUpperASCII (ord a) = false →
  Map (unicode_ToLower To_LowerCase) (String a s)
  = String a (Map (unicode_ToLower To_LowerCase) s).
Proof.
  intros Ha Hu. unfold Map, runes. rewrite range_ascii by done. simpl.
  by rewrite unicode_ToLower_ascii, EncodeRune_ascii.
Qed.

(** Lower-casing keeps leading ASCII white space and a first character
    that is ASCII and not a capital. *)
Lemma ToLower_first ws c s :
  string_forall asciiSpace ws = true →
  (ord c < RuneSelf)%N → isUpperASCII (ord c) = false →
  ∃ s', ToLower To_LowerCase (ws +:+ String c s) = ws +:+ String c s'.
Proof.
  intros Hws Hc Hu. unfold ToLower. cbv zeta.
  destruct (string_forall (λ c, (c <? RuneSelf)%N) _).
  - destruct (negb (negb _)); [eauto|].
    rewrite string_map_append, string_map_spaces by done. simpl.
    unfold lowerASCII at 1. rewrite Hu, ord_ascii. eauto.
  - exists (Map (unicode_ToLower To_LowerCase) s).
    induction ws as [|a ws IH]; simpl in Hws.
    + rewrite !append_nil. by apply Map_ascii.
    + apply andb_true_iff in Hws as [Ha Hws]. unfold asciiSpace in Ha.
      apply andb_true_iff in Ha as [Ha1 Ha2]. apply N.ltb_lt in Ha1.
      rewrite !append_cons, Map_ascii, IH; auto using space_not_upper.
Qed.

Lemma normalized_first ws c s :
  string_forall asciiSpace ws = true →
  (ord c < RuneSelf)%N → IsSpace (ord c) = false → isUpperASCII (ord c) = false →
  ∃ s', TrimSpace (ToLower To_LowerCase (ws +:+ String c s)) = String c s'.
Proof.
  intros Hws Hc Hsp Hu.
  destruct (ToLower_first ws c s Hws Hc Hu) as [s1 ->].
  by apply TrimSpace_first.
Qed.

End Normalization.

Lemma IsSpace_enum r : IsSpace r = true → r ∈ white_space.
Proof.
  unfold IsSpace, between. intros H. apply list_elem_of_In.
  destruct (N.leb_spec r 255).
  - repeat (apply orb_true_iff in H as [H|H]); apply N.eqb_eq in H; subst r;
      unfold white_space; simpl; tauto.
  - assert (r = 0x1680 ∨ (0x2000 ≤ r ≤ 0x200A) ∨ (0x2028 ≤ r ≤ 0x2029)
            ∨ r = 0x202F ∨ r = 0x205F ∨ r = 0x3000)%N as Hr.
    { repeat (apply orb_true_iff in H as [H|H]);
        repeat (apply andb_true_iff in H as [H ?]);
        repeat match goal with
               | H : (_ =? _)%N = true |- _ => apply N.eqb_eq in H
               | H : (_ <=? _)%N = true |- _ => apply N.leb_le in H
               end; lia. }
    assert (r = 0x1680 ∨ r = 0x2000 ∨ r = 0x2001 ∨ r = 0x2002 ∨ r = 0x2003
            ∨ r = 0x2004 ∨ r = 0x2005 ∨ r = 0x2006 ∨ r = 0x2007 ∨ r = 0x2008
            ∨ r = 0x2009 ∨ r = 0x200A ∨ r = 0x2028 ∨ r = 0x2029 ∨ r = 0x202F
            ∨ r = 0x205F ∨ r = 0x3000)%N as Hr' by lia.
    clear -Hr'. unfold white_space. simpl.
    repeat (destruct Hr' as [Hr'|Hr']; [subst r; tauto|]). subst r; tauto.
Qed.

(** A white-space rune written in UTF-8 is read back as itself. *)
Lemma range_encode_space r s :
  IsSpace r = true → range (EncodeRune r +:+ s) = (r, EncodeRune r) :: range s.
Proof.
  intros H%IsSpace_enum. unfold white_space in H.
  repeat (apply elem_of_cons in H as [->|H]; [reflexivity|]).
  by apply elem_of_nil in H.
Qed.

Lemma runes_encode_spaces rs :
  Forall (λ r, IsSpace r = true) rs →
  runes (concat_bytes (map EncodeRune rs)) = rs.
Proof.
  induction 1 as [|r rs Hr _ IH]; [reflexivity|]. simpl.
  unfold runes in *. rewrite range_encode_space by done. simpl. by f_equal.
Qed.

Lemma ascii_spaces s :
  string_forall (λ c, (c <? RuneSelf)%N) s = true →
  whitespace_only s → string_forall asciiSpace s = true.
Proof.
  unfold whitespace_only, runes.
  induction s as [|a s IH]; [done|]. simpl. intros [Ha Hs]%andb_true_iff.
  rewrite range_ascii by by apply N.ltb_lt. simpl.
  inversion_clear 1 as [|? ? Hsp Hrest]. unfold asciiSpace at 1.
  rewrite Ha, Hsp. simpl. by apply IH.
Qed.

Section WhiteSpace.

Variable To_LowerCase : rune → rune.
Hypothesis caseless : white_space_is_caseless To_LowerCase.

Lemma unicode_ToLower_space r :
  IsSpace r = true → unicode_ToLower To_LowerCase r = r.
Proof using caseless.
  intros H. unfold unicode_ToLower, lowerASCII.
  rewrite (space_not_upper _ H).
  destruct (N.leb_spec r 127); [done|]. by apply caseless.
Qed.

Lemma ToLower_spaces query :
  whitespace_only query → whitespace_only (ToLower To_LowerCase query).
Proof using caseless.
  intros H. unfold ToLower. cbv zeta.
  destruct (string_forall (λ c, (c <? RuneSelf)%N) query) eqn:Hascii.
  - destruct (negb (negb _)); [done|].
    by rewrite string_map_spaces by by apply ascii_spaces.
  - unfold Map, whitespace_only.
    rewrite <- (map_map (unicode_ToLower To_LowerCase) EncodeRune).
    assert (map (unicode_ToLower To_LowerCase) (runes query) = runes query) as ->.
    { unfold whitespace_only in H. induction H as [|r rs Hr _ IH]; [done|].
      simpl. by rewrite unicode_ToLower_space, IH. }
    by rewrite runes_encode_spaces.
Qed.

Lemma whitespace_only_normalized query :
  whitespace_only query → TrimSpace (ToLower To_LowerCase query) = "".
Proof using caseless.
  intros H. apply TrimFunc_all. by apply ToLower_spaces.
Qed.

End WhiteSpace.

Section PrefixCheck.

Variable To_LowerCase : rune → rune.

Local Abbreviation normalized query := (TrimSpace (ToLower To_LowerCase query)).

Lemma comment_not_a_prefix query :
  begins_with_comment query →
  HasPrefix (normalized query) "select" = false
  ∧ HasPrefix (normalized query) "with" = false.
Proof.
  intros (ws & rest & Hws & [-> | ->]).
  - destruct (normalized_first To_LowerCase ws "-"%char ("-" +:+ rest) Hws)
      as [s' Hs']; [done..|].
    change (ws +:+ "--" +:+ rest) with (ws +:+ String "-" ("-" +:+ rest)).
    rewrite Hs'. by split; apply HasPrefix_first.
  - destruct (normalized_first To_LowerCase ws "/"%char ("*" +:+ rest) Hws)
      as [s' Hs']; [done..|].
    change (ws +:+ "/*" +:+ rest) with (ws +:+ String "/" ("*" +:+ rest)).
    rewrite Hs'. by split; apply HasPrefix_first.
Qed.

(** C4. When no denylist rule matches, the query is allowed exactly when
    its trimmed, lower-cased form starts with [select] or [with], and is
    otherwise rejected for a reason no denylist rule gives.  White space
    alone is rejected by this check, and so is a query that opens with a
    comment, since normalization leaves the comment in place. *)
Theorem allowlist_prefix_check :
  (∀ query,
     (∀ rule, rule ∈ dangerousPatterns → ¬ rule_matches rule (normalized query)) →
     (isSafeQuery To_LowerCase query = None
      ↔ HasPrefix (normalized query) "select" = true
        ∨ HasPrefix (normalized query) "with" = true)
     ∧ (isSafeQuery To_LowerCase query ≠ None →
        isSafeQuery To_LowerCase query = Some not_a_read_query))
  ∧ (∀ rule, not_a_read_query ≠ dangerous rule)
  ∧ (white_space_is_caseless To_LowerCase →
     ∀ query, whitespace_only query →
              isSafeQuery To_LowerCase query = Some not_a_read_query)
  ∧ (∀ query,
       begins_with_comment query →
       isSafeQuery To_LowerCase query ≠ None
       ∧ ((∀ rule, rule ∈ dangerousPatterns → ¬ rule_matches rule (normalized query)) →
          isSafeQuery To_LowerCase query = Some not_a_read_query)).
Proof.
  assert (∀ query,
    (∀ rule, rule ∈ dangerousPatterns → ¬ rule_matches rule (normalized query)) →
    isSafeQuery To_LowerCase query =
      if negb (HasPrefix (normalized query) "select")
         && negb (HasPrefix (normalized query) "with")
      then Some not_a_read_query else None) as Hclean.
  { intros query Hall.
    destruct (isSafeQuery_cases To_LowerCase query)
      as [(before & rule & after & Heq & Hr & _) | [_ ->]]; [|done].
    exfalso. apply (Hall rule); [|done]. rewrite Heq.
    apply elem_of_app. right. left. }
  split; [|split; [|split]].
  - intros query Hall. rewrite (Hclean query Hall).
    destruct (HasPrefix (normalized query) "select"),
             (HasPrefix (normalized query) "with"); simpl;
      (split; [split; [intros; auto; discriminate | intros [?|?]; auto; discriminate]
              |intros H; auto; by destruct H]).
  - intros rule. discriminate.
  - intros Hcl query Hws. unfold isSafeQuery.
    rewrite (whitespace_only_normalized _ Hcl query Hws). reflexivity.
  - intros query Hc.
    destruct (comment_not_a_prefix query Hc) as [Hs Hw]. split.
    + destruct (isSafeQuery_cases To_LowerCase query)
        as [(before & rule & after & _ & _ & _ & ->) | [_ ->]]; [done|].
      by rewrite Hs, Hw.
    + intros Hall. by rewrite (Hclean query Hall), Hs, Hw.
Qed.

End PrefixCheck.

(** ** Row maps *)

Lemma normalize_bytes b : normalize (VBytes b) = VString (string_of_list_byte b).
Proof. reflexivity. Qed.






Lemma dom_fill_rowMap i columns values (m : gmap string value) :
  dom (fill_rowMap i columns values m) = list_to_set columns ∪ dom m.
Proof.
  revert i m. induction columns as [|c columns IH]; intros i m; simpl.
  - symmetry. apply (left_id_L (∅ : gset string) (∪)).
  - rewrite IH, dom_insert_L, (assoc_L (∪)). f_equal. apply (comm_L (∪)).
Qed.

Lemma dom_rowMap_of columns values :
  dom (rowMap_of columns values) = list_to_set (elems columns).
Proof.
  unfold rowMap_of. rewrite dom_fill_rowMap, dom_empty_L.
  apply (right_id_L (∅ : gset string) (∪)).
Qed.

Lemma union_singleton_elem (x : string) (l : list string) :
  x ∈ l → {[x]} ∪ list_to_set l = (list_to_set l : gset string).
Proof.
  intros Hin. apply subseteq_union_1_L, singleton_subseteq_l.
  by apply elem_of_list_to_set.
Qed.

Lemma size_union_singleton (x : string) (l : list string) :
  x ∉ l → size ({[x]} ∪ list_to_set l : gset string) = S (size (list_to_set l : gset string)).
Proof.
  intros Hnin. rewrite size_union, size_singleton; [done|].
  apply disjoint_singleton_l. by rewrite elem_of_list_to_set.
Qed.

Lemma size_list_to_set_le (l : list string) :
  (size (list_to_set l : gset string) ≤ length l)%nat.
Proof.
  induction l as [|x l IH].
  { apply Nat.eq_le_incl, (size_empty (C := gset string)). }
  simpl. destruct (decide (x ∈ l)) as [Hin|Hnin].
  - rewrite union_singleton_elem by done. lia.
  - rewrite size_union_singleton by done. lia.
Qed.

Lemma size_list_to_set_NoDup (l : list string) :
  size (list_to_set l : gset string) = length l ↔ NoDup l.
Proof.
  split; [|apply size_list_to_set].
  induction l as [|x l IH]; simpl; [constructor|]. intros Hsize.
  destruct (decide (x ∈ l)) as [Hin|Hnin].
  - rewrite union_singleton_elem in Hsize by done.
    pose proof (size_list_to_set_le l). lia.
  - rewrite size_union_singleton in Hsize by done.
    constructor; [done|]. apply IH. lia.
Qed.

Lemma size_rowMap_of columns values :
  size (rowMap_of columns values) = size (list_to_set (elems columns) : gset string).
Proof.
  by rewrite <- size_dom, dom_rowMap_of.
Qed.

(** ** The row loop *)

Lemma collect_rows_ok columns next results :
  Forall (λ row, length row = len columns) next →
  collect_rows columns next results
  = Ok (extend results (map (rowMap_of columns) next)).
Proof.
  revert results. induction next as [|row next IH]; intros results Hn; [done|].
  inversion_clear Hn as [|? ? Hrow Hnext]. simpl. unfold Scan_any.
  rewrite decide_True by done. rewrite IH by done. f_equal.
  unfold extend, append. simpl.
  destruct (map (rowMap_of columns) next) eqn:E; simpl.
  - done.
  - by rewrite <- app_assoc.
Qed.

Lemma collect_rows_inv columns next results results' :
  collect_rows columns next results = Ok results' →
  Forall (λ row, length row = len columns) next.
Proof.
  revert results. induction next as [|row next IH]; intros results H; [constructor|].
  simpl in H. unfold Scan_any in H. destruct (decide (length row = len columns)); [|done].
  constructor; [done|]. by eapply IH.
Qed.

(** ** The handlers *)

Lemma RequireString_ok F req key v :
  Arguments req !! key = Some (ArgString v) → RequireString F req key = Ok v.
Proof. intros H. unfold RequireString. by rewrite H. Qed.

Lemma describe_each_log F d tables schemaInfo log :
  ∃ more, (describe_each F d tables schemaInfo log).2 = log ++ more
          ∧ Forall catalog_call more.
Proof.
  revert schemaInfo log. induction tables as [|table tables IH]; intros schemaInfo log.
  - exists []. by rewrite app_nil_r.
  - assert (Forall catalog_call [(sql_describe_table_schema, [table])]) as Hone.
    { constructor; [by right|constructor]. }
    simpl. unfold bind, QueryContext.
    destruct (answer d log _) as [colRows|err]; [|by eexists].
    destruct (collect_columns _ _ _ _) as [cols|err]; [|by eexists].
    destruct (IH (<[table:=cols]> schemaInfo) (log ++ [(sql_describe_table_schema, [table])]))
      as (more & -> & Hmore).
    exists ((sql_describe_table_schema, [table]) :: more).
    rewrite <- app_assoc. split; [done|]. constructor; [by right|done].
Qed.

Lemma getSchemaInfo_log F s log :
  ∃ more, (getSchemaInfo F s log).2 = log ++ more ∧ Forall catalog_call more.
Proof.
  assert (Forall catalog_call [(sql_list_tables, @nil string)]) as Hone.
  { constructor; [by left|constructor]. }
  unfold getSchemaInfo, bind, QueryContext.
  destruct (answer (db s) log _) as [tableRows|err]; [|by eexists].
  destruct (collect_tables _ _ _ _) as [tables|err]; [|by eexists].
  destruct (describe_each_log F (db s) (elems tables) ∅ (log ++ [(sql_list_tables, [])]))
    as (more & -> & Hmore).
  exists ((sql_list_tables, []) :: more). rewrite <- app_assoc. split; [done|].
  constructor; [by left|done].
Qed.

Section HandlerProperties.

Variable To_LowerCase : rune → rune.
Variable F : Formats.

Local Abbreviation normalized query := (TrimSpace (ToLower To_LowerCase query)).


(** C3 (as amended). When the database fails an allowed query at the call
    that issues it: an error text with neither [column] nor [table] in it is
    passed on alone; otherwise the schema snapshot is computed then and
    there and attached, or, when that fails too, both failures are reported
    together.  A query the database answers issues no catalog call; and an
    error that ends the rows of such an answer is not looked at: the rows
    delivered before it are returned as a success. *)
Theorem execution_error_response s req query (log : list Call) :
  Arguments req !! "query" = Some (ArgString query) →
  isSafeQuery To_LowerCase query = None →
  let log1 : list Call := log ++ [(query, [])] in
  (∀ err,
     answer (db s) log (query, []) = Err err →
     Contains err "column" = false → Contains err "table" = false →
     ExecuteQuery To_LowerCase F s req log
     = (Ok (NewToolResultError ("Query failed: " +:+ err)), log1))
  ∧ (∀ err schemaInfo log2,
       answer (db s) log (query, []) = Err err →
       Contains err "column" = true ∨ Contains err "table" = true →
       getSchemaInfo F s log1 = (Ok schemaInfo, log2) →
       ExecuteQuery To_LowerCase F s req log
       = (Ok (NewToolResultError
                ("Query failed: " +:+ err +:+ nl +:+ nl +:+ "Here is the schema:"
                 +:+ nl +:+ Marshal_schema F schemaInfo)), log2))
  ∧ (∀ err schemaErr log2,
       answer (db s) log (query, []) = Err err →
       Contains err "column" = true ∨ Contains err "table" = true →
       getSchemaInfo F s log1 = (Err schemaErr, log2) →
       ExecuteQuery To_LowerCase F s req log
       = (Ok (NewToolResultError
                ("Query failed: " +:+ err +:+ ". Also failed to fetch schema: "
                 +:+ schemaErr)), log2))
  ∧ (∀ rows,
       answer (db s) log (query, []) = Ok rows →
       (ExecuteQuery To_LowerCase F s req log).2 = log1)
  ∧ (∀ rows columns results err,
       answer (db s) log (query, []) = Ok rows →
       rows_Err rows = Some err →
       Columns rows = Ok columns →
       collect_rows columns (Next rows) (Some []) = Ok results →
       ExecuteQuery To_LowerCase F s req log
       = (Ok (NewToolResultText (bytes_or_nil (Marshal_QueryResult F
            {| QR_Columns := columns; QR_Rows := results;
               QR_Count := len results |}))), log1)).
Proof.
  intros Hreq Hsafe log1. subst log1. unfold ExecuteQuery, bind, QueryContext.
  rewrite (RequireString_ok F req "query" query Hreq), Hsafe.
  split; [|split; [|split; [|split]]].
  - intros err Herr Hc Ht. by rewrite Herr, Hc, Ht.
  - intros err schemaInfo log2 Herr Hc Hschema. rewrite Herr.
    assert (Contains err "column" || Contains err "table" = true) as ->
      by by apply orb_true_iff.
    cbv beta iota. by rewrite Hschema.
  - intros err schemaErr log2 Herr Hc Hschema. rewrite Herr.
    assert (Contains err "column" || Contains err "table" = true) as ->
      by by apply orb_true_iff.
    cbv beta iota. by rewrite Hschema.
  - intros rows Hrows. rewrite Hrows. destruct (Columns rows); [|done].
    by destruct (collect_rows _ _ _).
  - intros rows columns results err Hrows _ Hcols Hres.
    rewrite Hrows, Hcols. cbv beta iota. by rewrite Hres.
Qed.

(** C5. The call issued for an accepted query carries the caller's string
    as it came; whatever else is issued reads the catalog. *)
Theorem original_text_is_executed s req query (log : list Call) :
  Arguments req !! "query" = Some (ArgString query) →
  isSafeQuery To_LowerCase query = None →
  (∃ more, (ExecuteQuery To_LowerCase F s req log).2 = log ++ (query, []) :: more
           ∧ Forall catalog_call more)
  ∧ (MainGo.ExecuteQuery To_LowerCase F s req log).2 = log ++ [(query, [])].
Proof.
  intros Hreq Hsafe. unfold ExecuteQuery, MainGo.ExecuteQuery.
  rewrite (RequireString_ok F req "query" query Hreq), Hsafe.
  unfold bind at 1 3. unfold QueryContext. split.
  - destruct (answer (db s) log (query, [])) as [rows|err].
    + exists []. split; [|done]. destruct (Columns rows); [|done].
      by destruct (collect_rows _ _ _).
    + destruct (Contains err "column" || Contains err "table"); [|by exists []].
      unfold bind.
      destruct (getSchemaInfo_log F s (log ++ [(query, [])])) as (more & Hlog & Hmore).
      exists more. destruct (getSchemaInfo F s _) as [[schemaInfo|schemaErr] log2];
        simpl in *; subst log2; by rewrite <- app_assoc.
  - destruct (answer (db s) log (query, [])) as [rows|err]; [|done].
    destruct (Columns rows); [|done].
    destruct (collect_rows _ _ _); [|done].
    by destruct (Marshal_QueryResult _ _).
Qed.

End HandlerProperties.

Lemma extend_append {A} (s : slice A) x l : extend (append s x) l = extend s (x :: l).
Proof.
  unfold extend, append. destruct l as [|y l]; simpl; [done|].
  by rewrite <- app_assoc.
Qed.

Lemma extend_empty {A} (l : list A) : extend (Some []) l = Some l.
Proof. by destruct l. Qed.

Lemma elems_extend_nil {A} (l : list A) : elems (extend None l) = l.
Proof. by destruct l. Qed.

Lemma len_extend {A} (s : slice A) l : len (extend s l) = len s + length l.
Proof.
  unfold len, extend. destruct l as [|y l]; simpl; [lia|].
  rewrite length_app. simpl. lia.
Qed.

(** ** Scanning text rows *)

Lemma Scan_strings_go_text F names i (l : list string) :
  Scan_strings_go F names i (map VString l) = Ok l.
Proof.
  revert i. induction l as [|x l IH]; intros i; [done|]. simpl. by rewrite IH.
Qed.

Lemma Scan_strings_text F names (l : list string) :
  Scan_strings F names (map VString l) (length l) = Ok l.
Proof.
  unfold Scan_strings. rewrite decide_True by by rewrite length_map.
  apply Scan_strings_go_text.
Qed.

Lemma collect_tables_text F names (tables : list string) acc :
  collect_tables F names (map (map VString) (map (λ t, [t]) tables)) acc
  = Ok (extend acc tables).
Proof.
  revert acc. induction tables as [|t tables IH]; intros acc; [done|].
  cbn [map collect_tables].
  rewrite (Scan_strings_text F names [t] : Scan_strings F names [VString t] 1 = _).
  cbn [nth]. by rewrite IH, extend_append.
Qed.

Lemma collect_columns_text F names (cols : list Column) acc :
  collect_columns F names
    (map (map VString) (map (λ c, [column_name c; data_type c]) cols)) acc
  = Ok (extend acc (map column_entry cols)).
Proof.
  revert acc. induction cols as [|c cols IH]; intros acc; [done|].
  cbn [map collect_columns].
  rewrite (Scan_strings_text F names [column_name c; data_type c]
           : Scan_strings F names [VString _; VString _] 2 = _).
  cbn [nth]. by rewrite IH, extend_append.
Qed.

(** ** The catalog database *)

Lemma sql_texts_differ :
  sql_describe_table ≠ sql_list_tables
  ∧ sql_describe_table_schema ≠ sql_list_tables.
Proof. split; intros H; vm_compute in H; discriminate. Qed.

Lemma answer_list_tables cat other log args :
  answer (catalog_DB cat other) log (sql_list_tables, args)
  = Ok (text_rows ["table_name"] (map (λ t, [t]) (public_tables cat))).
Proof. unfold catalog_DB. cbn [answer nth]. by rewrite decide_True. Qed.

Lemma answer_describe_table cat other log table :
  answer (catalog_DB cat other) log (sql_describe_table, [table])
  = Ok (text_rows ["column_name"; "data_type"]
          (map (λ c, [column_name c; data_type c]) (public_columns cat table))).
Proof.
  unfold catalog_DB. cbn [answer nth].
  rewrite decide_False by apply sql_texts_differ.
  rewrite decide_True by by left. done.
Qed.

Lemma answer_describe_table_schema cat other log table :
  answer (catalog_DB cat other) log (sql_describe_table_schema, [table])
  = Ok (text_rows ["column_name"; "data_type"]
          (map (λ c, [column_name c; data_type c]) (public_columns cat table))).
Proof.
  unfold catalog_DB. cbn [answer nth].
  rewrite decide_False by apply sql_texts_differ.
  rewrite decide_True by by right. done.
Qed.

Lemma describe_each_catalog F cat other tables schemaInfo (log : list Call) :
  describe_each F (catalog_DB cat other) tables schemaInfo log
  = (Ok (foldl (λ m t, <[t := extend None (map column_entry (public_columns cat t))]> m)
               schemaInfo tables),
     log ++ map (λ t, (sql_describe_table_schema, [t])) tables).
Proof.
  revert schemaInfo log. induction tables as [|t tables IH]; intros schemaInfo log.
  - simpl. by rewrite app_nil_r.
  - cbn [describe_each map]. unfold bind, QueryContext.
    rewrite answer_describe_table_schema. cbv beta iota.
    unfold text_rows. cbn [Next]. rewrite collect_columns_text.
    rewrite IH. by rewrite <- app_assoc.
Qed.

(** The snapshot of a catalog database is the catalog's public schema. *)
Lemma getSchemaInfo_catalog F cat other (log : list Call) :
  getSchemaInfo F {| db := catalog_DB cat other |} log
  = (Ok (snapshot_of cat),
     log ++ (sql_list_tables, [])
         :: map (λ t, (sql_describe_table_schema, [t])) (public_tables cat)).
Proof.
  unfold getSchemaInfo, bind, QueryContext. cbn [db].
  rewrite answer_list_tables. cbv beta iota. unfold text_rows. cbn [Next].
  rewrite collect_tables_text, elems_extend_nil, describe_each_catalog.
  by rewrite <- app_assoc.
Qed.

Lemma lookup_foldl_insert {V} (f : string → V) (l : list string) (m : gmap string V) t :
  foldl (λ m t, <[t := f t]> m) m l !! t
  = if decide (t ∈ l) then Some (f t) else m !! t.
Proof.
  revert m. induction l as [|x l IH]; intros m; cbn [foldl].
  - destruct (decide (t ∈ [])) as [Hin|_]; [|done]. by apply elem_of_nil in Hin.
  - rewrite IH. destruct (decide (t ∈ l)) as [Hin|Hnin].
    + rewrite decide_True; [done|]. by right.
    + destruct (decide (t = x)) as [->|Hne].
      * rewrite decide_True by left. apply lookup_insert_eq.
      * rewrite decide_False.
        -- by apply lookup_insert_ne.
        -- by intros [?|?]%elem_of_cons.
Qed.

(** The schema snapshot, for a database that holds a catalog: one query for
    the table names and one more for each table; the result maps every
    public table, and nothing else, to its columns in ordinal order. *)
Theorem schema_snapshot_of_catalog F cat other (log : list Call) :
  getSchemaInfo F {| db := catalog_DB cat other |} log
  = (Ok (snapshot_of cat),
     log ++ (sql_list_tables, [])
         :: map (λ t, (sql_describe_table_schema, [t])) (public_tables cat))
  ∧ (∀ t, snapshot_of cat !! t
          = if decide (t ∈ public_tables cat)
            then Some (extend None (map column_entry (public_columns cat t)))
            else None)
  ∧ (∀ t, Sorted by_ordinal (public_columns cat t)).
Proof.
  split; [apply getSchemaInfo_catalog|]. split.
  - intros t. unfold snapshot_of. rewrite lookup_foldl_insert.
    by destruct (decide _).
  - intros t. apply Sorted_merge_sort, _.
Qed.


Section ExecutorProperties.

Variable To_LowerCase : rune → rune.
Variable F : Formats.

Lemma ExecuteQuery_success s req query (log : list Call) rows columns :
  Arguments req !! "query" = Some (ArgString query) →
  isSafeQuery To_LowerCase query = None →
  answer (db s) log (query, []) = Ok rows →
  Columns rows = Ok columns →
  Forall (λ row, length row = len columns) (Next rows) →
  ExecuteQuery To_LowerCase F s req log
  = (Ok (NewToolResultText (bytes_or_nil (Marshal_QueryResult F
       {| QR_Columns := columns;
          QR_Rows := Some (map (rowMap_of columns) (Next rows));
          QR_Count := length (Next rows) |}))),
     log ++ [(query, [])])
  ∧ MainGo.ExecuteQuery To_LowerCase F s req log
    = (match Marshal_QueryResult F
         {| QR_Columns := columns;
            QR_Rows := Some (map (rowMap_of columns) (Next rows));
            QR_Count := length (Next rows) |} with
       | Ok responseJSON => Ok (NewToolResultText responseJSON)
       | Err err => Err (Errorf "failed to marshal response: " err)
       end, log ++ [(query, [])]).
Proof.
  intros Hreq Hsafe Hrows Hcols Harity.
  unfold ExecuteQuery, MainGo.ExecuteQuery, bind, QueryContext.
  rewrite (RequireString_ok F req "query" query Hreq), Hsafe, Hrows, Hcols.
  cbv beta iota. rewrite collect_rows_ok by done. rewrite extend_empty.
  cbv beta iota. unfold len, elems, default. cbn [from_option id].
  unfold id. rewrite length_map.
  split; [done|].
  by destruct (Marshal_QueryResult _ _).
Qed.


(** C9. What the two servers do when the response cannot be serialized:
    [ExecuteQuery] of the three-tool server drops the error and answers an
    empty text as a success; the single-tool server of [main.go] returns the
    error. *)
Theorem marshal_error_is_discarded s req query (log : list Call) rows columns results err :
  Arguments req !! "query" = Some (ArgString query) →
  isSafeQuery To_LowerCase query = None →
  answer (db s) log (query, []) = Ok rows →
  Columns rows = Ok columns →
  collect_rows columns (Next rows) (Some []) = Ok results →
  Marshal_QueryResult F
    {| QR_Columns := columns; QR_Rows := results; QR_Count := len results |} = Err err →
  ExecuteQuery To_LowerCase F s req log
  = (Ok (NewToolResultText ""), log ++ [(query, [])])
  ∧ MainGo.ExecuteQuery To_LowerCase F s req log
    = (Err (Errorf "failed to marshal response: " err), log ++ [(query, [])]).
Proof.
  intros Hreq Hsafe Hrows Hcols Hres Hjson.
  unfold ExecuteQuery, MainGo.ExecuteQuery, bind, QueryContext.
  rewrite (RequireString_ok F req "query" query Hreq), Hsafe, Hrows, Hcols.
  cbv beta iota. rewrite Hres. cbv beta iota. by rewrite Hjson.
Qed.

End ExecutorProperties.

Lemma rowMap_of_entries columns values :
  dom (rowMap_of columns values) = list_to_set (elems columns)
  ∧ size (rowMap_of columns values) = size (list_to_set (elems columns) : gset string)
  ∧ (size (rowMap_of columns values) = len columns ↔ NoDup (elems columns)).
Proof.
  rewrite size_rowMap_of. split; [|split; [done|]].
  - apply dom_rowMap_of.
  - apply size_list_to_set_NoDup.
Qed.

(** C7 (as amended). In every result set of a successful execution, the
    entries of each row are the distinct declared column names: the row has
    as many entries as there are distinct names, and as many as there are
    declared columns exactly when no name is declared twice. *)
Theorem row_entries_are_the_distinct_column_names
    To_LowerCase F s req query (log : list Call) rows columns :
  Arguments req !! "query" = Some (ArgString query) →
  isSafeQuery To_LowerCase query = None →
  answer (db s) log (query, []) = Ok rows →
  Columns rows = Ok columns →
  Forall (λ row, length row = len columns) (Next rows) →
  ∃ response maps,
    ExecuteQuery To_LowerCase F s req log
    = (Ok (NewToolResultText (bytes_or_nil (Marshal_QueryResult F response))),
       log ++ [(query, [])])
    ∧ QR_Columns response = columns
    ∧ QR_Rows response = Some maps
    ∧ length maps = length (Next rows)
    ∧ Forall (λ rowMap : gmap string value,
                dom rowMap = list_to_set (elems columns)
                ∧ size rowMap = size (list_to_set (elems columns) : gset string)
                ∧ (size rowMap = len columns ↔ NoDup (elems columns)))
             maps.
Proof.
  intros Hreq Hsafe Hrows Hcols Harity.
  destruct (ExecuteQuery_success To_LowerCase F s req query log rows columns)
    as [Hrun _]; [done..|].
  eexists _, (map (rowMap_of columns) (Next rows)). split; [exact Hrun|].
  cbn [QR_Columns QR_Rows]. rewrite length_map. repeat split.
  apply Forall_fmap, Forall_forall. intros values _. apply rowMap_of_entries.
Qed.

(** C8 (as amended). [DescribeTable] binds the table name as a parameter
    and answers the table's columns in ordinal order, each as an object with
    the keys [column] and [type]; for a table without columns in the public
    schema, an unknown one among them, the answer is a success whose text is
    the JSON literal [null]. *)
Theorem describe_table_lists_columns_by_ordinal F cat other table req (log : list Call) :
  Arguments req !! "table" = Some (ArgString table) →
  let cols := public_columns cat table in
  DescribeTable F {| db := catalog_DB cat other |} req log
  = (Ok (NewToolResultText (Marshal_columns F (extend None (map column_entry cols)))),
     log ++ [(sql_describe_table, [table])])
  ∧ Sorted by_ordinal cols
  ∧ cols ≡ₚ flat_map table_columns
              (filter (λ t, in_public t = true ∧ table_name t = table) cat)
  ∧ (∀ c, Marshal_map F (column_entry c)
          = json_object F [("column", json_string F (column_name c));
                           ("type", json_string F (data_type c))])
  ∧ (cols ≠ [] →
     Marshal_columns F (extend None (map column_entry cols))
     = json_array (map (λ c, Marshal_map F (column_entry c)) cols))
  ∧ (cols = [] →
     DescribeTable F {| db := catalog_DB cat other |} req log
     = (Ok (NewToolResultText "null"), log ++ [(sql_describe_table, [table])])).
Proof.
  intros Hreq cols.
  assert (DescribeTable F {| db := catalog_DB cat other |} req log
          = (Ok (NewToolResultText (Marshal_columns F (extend None (map column_entry cols)))),
             log ++ [(sql_describe_table, [table])])) as Hrun.
  { unfold DescribeTable, bind, QueryContext. cbn [db].
    rewrite (RequireString_ok F req "table" table Hreq), answer_describe_table.
    cbv beta iota. unfold text_rows. cbn [Next]. by rewrite collect_columns_text. }
  split; [exact Hrun|]. split; [apply Sorted_merge_sort, _|].
  split; [apply merge_sort_Permutation|]. split; [|split].
  - intros c. reflexivity.
  - intros Hne. unfold Marshal_columns, json_slice, extend.
    destruct (map column_entry cols) eqn:E.
    + by destruct cols.
    + rewrite <- E. cbn [elems default app]. by rewrite map_map.
  - intros Hnil. rewrite Hrun, Hnil. reflexivity.
Qed.

(** C10. With no table in the public schema [ListTables] serializes the
    nil slice: the text is the JSON literal [null], not an empty array. *)
Theorem list_tables_of_empty_schema_is_null F s req (log : list Call) rows :
  answer (db s) log (sql_list_tables, []) = Ok rows →
  Next rows = [] →
  ListTables F s req log
  = (Ok (NewToolResultText "null"), log ++ [(sql_list_tables, [])])
  ∧ Marshal_strings F None = "null"
  ∧ Marshal_strings F (Some []) = "[]"
  ∧ Marshal_strings F None ≠ Marshal_strings F (Some [])
  ∧ (∀ cat other,
       public_tables cat = [] →
       ListTables F {| db := catalog_DB cat other |} req log
       = (Ok (NewToolResultText "null"), log ++ [(sql_list_tables, [])])).
Proof.
  intros Hrows Hnext. split; [|split; [done|split; [done|split; [done|]]]].
  - unfold ListTables, bind, QueryContext. by rewrite Hrows, Hnext.
  - intros cat other Hnone. unfold ListTables, bind, QueryContext. cbn [db].
    rewrite answer_list_tables. cbv beta iota. unfold text_rows. cbn [Next].
    by rewrite collect_tables_text, Hnone.
Qed.

(** ** The rules, in words *)

Lemma matches_lits kw re prev w rest :
  matches (lits kw ++ re) prev w rest
  ↔ ∃ w', w = kw ++ w' ∧ matches re (last_or prev kw) w' rest.
Proof.
  revert prev w. induction kw as [|c kw IH]; intros prev w; simpl.
  - split; [by exists w|]. by intros (w' & -> & H).
  - split.
    + intros H. inversion H as [| |a c' ? ? w1 ? Hc Hm| |]; subst.
      apply N.eqb_eq in Hc as ->. apply IH in Hm as (w' & -> & Hm).
      exists w'. by rewrite last_or_cons.
    + intros (w' & -> & Hm). simpl. constructor; [apply N.eqb_refl|].
      apply IH. exists w'. by rewrite <- (last_or_cons prev).
Qed.

Lemma matches_boundary_end prev w rest :
  matches [WordBoundary] prev w rest
  ↔ w = [] ∧ at_word_boundary prev (head rest) = true.
Proof.
  split.
  - intros H. inversion H as [|? ? ? ? Hb Hm| | |]; subst. by inversion Hm; subst.
  - intros [-> Hb]. constructor; [done|constructor].
Qed.

Lemma matches_plus_iff a re prev w rest :
  matches (Plus a :: re) prev w rest
  ↔ ∃ u w', w = u ++ w' ∧ u ≠ [] ∧ Forall (λ c, atom_matches a c = true) u
            ∧ matches re (last_or prev u) w' rest.
Proof.
  split.
  - intros H. inversion H; subst. by eexists _, _.
  - intros (u & w' & -> & Hne & Hu & Hm). by constructor.
Qed.

Lemma matches_star_iff a re prev w rest :
  matches (Star a :: re) prev w rest
  ↔ ∃ u w', w = u ++ w' ∧ Forall (λ c, atom_matches a c = true) u
            ∧ matches re (last_or prev u) w' rest.
Proof.
  split.
  - intros H. inversion H; subst. by eexists _, _.
  - intros (u & w' & -> & Hu & Hm). by constructor.
Qed.

Lemma matches_boundary_iff re prev w rest :
  matches (WordBoundary :: re) prev w rest
  ↔ at_word_boundary prev (head (w ++ rest)) = true ∧ matches re prev w rest.
Proof.
  split.
  - intros H. by inversion H; subst.
  - intros [Hb Hm]. by constructor.
Qed.

Lemma boundary_before_word prev c :
  isWordChar c = true → at_word_boundary prev (Some c) = negb (isWord prev).
Proof. intros H. unfold at_word_boundary. simpl. rewrite H. by destruct (isWord prev). Qed.

Lemma boundary_after_word c next :
  isWordChar c = true → at_word_boundary (Some c) next = negb (isWord next).
Proof. intros H. unfold at_word_boundary. simpl. by rewrite H. Qed.

Lemma last_or_some prev u c : last u = Some c → last_or prev u = Some c.
Proof. intros H. unfold last_or. by rewrite H. Qed.

Lemma last_or_app prev u v : last_or prev (u ++ v) = last_or (last_or prev u) v.
Proof.
  unfold last_or. destruct v as [|c v _] using rev_ind.
  - by rewrite app_nil_r.
  - by rewrite app_assoc, !last_snoc.
Qed.

(** A keyword standing as a word of its own. *)
Lemma keyword_rule_occurs kw first final s :
  head (runes kw) = Some first → isWordChar first = true →
  last (runes kw) = Some final → isWordChar final = true →
  occurs (keyword_rule kw) s
  ↔ ∃ pre post, s = pre ++ runes kw ++ post
                ∧ isWord (last pre) = false ∧ isWord (head post) = false.
Proof.
  intros Hfirst Hw1 Hlast Hw2. unfold occurs, keyword_rule. split.
  - intros (pre & w & post & -> & Hm).
    apply matches_boundary_iff in Hm as [Hb Hm].
    apply matches_lits in Hm as (w' & -> & Hm).
    apply matches_boundary_end in Hm as [-> He].
    rewrite (last_or_some _ _ _ Hlast), boundary_after_word in He by done.
    rewrite app_nil_r in *. destruct (runes kw) as [|c kw']; [done|].
    injection Hfirst as ->. simpl in Hb.
    rewrite boundary_before_word in Hb by done.
    exists pre, post. by repeat split; apply negb_true_iff.
  - intros (pre & post & -> & Hp & Hq). exists pre, (runes kw), post.
    split; [done|]. apply matches_boundary_iff. split.
    + destruct (runes kw) as [|c kw']; [done|]. injection Hfirst as ->. simpl.
      rewrite boundary_before_word by done. by rewrite Hp.
    + apply matches_lits. exists []. split; [by rewrite app_nil_r|].
      apply matches_boundary_end. split; [done|].
      rewrite (last_or_some _ _ _ Hlast), boundary_after_word by done. by rewrite Hq.
Qed.

(** Two keywords with white space between them. *)
Lemma two_keyword_rule_occurs k1 k2 first final s :
  head (runes k1) = Some first → isWordChar first = true →
  last (runes k2) = Some final → isWordChar final = true →
  occurs (two_keyword_rule k1 k2) s
  ↔ ∃ pre ws post, s = pre ++ runes k1 ++ ws ++ runes k2 ++ post
                   ∧ ws ≠ [] ∧ Forall is_space ws
                   ∧ isWord (last pre) = false ∧ isWord (head post) = false.
Proof.
  intros Hfirst Hw1 Hlast Hw2. unfold occurs, two_keyword_rule. split.
  - intros (pre & w & post & -> & Hm).
    apply matches_boundary_iff in Hm as [Hb Hm].
    apply matches_lits in Hm as (w1 & -> & Hm).
    apply matches_plus_iff in Hm as (ws & w2 & -> & Hne & Hws & Hm).
    apply matches_lits in Hm as (w3 & -> & Hm).
    apply matches_boundary_end in Hm as [-> He].
    rewrite (last_or_some _ _ _ Hlast), boundary_after_word in He by done.
    rewrite app_nil_r in *. destruct (runes k1) as [|c k1']; [done|].
    injection Hfirst as ->. simpl in Hb.
    rewrite boundary_before_word in Hb by done.
    exists pre, ws, post. rewrite <- !app_assoc.
    by repeat split; try apply negb_true_iff.
  - intros (pre & ws & post & -> & Hne & Hws & Hp & Hq).
    exists pre, (runes k1 ++ ws ++ runes k2), post.
    split; [by rewrite <- !app_assoc|]. apply matches_boundary_iff. split.
    + destruct (runes k1) as [|c k1']; [done|]. injection Hfirst as ->. simpl.
      rewrite boundary_before_word by done. by rewrite Hp.
    + apply matches_lits. eexists. split; [done|].
      apply matches_plus_iff. exists ws, (runes k2). repeat split; [done..|].
      apply matches_lits. exists []. split; [by rewrite app_nil_r|].
      apply matches_boundary_end. split; [done|].
      rewrite (last_or_some _ _ _ Hlast), boundary_after_word by done. by rewrite Hq.
Qed.

(** [update], white space, anything on one line, white space, [set]. *)
Lemma update_set_rule_occurs s :
  occurs update_set_rule s
  ↔ ∃ pre ws1 mid ws2 post,
      s = pre ++ runes "update" ++ ws1 ++ mid ++ ws2 ++ runes "set" ++ post
      ∧ ws1 ≠ [] ∧ Forall is_space ws1 ∧ Forall not_newline mid
      ∧ ws2 ≠ [] ∧ Forall is_space ws2
      ∧ isWord (last pre) = false ∧ isWord (head post) = false.
Proof.
  unfold occurs, update_set_rule. split.
  - intros (pre & w & post & -> & Hm).
    apply matches_boundary_iff in Hm as [Hb Hm].
    apply matches_lits in Hm as (w1 & -> & Hm).
    apply matches_plus_iff in Hm as (ws1 & w2 & -> & Hne1 & Hws1 & Hm).
    apply matches_star_iff in Hm as (mid & w3 & -> & Hmid & Hm).
    apply matches_plus_iff in Hm as (ws2 & w4 & -> & Hne2 & Hws2 & Hm).
    apply matches_lits in Hm as (w5 & -> & Hm).
    apply matches_boundary_end in Hm as [-> He].
    rewrite (last_or_some _ _ 0x74%N), boundary_after_word in He by done.
    simpl in Hb. rewrite boundary_before_word in Hb by done.
    exists pre, ws1, mid, ws2, post. rewrite app_nil_r, <- !app_assoc.
    by repeat split; try apply negb_true_iff.
  - intros (pre & ws1 & mid & ws2 & post & -> & Hne1 & Hws1 & Hmid & Hne2 & Hws2 & Hp & Hq).
    exists pre, (runes "update" ++ ws1 ++ mid ++ ws2 ++ runes "set"), post.
    split; [by rewrite <- !app_assoc|]. apply matches_boundary_iff. split.
    + simpl. rewrite boundary_before_word by done. by rewrite Hp.
    + apply matches_lits. eexists. split; [done|].
      apply matches_plus_iff. eexists ws1, _. repeat split; [done..|].
      apply matches_star_iff. eexists mid, _. repeat split; [done|].
      apply matches_plus_iff. eexists ws2, _. repeat split; [done..|].
      apply matches_lits. exists []. split; [by rewrite app_nil_r|].
      apply matches_boundary_end. split; [done|].
      rewrite (last_or_some _ _ 0x74%N), boundary_after_word by done. by rewrite Hq.
Qed.

(** The eleven patterns are of these three shapes. *)
Lemma dangerousPatterns_shapes :
  map Compile dangerousPatterns
  = map Some
      [ two_keyword_rule "drop" "table";
        two_keyword_rule "drop" "database";
        two_keyword_rule "drop" "schema";
        keyword_rule "truncate";
        two_keyword_rule "delete" "from";
        update_set_rule;
        two_keyword_rule "insert" "into";
        two_keyword_rule "alter" "table";
        two_keyword_rule "create" "table";
        keyword_rule "grant";
        keyword_rule "revoke" ].
Proof. vm_compute. reflexivity. Qed.

Lemma keyword_rule_matches pattern kw first final text :
  Compile pattern = Some (keyword_rule kw) →
  head (runes kw) = Some first → isWordChar first = true →
  last (runes kw) = Some final → isWordChar final = true →
  rule_matches pattern text
  ↔ ∃ pre post, runes text = pre ++ runes kw ++ post
                ∧ isWord (last pre) = false ∧ isWord (head post) = false.
Proof.
  intros Hc Hfirst Hw1 Hlast Hw2.
  rewrite <- (keyword_rule_occurs kw first final) by done.
  unfold rule_matches. rewrite Hc. split.
  - by intros (re & [= <-] & Hocc).
  - intros Hocc. by eexists.
Qed.

Lemma two_keyword_rule_matches pattern k1 k2 first final text :
  Compile pattern = Some (two_keyword_rule k1 k2) →
  head (runes k1) = Some first → isWordChar first = true →
  last (runes k2) = Some final → isWordChar final = true →
  rule_matches pattern text
  ↔ ∃ pre ws post, runes text = pre ++ runes k1 ++ ws ++ runes k2 ++ post
                   ∧ ws ≠ [] ∧ Forall is_space ws
                   ∧ isWord (last pre) = false ∧ isWord (head post) = false.
Proof.
  intros Hc Hfirst Hw1 Hlast Hw2.
  rewrite <- (two_keyword_rule_occurs k1 k2 first final) by done.
  unfold rule_matches. rewrite Hc. split.
  - by intros (re & [= <-] & Hocc).
  - intros Hocc. by eexists.
Qed.

(** The denylist in words.  A rule on a keyword fires where the keyword
    stands as a word of its own; a rule on two keywords where they stand so
    with white space, and nothing else, between them; the update rule where
    [update], white space, any text without a line break, white space and
    [set] follow each other. *)
Theorem denylist_rules_in_words text :
  (∀ kw,
     kw ∈ ["truncate"; "grant"; "revoke"] →
     rule_matches ("\b" +:+ kw +:+ "\b") text
     ↔ ∃ pre post, runes text = pre ++ runes kw ++ post
                   ∧ isWord (last pre) = false ∧ isWord (head post) = false)
  ∧ (∀ k1 k2,
       (k1, k2) ∈ [("drop", "table"); ("drop", "database"); ("drop", "schema");
                   ("delete", "from"); ("insert", "into"); ("alter", "table");
                   ("create", "table")] →
       rule_matches ("\b" +:+ k1 +:+ "\s+" +:+ k2 +:+ "\b") text
       ↔ ∃ pre ws post, runes text = pre ++ runes k1 ++ ws ++ runes k2 ++ post
                        ∧ ws ≠ [] ∧ Forall is_space ws
                        ∧ isWord (last pre) = false ∧ isWord (head post) = false)
  ∧ (rule_matches "\bupdate\s+.*\s+set\b" text
     ↔ ∃ pre ws1 mid ws2 post,
         runes text = pre ++ runes "update" ++ ws1 ++ mid ++ ws2 ++ runes "set" ++ post
         ∧ ws1 ≠ [] ∧ Forall is_space ws1 ∧ Forall not_newline mid
         ∧ ws2 ≠ [] ∧ Forall is_space ws2
         ∧ isWord (last pre) = false ∧ isWord (head post) = false)
  ∧ dangerousPatterns
    = [ "\b" +:+ "drop" +:+ "\s+" +:+ "table" +:+ "\b";
        "\b" +:+ "drop" +:+ "\s+" +:+ "database" +:+ "\b";
        "\b" +:+ "drop" +:+ "\s+" +:+ "schema" +:+ "\b";
        "\b" +:+ "truncate" +:+ "\b";
        "\b" +:+ "delete" +:+ "\s+" +:+ "from" +:+ "\b";
        "\bupdate\s+.*\s+set\b";
        "\b" +:+ "insert" +:+ "\s+" +:+ "into" +:+ "\b";
        "\b" +:+ "alter" +:+ "\s+" +:+ "table" +:+ "\b";
        "\b" +:+ "create" +:+ "\s+" +:+ "table" +:+ "\b";
        "\b" +:+ "grant" +:+ "\b";
        "\b" +:+ "revoke" +:+ "\b" ].
Proof.
  split; [|split; [|split]].
  - intros kw Hkw.
    repeat (apply elem_of_cons in Hkw as [->|Hkw];
            [eapply keyword_rule_matches; reflexivity|]).
    by apply elem_of_nil in Hkw.
  - intros k1 k2 Hk.
    repeat (apply elem_of_cons in Hk as [[= -> ->]|Hk];
            [eapply two_keyword_rule_matches; reflexivity|]).
    by apply elem_of_nil in Hk.
  - rewrite <- update_set_rule_occurs. unfold rule_matches.
    change (Compile "\bupdate\s+.*\s+set\b") with (Some update_set_rule).
    split.
    + by intros (re & [= <-] & Hocc).
    + intros Hocc. by eexists.
  - reflexivity.
Qed.

Lemma rule_matches_MatchString pattern text :
  rule_matches pattern text → MatchString pattern text = (true, None).
Proof.
  intros (re & Hre & Hocc). unfold MatchString. rewrite Hre.
  apply search_occurs in Hocc. by rewrite Hocc.
Qed.

Lemma MatchString_rule_matches pattern text :
  MatchString pattern text = (true, None) → rule_matches pattern text.
Proof.
  unfold MatchString, rule_matches. destruct (Compile pattern) as [re|]; [|done].
  intros H. exists re. split; [done|]. apply search_occurs. congruence.
Qed.

Lemma sample_LowerCase_caseless : white_space_is_caseless sample_LowerCase.
Proof.
  intros r Hr H%IsSpace_enum. unfold white_space in H.
  repeat (apply elem_of_cons in H as [->|H]; [reflexivity|]).
  by apply elem_of_nil in H.
Qed.

(** A query of mixed case that starts with SELECT: the fourth rule is the
    first to match. *)
Lemma denylist_reports_first_hit_example :
  isSafeQuery sample_LowerCase "SELECT 1; Truncate x" = Some (dangerous "\btruncate\b").
Proof.
  apply (proj1 (denylist_reports_first_hit sample_LowerCase "SELECT 1; Truncate x")
           ["\bdrop\s+table\b"; "\bdrop\s+database\b"; "\bdrop\s+schema\b"]
           "\btruncate\b"
           ["\bdelete\s+from\b"; "\bupdate\s+.*\s+set\b"; "\binsert\s+into\b";
            "\balter\s+table\b"; "\bcreate\s+table\b"; "\bgrant\b"; "\brevoke\b"]).
  - reflexivity.
  - apply MatchString_rule_matches. vm_compute. reflexivity.
  - intros r Hr Hm. apply rule_matches_MatchString in Hm.
    repeat (apply elem_of_cons in Hr as [->|Hr]; [vm_compute in Hm; discriminate|]).
    by apply elem_of_nil in Hr.
Defined.


(** C3 at a database error that mentions a table: the snapshot of the
    catalog is attached, and the catalog calls follow the query in the log. *)
Lemma execution_error_response_example :
  ExecuteQuery sample_LowerCase sample_Formats
    (failing_server sample_catalog "pq: no such table: nope")
    (request "query" "SELECT * FROM nope") []
  = (Ok (NewToolResultError
           ("Query failed: pq: no such table: nope" +:+ nl +:+ nl
            +:+ "Here is the schema:" +:+ nl
            +:+ Marshal_schema sample_Formats (snapshot_of sample_catalog))),
     [("SELECT * FROM nope", []); (sql_list_tables, []);
      (sql_describe_table_schema, ["users"])]).
Proof.
  apply (proj1 (proj2 (execution_error_response sample_LowerCase sample_Formats
           (failing_server sample_catalog "pq: no such table: nope")
           (request "query" "SELECT * FROM nope") "SELECT * FROM nope" []
           ltac:(vm_compute; reflexivity) ltac:(vm_compute; reflexivity)))).
  - vm_compute. reflexivity.
  - right. vm_compute. reflexivity.
  - apply (getSchemaInfo_catalog sample_Formats sample_catalog).
Defined.

(** C4 at the empty query, at white space and at a comment before SELECT. *)
Lemma allowlist_prefix_check_example :
  isSafeQuery sample_LowerCase "" = Some not_a_read_query
  ∧ isSafeQuery sample_LowerCase ("  " +:+ nl) = Some not_a_read_query
  ∧ isSafeQuery sample_LowerCase ("-- note" +:+ nl +:+ "SELECT 1") ≠ None.
Proof.
  destruct (allowlist_prefix_check sample_LowerCase) as (_ & _ & Hws & Hcomment).
  split; [|split].
  - apply (Hws sample_LowerCase_caseless). constructor.
  - apply (Hws sample_LowerCase_caseless). vm_compute. repeat constructor.
  - apply Hcomment. exists "", (" note" +:+ nl +:+ "SELECT 1"). split; [done|by left].
Defined.

(** C5 at a query with surrounding blanks and mixed case. *)
Lemma original_text_is_executed_example :
  (∃ more,
     (ExecuteQuery sample_LowerCase sample_Formats
        (failing_server sample_catalog "pq: no such table: nope")
        (request "query" "  SeLeCT * FROM nope  ") []).2
     = [] ++ ("  SeLeCT * FROM nope  ", []) :: more
     ∧ Forall catalog_call more)
  ∧ (MainGo.ExecuteQuery sample_LowerCase sample_Formats
       (failing_server sample_catalog "pq: no such table: nope")
       (request "query" "  SeLeCT * FROM nope  ") []).2
    = [] ++ [("  SeLeCT * FROM nope  ", [])].
Proof.
  apply (original_text_is_executed sample_LowerCase sample_Formats
           (failing_server sample_catalog "pq: no such table: nope")
           (request "query" "  SeLeCT * FROM nope  ") "  SeLeCT * FROM nope  " []).
  - vm_compute. reflexivity.
  - vm_compute. reflexivity.
Defined.


(** C7, counterexample. With a column name declared twice the row has one
    entry for two declared columns. *)
Lemma duplicate_column_names_collapse :
  ∃ rowMap,
    ExecuteQuery sample_LowerCase sample_Formats (answering_server [] duplicate_rows)
      (request "query" "SELECT 1 AS a, 2 AS a") []
    = (Ok (NewToolResultText (bytes_or_nil (Marshal_QueryResult sample_Formats
             {| QR_Columns := Some ["a"; "a"]; QR_Rows := Some [rowMap];
                QR_Count := 1 |}))),
       [("SELECT 1 AS a, 2 AS a", [])])
    ∧ rowMap = <["a" := VInt64 2]> ∅
    ∧ size rowMap = 1
    ∧ size rowMap ≠ len (Some ["a"; "a"]).
Proof.
  exists (<["a" := VInt64 2]> ∅). split; [vm_compute; reflexivity|].
  split; [reflexivity|]. split; [vm_compute; reflexivity|].
  vm_compute. discriminate.
Qed.

(** C7 (as amended) at the same result set. *)
Lemma row_entries_are_the_distinct_column_names_example :
  ∃ response maps,
    ExecuteQuery sample_LowerCase sample_Formats (answering_server [] duplicate_rows)
      (request "query" "SELECT 1 AS a, 2 AS a") []
    = (Ok (NewToolResultText
             (bytes_or_nil (Marshal_QueryResult sample_Formats response))),
       [] ++ [("SELECT 1 AS a, 2 AS a", [])])
    ∧ QR_Columns response = Some ["a"; "a"]
    ∧ QR_Rows response = Some maps
    ∧ length maps = length (Next duplicate_rows)
    ∧ Forall (λ rowMap : gmap string value,
                dom rowMap = list_to_set (elems (Some ["a"; "a"]))
                ∧ size rowMap = size (list_to_set (elems (Some ["a"; "a"])) : gset string)
                ∧ (size rowMap = len (Some ["a"; "a"]) ↔ NoDup (elems (Some ["a"; "a"]))))
             maps.
Proof.
  apply (row_entries_are_the_distinct_column_names sample_LowerCase sample_Formats
           (answering_server [] duplicate_rows)
           (request "query" "SELECT 1 AS a, 2 AS a") "SELECT 1 AS a, 2 AS a" []
           duplicate_rows (Some ["a"; "a"])).
  - vm_compute. reflexivity.
  - vm_compute. reflexivity.
  - vm_compute. reflexivity.
  - reflexivity.
  - repeat constructor.
Defined.

(** C8, counterexample. For a table the catalog does not know the payload
    is [null], which is not the encoding of an empty sequence. *)
Lemma describe_unknown_table_is_null :
  (DescribeTable sample_Formats (failing_server sample_catalog "down")
     (request "table" "nope") []).1
  = Ok (NewToolResultText "null")
  ∧ Ok (NewToolResultText "null")
    ≠ Ok (NewToolResultText (Marshal_columns sample_Formats (Some []))).
Proof. split; [vm_compute; reflexivity|]. vm_compute. discriminate. Qed.

(** C8 (as amended) at a table whose columns the catalog lists out of
    order. *)
Lemma describe_table_lists_columns_by_ordinal_example :
  DescribeTable sample_Formats (failing_server sample_catalog "down")
    (request "table" "users") []
  = (Ok (NewToolResultText
           (Marshal_columns sample_Formats
              (Some [ column_entry {| column_name := "id"; data_type := "integer";
                                      ordinal_position := 1 |};
                      column_entry {| column_name := "email"; data_type := "text";
                                      ordinal_position := 2 |} ]))),
     [(sql_describe_table, ["users"])]).
Proof.
  apply (describe_table_lists_columns_by_ordinal sample_Formats sample_catalog
           (λ _, Err "down") "users" (request "table" "users") []).
  vm_compute. reflexivity.
Defined.

(** C9 at a result set that holds a NaN. *)
Lemma marshal_error_is_discarded_example :
  ExecuteQuery sample_LowerCase sample_Formats (answering_server [] nan_rows)
    (request "query" "SELECT 'NaN'::float8 AS x") []
  = (Ok (NewToolResultText ""), [] ++ [("SELECT 'NaN'::float8 AS x", [])])
  ∧ MainGo.ExecuteQuery sample_LowerCase sample_Formats (answering_server [] nan_rows)
      (request "query" "SELECT 'NaN'::float8 AS x") []
    = (Err (Errorf "failed to marshal response: " "json: unsupported value: NaN"),
       [] ++ [("SELECT 'NaN'::float8 AS x", [])]).
Proof.
  apply (marshal_error_is_discarded sample_LowerCase sample_Formats
           (answering_server [] nan_rows)
           (request "query" "SELECT 'NaN'::float8 AS x") "SELECT 'NaN'::float8 AS x" []
           nan_rows (Some ["x"])
           (Some [rowMap_of (Some ["x"]) [VFloat64 S754_nan]])).
  - vm_compute. reflexivity.
  - vm_compute. reflexivity.
  - vm_compute. reflexivity.
  - reflexivity.
  - reflexivity.
  - vm_compute. reflexivity.
Defined.

(** C10 at an empty catalog. *)
Lemma list_tables_of_empty_schema_is_null_example :
  ListTables sample_Formats (failing_server [] "down") (request "unused" "") []
  = (Ok (NewToolResultText "null"), [] ++ [(sql_list_tables, [])])
  ∧ Marshal_strings sample_Formats None = "null"
  ∧ Marshal_strings sample_Formats (Some []) = "[]"
  ∧ Marshal_strings sample_Formats None ≠ Marshal_strings sample_Formats (Some [])
  ∧ (∀ cat other,
       public_tables cat = [] →
       ListTables sample_Formats {| db := catalog_DB cat other |} (request "unused" "") []
       = (Ok (NewToolResultText "null"), [] ++ [(sql_list_tables, [])])).
Proof.
  apply (list_tables_of_empty_schema_is_null sample_Formats (failing_server [] "down")
           (request "unused" "") []
           (text_rows ["table_name"] [])).
  - vm_compute. reflexivity.
  - reflexivity.
Defined.

(** * Further properties *)

(** ** The verdict as a whole *)

Lemma isSafeQuery_nil_iff To_LowerCase query :
  isSafeQuery To_LowerCase query = None
  ↔ (∀ rule, rule ∈ dangerousPatterns →
             ¬ rule_matches rule (TrimSpace (ToLower To_LowerCase query)))
    ∧ (HasPrefix (TrimSpace (ToLower To_LowerCase query)) "select" = true
       ∨ HasPrefix (TrimSpace (ToLower To_LowerCase query)) "with" = true).
Proof.
  destruct (isSafeQuery_cases To_LowerCase query)
    as [(before & rule & after & Heq & Hr & _ & Hs) | [Hall Hs]].
  - rewrite Hs. split; [done|]. intros [Hall _]. destruct (Hall rule); [|done].
    rewrite Heq. apply elem_of_app. right. left.
  - rewrite Hs.
    destruct (HasPrefix (TrimSpace (ToLower To_LowerCase query)) "select"),
             (HasPrefix (TrimSpace (ToLower To_LowerCase query)) "with"); simpl;
      (split; [intros; split; auto; discriminate | intros [_ [?|?]]; auto; discriminate]).
Qed.

(** The queries the validator accepts are exactly those whose normalized
    text matches no denylist rule and starts with [select] or [with]; every
    other query is rejected either for the prefix or for a rule of the list
    that matches.  The regex-error exit is never taken. *)
Theorem accepted_queries_are_the_clean_read_queries To_LowerCase query :
  (isSafeQuery To_LowerCase query = None
   ↔ (∀ rule, rule ∈ dangerousPatterns →
              ¬ rule_matches rule (TrimSpace (ToLower To_LowerCase query)))
     ∧ (HasPrefix (TrimSpace (ToLower To_LowerCase query)) "select" = true
        ∨ HasPrefix (TrimSpace (ToLower To_LowerCase query)) "with" = true))
  ∧ (isSafeQuery To_LowerCase query = None
     ∨ isSafeQuery To_LowerCase query = Some not_a_read_query
     ∨ ∃ rule, rule ∈ dangerousPatterns
               ∧ rule_matches rule (TrimSpace (ToLower To_LowerCase query))
               ∧ isSafeQuery To_LowerCase query = Some (dangerous rule)).
Proof.
  split; [apply isSafeQuery_nil_iff|].
  destruct (isSafeQuery_cases To_LowerCase query)
    as [(before & rule & after & Heq & Hr & _ & Hs) | [Hall Hs]].
  - right. right. exists rule. split; [|done].
    rewrite Heq. apply elem_of_app. right. left.
  - rewrite Hs. destruct (negb _ && negb _); auto.
Qed.

(** ** A read query that names no keyword *)

Lemma occurs_lits kw s :
  occurs (lits kw) s ↔ ∃ pre post, s = pre ++ kw ++ post.
Proof.
  unfold occurs. split.
  - intros (pre & w & post & -> & Hm).
    rewrite <- (app_nil_r (lits kw)) in Hm.
    apply matches_lits in Hm as (w' & -> & Hm). inversion Hm; subst.
    exists pre, post. by rewrite app_nil_r.
  - intros (pre & post & ->). exists pre, kw, post. split; [done|].
    rewrite <- (app_nil_r (lits kw)). apply matches_lits.
    exists []. split; [by rewrite app_nil_r|constructor].
Qed.

(** Whether a text mentions a keyword can be computed. *)
Lemma mentions_search text kw :
  mentions text kw ↔ search (lits (runes kw)) None (runes text) = true.
Proof. unfold mentions. by rewrite search_occurs, occurs_lits. Qed.

(** A text a rule matches mentions the keyword the rule begins with. *)
Lemma rule_mentions_keyword rule text :
  rule ∈ dangerousPatterns → rule_matches rule text →
  ∃ kw, kw ∈ denylist_keywords ∧ mentions text kw.
Proof.
  intros Hin Hm. unfold dangerousPatterns in Hin.
  assert (∀ k1 k2 first final,
    Compile rule = Some (two_keyword_rule k1 k2) →
    head (runes k1) = Some first → isWordChar first = true →
    last (runes k2) = Some final → isWordChar final = true →
    mentions text k1) as Htwo.
  { intros k1 k2 first final Hc H1 H2 H3 H4.
    destruct (proj1 (two_keyword_rule_matches rule k1 k2 first final text Hc H1 H2 H3 H4) Hm)
      as (pre & ws & post & Heq & _).
    by exists pre, (ws ++ runes k2 ++ post). }
  assert (∀ kw first final,
    Compile rule = Some (keyword_rule kw) →
    head (runes kw) = Some first → isWordChar first = true →
    last (runes kw) = Some final → isWordChar final = true →
    mentions text kw) as Hone.
  { intros kw first final Hc H1 H2 H3 H4.
    destruct (proj1 (keyword_rule_matches rule kw first final text Hc H1 H2 H3 H4) Hm)
      as (pre & post & Heq & _).
    by exists pre, post. }
  assert (∀ kw, In kw denylist_keywords → mentions text kw →
            ∃ kw, kw ∈ denylist_keywords ∧ mentions text kw) as Hex.
  { intros kw Hkw Hmen. exists kw. split; [by apply list_elem_of_In|done]. }
  apply elem_of_cons in Hin as [->|Hin].
  { apply (Hex "drop"); [simpl; tauto|]. by eapply (Htwo "drop" "table"). }
  apply elem_of_cons in Hin as [->|Hin].
  { apply (Hex "drop"); [simpl; tauto|]. by eapply (Htwo "drop" "database"). }
  apply elem_of_cons in Hin as [->|Hin].
  { apply (Hex "drop"); [simpl; tauto|]. by eapply (Htwo "drop" "schema"). }
  apply elem_of_cons in Hin as [->|Hin].
  { apply (Hex "truncate"); [simpl; tauto|]. by eapply (Hone "truncate"). }
  apply elem_of_cons in Hin as [->|Hin].
  { apply (Hex "delete"); [simpl; tauto|]. by eapply (Htwo "delete" "from"). }
  apply elem_of_cons in Hin as [->|Hin].
  { apply (Hex "update"); [simpl; tauto|].
    destruct Hm as (re & [= <-] & Hocc).
    destruct (proj1 (update_set_rule_occurs (runes text)) Hocc)
      as (pre & ws1 & mid & ws2 & post & Heq & _).
    by exists pre, (ws1 ++ mid ++ ws2 ++ runes "set" ++ post). }
  apply elem_of_cons in Hin as [->|Hin].
  { apply (Hex "insert"); [simpl; tauto|]. by eapply (Htwo "insert" "into"). }
  apply elem_of_cons in Hin as [->|Hin].
  { apply (Hex "alter"); [simpl; tauto|]. by eapply (Htwo "alter" "table"). }
  apply elem_of_cons in Hin as [->|Hin].
  { apply (Hex "create"); [simpl; tauto|]. by eapply (Htwo "create" "table"). }
  apply elem_of_cons in Hin as [->|Hin].
  { apply (Hex "grant"); [simpl; tauto|]. by eapply (Hone "grant"). }
  apply elem_of_cons in Hin as [->|Hin].
  { apply (Hex "revoke"); [simpl; tauto|]. by eapply (Hone "revoke"). }
  by apply elem_of_nil in Hin.
Qed.

(** A query whose normalized text starts with [select] or [with] and
    nowhere contains one of the nine keywords [drop], [truncate], [delete],
    [update], [insert], [alter], [create], [grant], [revoke] (not even inside
    a longer word) is accepted. *)
Theorem keyword_free_read_query_is_accepted To_LowerCase query :
  let text := TrimSpace (ToLower To_LowerCase query) in
  HasPrefix text "select" = true ∨ HasPrefix text "with" = true →
  (∀ kw, kw ∈ denylist_keywords → ¬ mentions text kw) →
  isSafeQuery To_LowerCase query = None.
Proof.
  intros text Hprefix Hfree.
  apply isSafeQuery_nil_iff. split; [|done].
  intros rule Hin Hm.
  destruct (rule_mentions_keyword rule text Hin Hm) as (kw & Hkw & Hmention).
  by apply (Hfree kw).
Qed.

Lemma keyword_free_read_query_is_accepted_example :
  isSafeQuery sample_LowerCase "  SELECT name FROM users WHERE id = 1" = None.
Proof.
  apply (keyword_free_read_query_is_accepted sample_LowerCase
           "  SELECT name FROM users WHERE id = 1").
  - left. vm_compute. reflexivity.
  - intros kw Hkw Hm. apply mentions_search in Hm. unfold denylist_keywords in Hkw.
    repeat (apply elem_of_cons in Hkw as [->|Hkw]; [vm_compute in Hm; discriminate|]).
    by apply elem_of_nil in Hkw.
Defined.

(** ** Letter case *)

Lemma string_forall_append p s t :
  string_forall p (s +:+ t) = string_forall p s && string_forall p t.
Proof. induction s as [|a s IH]; [done|]. simpl. by rewrite IH, andb_assoc. Qed.

Lemma asciiSpace_isASCII ws : string_forall asciiSpace ws = true → isASCII ws = true.
Proof.
  unfold isASCII. induction ws as [|a ws IH]; [done|]. simpl.
  intros [[Ha _]%andb_true_iff Hws]%andb_true_iff. by rewrite Ha, IH.
Qed.

Lemma asciiSpace_no_upper ws :
  string_forall asciiSpace ws = true →
  string_forall (λ c, negb (isUpperASCII c)) ws = true.
Proof.
  induction ws as [|a ws IH]; [done|]. simpl.
  intros [[_ Ha]%andb_true_iff Hws]%andb_true_iff.
  by rewrite (space_not_upper _ Ha), IH.
Qed.

Lemma string_map_id s :
  string_forall (λ c, negb (isUpperASCII c)) s = true → string_map lowerASCII s = s.
Proof.
  induction s as [|a s IH]; [done|]. simpl.
  intros [Ha Hs]%andb_true_iff. apply negb_true_iff in Ha.
  unfold lowerASCII. rewrite Ha, ord_ascii. f_equal. auto.
Qed.

(** On an ASCII string [strings.ToLower] is the byte-wise map, whatever the
    case table. *)
Lemma ToLower_isASCII To_LowerCase s :
  isASCII s = true → ToLower To_LowerCase s = string_map lowerASCII s.
Proof.
  unfold isASCII, ToLower. intros ->. cbv zeta.
  destruct (string_forall (λ c, negb (isUpperASCII c)) s) eqn:E; [|done].
  simpl. by rewrite string_map_id.
Qed.

(** Two ASCII queries that differ in the case of letters only get the same
    verdict, and the Unicode case table has no part in it. *)
Theorem ascii_query_verdict_ignores_case T1 T2 q1 q2 :
  isASCII q1 = true → isASCII q2 = true →
  string_map lowerASCII q1 = string_map lowerASCII q2 →
  isSafeQuery T1 q1 = isSafeQuery T2 q2.
Proof.
  intros H1 H2 Heq. unfold isSafeQuery.
  by rewrite (ToLower_isASCII T1 q1 H1), (ToLower_isASCII T2 q2 H2), Heq.
Qed.

Lemma ascii_query_verdict_ignores_case_example :
  isSafeQuery sample_LowerCase "Select 1; DROP Table t"
  = isSafeQuery (λ r, r) "select 1; drop table T".
Proof.
  apply (ascii_query_verdict_ignores_case sample_LowerCase (λ r, r)
           "Select 1; DROP Table t" "select 1; drop table T"); reflexivity.
Defined.

(** ** Decoding a string that goes on in ASCII *)

Lemma first_lo s0 sz lo hi : first s0 = Some (sz, lo, hi) → (0x80 ≤ lo)%N.
Proof.
  unfold first. intros H.
  repeat match type of H with
         | (if ?c then _ else _) = _ => destruct c
         end; inversion H; lia.
Qed.

Lemma isASCII_start w : isASCII w = true → ascii_start w.
Proof.
  destruct w as [|c w]; [done|]. unfold isASCII. simpl.
  intros [Hc _]%andb_true_iff. by apply N.ltb_lt.
Qed.

Lemma between_ascii lo hi c :
  (0x80 ≤ lo)%N → (c < RuneSelf)%N → between lo hi c = false.
Proof.
  unfold between, RuneSelf. intros Hlo Hc.
  destruct (N.leb_spec lo c); [lia|done].
Qed.

(** A sequence cut short by the end of the string is read in the same way
    when ASCII follows. *)
Lemma DecodeRuneInString_append a t w :
  ascii_start w →
  ∃ r n, DecodeRuneInString (String a (t +:+ w)) = (r, n)
         ∧ DecodeRuneInString (String a t) = (r, n)
         ∧ take_bytes n (String a (t +:+ w)) = take_bytes n (String a t)
         ∧ (Nat.pred n ≤ String.length t)%nat.
Proof.
  intros Hw.
  assert (∀ lo hi, (0x80 ≤ lo)%N →
            match w with
            | String c _ => between lo hi (ord c) = false
            | EmptyString => True
            end) as Hb.
  { intros lo hi Hlo. destruct w as [|c w']; [done|]. by apply between_ascii. }
  cbn [DecodeRuneInString].
  destruct (ord a <? RuneSelf)%N; [eexists _, _; repeat split; simpl; lia|].
  destruct (first (ord a)) as [[[sz lo] hi]|] eqn:Hfirst;
    [|eexists _, _; repeat split; simpl; lia].
  apply first_lo in Hfirst.
  destruct t as [|a1 t1].
  { rewrite append_nil. specialize (Hb lo hi Hfirst).
    destruct w as [|c w']; [eexists _, _; repeat split; simpl; lia|].
    rewrite Hb. eexists _, _; repeat split; simpl; lia. }
  rewrite append_cons.
  destruct (negb (between lo hi (ord a1))); [eexists _, _; repeat split; simpl; lia|].
  destruct (sz <=? 2)%nat; [eexists _, _; repeat split; simpl; lia|].
  destruct t1 as [|a2 t2].
  { rewrite append_nil. specialize (Hb 0x80%N 0xBF%N (N.le_refl _)).
    destruct w as [|c w']; [eexists _, _; repeat split; simpl; lia|].
    unfold cont. rewrite Hb. eexists _, _; repeat split; simpl; lia. }
  rewrite append_cons.
  destruct (negb (cont (ord a2))); [eexists _, _; repeat split; simpl; lia|].
  destruct (sz <=? 3)%nat; [eexists _, _; repeat split; simpl; lia|].
  destruct t2 as [|a3 t3].
  { rewrite append_nil. specialize (Hb 0x80%N 0xBF%N (N.le_refl _)).
    destruct w as [|c w']; [eexists _, _; repeat split; simpl; lia|].
    unfold cont. rewrite Hb. eexists _, _; repeat split; simpl; lia. }
  rewrite append_cons.
  destruct (negb (cont (ord a3))); eexists _, _; repeat split; simpl; lia.
Qed.

Lemma range_go_append k q w :
  ascii_start w → (k ≤ String.length q)%nat →
  range_go k (q +:+ w) = range_go k q ++ range w.
Proof.
  intros Hw. revert k. induction q as [|a t IH]; intros k Hk.
  - simpl in Hk. assert (k = 0) as -> by lia. by rewrite append_nil.
  - rewrite append_cons. destruct k as [|k].
    + destruct (DecodeRuneInString_append a t w Hw) as (r & n & H1 & H2 & H3 & H4).
      cbn [range_go]. rewrite H1, H2, H3, IH by done. done.
    + cbn [range_go]. apply IH. simpl in Hk. lia.
Qed.

Lemma range_append q w : isASCII w = true → range (q +:+ w) = range q ++ range w.
Proof. intros Hw. apply range_go_append; [by apply isASCII_start|lia]. Qed.

Lemma range_blank_append ws s :
  isASCII ws = true → range (ws +:+ s) = range ws ++ range s.
Proof.
  unfold isASCII. induction ws as [|a ws IH]; [done|]. simpl.
  intros [Ha Hw]%andb_true_iff. apply N.ltb_lt in Ha.
  rewrite append_cons, !range_ascii by done. by rewrite IH.
Qed.

Lemma range_asciiSpace ws :
  string_forall asciiSpace ws = true → Forall (λ c, IsSpace c.1 = true) (range ws).
Proof.
  induction ws as [|a ws IH]; [constructor|]. simpl.
  intros [[Ha Hsp]%andb_true_iff Hws]%andb_true_iff. apply N.ltb_lt in Ha.
  rewrite range_ascii by done. constructor; auto.
Qed.

(** ** Blanks around a query *)

Lemma drop_while_app_all {A} (f : A → bool) l1 l2 :
  Forall (λ x, f x = true) l1 → drop_while f (l1 ++ l2) = drop_while f l2.
Proof. induction 1 as [|x l Hx _ IH]; [done|]. simpl. by rewrite Hx. Qed.

Lemma drop_while_all {A} (f : A → bool) l :
  Forall (λ x, f x = true) l → drop_while f l = [].
Proof. intros H. rewrite <- (app_nil_r l). by rewrite drop_while_app_all. Qed.

Lemma drop_while_app {A} (f : A → bool) l1 l2 :
  drop_while f l1 ≠ [] → drop_while f (l1 ++ l2) = drop_while f l1 ++ l2.
Proof.
  induction l1 as [|x l1 IH]; [done|]. simpl. destruct (f x); [exact IH|done].
Qed.

Lemma TrimRight_app_all (f : rune → bool) l w :
  Forall (λ c, f c.1 = true) w →
  TrimRightFunc_range f (l ++ w) = TrimRightFunc_range f l.
Proof.
  intros Hw. unfold TrimRightFunc_range. rewrite rev_app_distr.
  rewrite drop_while_app_all; [done|]. by apply Forall_rev.
Qed.

Lemma TrimFunc_surrounded (f : rune → bool) l1 l l2 :
  Forall (λ c, f c.1 = true) l1 → Forall (λ c, f c.1 = true) l2 →
  TrimRightFunc_range f (TrimLeftFunc_range f (l1 ++ l ++ l2))
  = TrimRightFunc_range f (TrimLeftFunc_range f l).
Proof.
  intros H1 H2. unfold TrimLeftFunc_range.
  rewrite drop_while_app_all by done.
  destruct (drop_while (λ c, f c.1) l) as [|x l'] eqn:E.
  - assert (Forall (λ c, f c.1 = true) l) as Hall.
    { clear -E. induction l as [|y l IH]; [constructor|]. simpl in E.
      destruct (f y.1) eqn:Hy; [|done]. constructor; auto. }
    rewrite drop_while_app_all by done. by rewrite drop_while_all.
  - rewrite drop_while_app by by rewrite E. rewrite E.
    by apply TrimRight_app_all.
Qed.

Lemma TrimSpace_surrounded ws1 s ws2 :
  string_forall asciiSpace ws1 = true → string_forall asciiSpace ws2 = true →
  TrimSpace (ws1 +:+ s +:+ ws2) = TrimSpace s.
Proof.
  intros H1 H2. unfold TrimSpace, TrimFunc.
  rewrite range_blank_append by by apply asciiSpace_isASCII.
  rewrite range_append by by apply asciiSpace_isASCII.
  by rewrite TrimFunc_surrounded by by apply range_asciiSpace.
Qed.

Lemma Map_surrounded To_LowerCase ws1 s ws2 :
  string_forall asciiSpace ws1 = true → string_forall asciiSpace ws2 = true →
  Map (unicode_ToLower To_LowerCase) (ws1 +:+ s +:+ ws2)
  = ws1 +:+ Map (unicode_ToLower To_LowerCase) s +:+ ws2.
Proof.
  intros H1 H2.
  assert (∀ ws, string_forall asciiSpace ws = true →
            concat_bytes ((λ c, EncodeRune (unicode_ToLower To_LowerCase c))
                            <$> (range ws).*1) = ws) as Hblank.
  { clear. induction ws as [|a ws IH]; [done|]. simpl.
    intros [[Ha Hsp]%andb_true_iff Hws]%andb_true_iff. apply N.ltb_lt in Ha.
    rewrite range_ascii by done. rewrite !fmap_cons. cbn [concat_bytes fst].
    rewrite unicode_ToLower_ascii, EncodeRune_ascii by auto using space_not_upper.
    by rewrite IH. }
  unfold Map, runes.
  rewrite range_blank_append by by apply asciiSpace_isASCII.
  rewrite range_append by by apply asciiSpace_isASCII.
  change (map ?f ?l) with (f <$> l).
  rewrite !fmap_app, !concat_bytes_app.
  by rewrite (Hblank ws1 H1), (Hblank ws2 H2).
Qed.

Lemma ToLower_surrounded To_LowerCase ws1 s ws2 :
  string_forall asciiSpace ws1 = true → string_forall asciiSpace ws2 = true →
  ToLower To_LowerCase (ws1 +:+ s +:+ ws2) = ws1 +:+ ToLower To_LowerCase s +:+ ws2.
Proof.
  intros H1 H2. unfold ToLower. cbv zeta.
  rewrite !string_forall_append.
  rewrite (asciiSpace_isASCII ws1 H1 : string_forall _ ws1 = true).
  rewrite (asciiSpace_isASCII ws2 H2 : string_forall _ ws2 = true).
  rewrite (asciiSpace_no_upper ws1 H1), (asciiSpace_no_upper ws2 H2).
  rewrite !andb_true_r. cbn [andb].
  destruct (string_forall (λ c, (c <? RuneSelf)%N) s).
  - destruct (negb (negb _)); [done|].
    by rewrite !string_map_append, (string_map_spaces ws1 H1), (string_map_spaces ws2 H2).
  - by apply Map_surrounded.
Qed.

(** ASCII white space before and after a query, any query, leaves the
    verdict as it is. *)
Theorem surrounding_blanks_do_not_change_the_verdict To_LowerCase ws1 query ws2 :
  string_forall asciiSpace ws1 = true → string_forall asciiSpace ws2 = true →
  isSafeQuery To_LowerCase (ws1 +:+ query +:+ ws2) = isSafeQuery To_LowerCase query.
Proof.
  intros H1 H2. unfold isSafeQuery.
  by rewrite ToLower_surrounded, TrimSpace_surrounded.
Qed.

Lemma surrounding_blanks_do_not_change_the_verdict_example :
  isSafeQuery sample_LowerCase ("  " +:+ "with t as (select 1) select * from t" +:+ nl)
  = isSafeQuery sample_LowerCase "with t as (select 1) select * from t".
Proof.
  apply (surrounding_blanks_do_not_change_the_verdict sample_LowerCase
           "  " "with t as (select 1) select * from t" nl); reflexivity.
Defined.

(** ** The catalog tools on any database *)

Lemma collect_tables_reads F names next acc tables :
  collect_tables F names next acc = Ok tables →
  ∃ l, Forall2 (reads_as F) next l ∧ tables = extend acc l.
Proof.
  revert acc. induction next as [|row next IH]; intros acc H.
  - injection H as <-. exists []. split; [constructor|done].
  - cbn [collect_tables] in H. unfold Scan_strings in H.
    destruct (decide (length row = 1)) as [Hlen|]; [|done].
    destruct row as [|v [|? ?]]; try done.
    cbn [Scan_strings_go] in H. destruct (asString F v) as [name|] eqn:Hv; [|done].
    cbn [nth] in H. apply IH in H as (l & Hl & ->).
    exists (name :: l). split.
    + constructor; [by exists v|done].
    + by rewrite extend_append.
Qed.

Lemma collect_tables_ok F names next acc l :
  Forall2 (reads_as F) next l →
  collect_tables F names next acc = Ok (extend acc l).
Proof.
  intros H. revert acc. induction H as [|row name next l (v & -> & Hv) _ IH]; intros acc.
  - done.
  - cbn [collect_tables]. unfold Scan_strings. rewrite decide_True by done.
    cbn [Scan_strings_go]. rewrite Hv. cbn [nth]. by rewrite IH, extend_append.
Qed.

Lemma RequireString_Err F req key :
  ¬ has_string req key → ∃ e, RequireString F req key = Err e.
Proof.
  unfold RequireString, has_string. intros H.
  destruct (Arguments req !! key) as [[v|]|]; [|by eexists..].
  destruct H. by exists v.
Qed.

(** Whatever the database answers, [ListTables] issues its one statement
    and nothing else, and [DescribeTable] issues its one statement with the
    table name as the bound parameter, or nothing at all when the request
    has no such string: the SQL text never depends on the request. *)
Theorem catalog_tools_issue_fixed_statements F s req (log : list Call) :
  (ListTables F s req log).2 = log ++ [(sql_list_tables, [])]
  ∧ (∀ table, Arguments req !! "table" = Some (ArgString table) →
              (DescribeTable F s req log).2 = log ++ [(sql_describe_table, [table])])
  ∧ (¬ has_string req "table" →
     DescribeTable F s req log = (Ok (missing_parameter "table"), log)).
Proof.
  split; [|split].
  - unfold ListTables, bind, QueryContext.
    destruct (answer _ _ _) as [rows|err]; [|done].
    by destruct (collect_tables _ _ _ _).
  - intros table Hreq. unfold DescribeTable, bind, QueryContext.
    rewrite (RequireString_ok F req "table" table Hreq).
    destruct (answer _ _ _) as [rows|err]; [|done].
    by destruct (collect_columns _ _ _ _).
  - intros Hnone. unfold DescribeTable.
    by destruct (RequireString_Err F req "table" Hnone) as [e ->].
Qed.

Lemma asked_before_cons (log : list Call) t tables k :
  asked_before log (t :: tables) (S k) = asked_before (log ++ [schema_call t]) tables k.
Proof. unfold asked_before. cbn [take map]. by rewrite <- app_assoc. Qed.

Lemma asked_before_0 (log : list Call) tables : asked_before log tables 0 = log.
Proof. unfold asked_before. cbn [take map]. by rewrite app_nil_r. Qed.

(** The loop over the tables when every column query succeeds. *)
Lemma describe_each_all F d tables schemaInfo (log : list Call) :
  (∀ k t, tables !! k = Some t →
          ∃ cols, column_query F d (asked_before log tables k) t = Ok cols) →
  ∃ m, describe_each F d tables schemaInfo log
       = (Ok m, log ++ map schema_call tables)
       ∧ dom m = dom schemaInfo ∪ list_to_set tables
       ∧ (∀ t, t ∉ tables → m !! t = schemaInfo !! t)
       ∧ (∀ k t cols,
            tables !! k = Some t → (∀ j, k < j → tables !! j ≠ Some t) →
            column_query F d (asked_before log tables k) t = Ok cols →
            m !! t = Some cols).
Proof.
  revert schemaInfo log. induction tables as [|t tables IH]; intros schemaInfo log Hall.
  - exists schemaInfo. cbn [describe_each map list_to_set]. rewrite app_nil_r.
    split; [done|]. split; [symmetry; apply (right_id_L (∅ : gset string) (∪))|].
    split; [done|]. intros k t cols Hk. by rewrite lookup_nil in Hk.
  - destruct (Hall 0 t eq_refl) as [cols0 H0]. rewrite asked_before_0 in H0.
    destruct (IH (<[t := cols0]> schemaInfo) (log ++ [schema_call t]))
      as (m & Hrun & Hdom & Hout & Hin).
    { intros k t' Hk. rewrite <- asked_before_cons. by apply (Hall (S k)). }
    exists m. split; [|split; [|split]].
    + cbn [describe_each]. unfold bind, QueryContext.
      unfold column_query, schema_call in H0.
      destruct (answer d log (sql_describe_table_schema, [t])) as [colRows|err]; [|done].
      rewrite H0. cbv beta iota. etrans; [exact Hrun|].
      cbn [map]. by rewrite <- app_assoc.
    + rewrite Hdom, dom_insert_L. cbn [list_to_set].
      rewrite (comm_L (∪) {[t]} (dom schemaInfo)). by rewrite <- (assoc_L (∪)).
    + intros t' Hnot. apply not_elem_of_cons in Hnot as [Hne Hnot].
      rewrite (Hout t' Hnot). by apply lookup_insert_ne.
    + intros [|k] t' cols Hk Hlast Hq.
      * injection Hk as <-. rewrite asked_before_0 in Hq.
        assert (cols = cols0) as -> by congruence.
        rewrite Hout; [apply lookup_insert_eq|].
        intros (j & Hj)%list_elem_of_lookup. by apply (Hlast (S j)); [lia|].
      * rewrite asked_before_cons in Hq. apply (Hin k t' cols Hk); [|done].
        intros j Hlt. apply (Hlast (S j)). lia.
Qed.

(** The loop over the tables up to the first column query that fails. *)
Lemma describe_each_first_failure F d tables schemaInfo (log : list Call) k t e :
  tables !! k = Some t →
  (∀ j tj, j < k → tables !! j = Some tj →
           ∃ cols, column_query F d (asked_before log tables j) tj = Ok cols) →
  column_query F d (asked_before log tables k) t = Err e →
  describe_each F d tables schemaInfo log
  = (Err e, log ++ map schema_call (take (S k) tables)).
Proof.
  revert schemaInfo log k. induction tables as [|t0 tables IH];
    intros schemaInfo log k Hk Hbefore Hfail; [by rewrite lookup_nil in Hk|].
  cbn [describe_each]. unfold bind, QueryContext. destruct k as [|k].
  - injection Hk as ->. rewrite asked_before_0 in Hfail.
    unfold column_query, schema_call in Hfail. cbn [take map].
    destruct (answer d log (sql_describe_table_schema, [t])) as [colRows|err].
    + by rewrite Hfail.
    + by injection Hfail as <-.
  - destruct (Hbefore 0 t0) as [cols0 H0]; [lia|done|].
    rewrite asked_before_0 in H0. unfold column_query, schema_call in H0.
    destruct (answer d log (sql_describe_table_schema, [t0])) as [colRows|err]; [|done].
    rewrite H0. cbv beta iota. rewrite asked_before_cons in Hfail.
    etrans; [apply (IH (<[t0 := cols0]> schemaInfo) (log ++ [schema_call t0]) k Hk);
             [|exact Hfail]|].
    + intros j tj Hlt Hj. rewrite <- asked_before_cons.
      apply (Hbefore (S j) tj); [lia|done].
    + cbn [take map]. by rewrite <- app_assoc.
Qed.

(** The schema snapshot on any database.  When the list of tables cannot be
    had, or a row of it cannot be read, that is the error and no column
    query is made.  Otherwise the column queries are made one per listed
    table in the order listed: when each of them succeeds the snapshot is
    returned after exactly these calls, its keys are the listed tables and
    the entry of a table is what its (last) column query gave; when one
    fails, the first failure is the error returned and no later table is
    asked for. *)
Theorem schema_snapshot_asks_once_per_listed_table F s (log : list Call) :
  (∀ err, answer (db s) log list_call = Err err →
          getSchemaInfo F s log
          = (Err (Errorf "failed to list tables: " err), log ++ [list_call]))
  ∧ (∀ rows, answer (db s) log list_call = Ok rows →
             (¬ ∃ tables, Forall2 (reads_as F) (Next rows) tables) →
             ∃ err, getSchemaInfo F s log = (Err err, log ++ [list_call]))
  ∧ (∀ rows tables,
       answer (db s) log list_call = Ok rows →
       Forall2 (reads_as F) (Next rows) tables →
       ((∀ k t, tables !! k = Some t →
                ∃ cols, column_query F (db s)
                          (asked_before (log ++ [list_call]) tables k) t = Ok cols) →
        ∃ m, getSchemaInfo F s log
             = (Ok m, log ++ list_call :: map schema_call tables)
             ∧ dom m = list_to_set tables
             ∧ (∀ k t cols,
                  tables !! k = Some t → (∀ j, k < j → tables !! j ≠ Some t) →
                  column_query F (db s)
                    (asked_before (log ++ [list_call]) tables k) t = Ok cols →
                  m !! t = Some cols))
       ∧ (∀ k t e,
            tables !! k = Some t →
            (∀ j tj, j < k → tables !! j = Some tj →
                     ∃ cols, column_query F (db s)
                               (asked_before (log ++ [list_call]) tables j) tj
                             = Ok cols) →
            column_query F (db s) (asked_before (log ++ [list_call]) tables k) t
            = Err e →
            getSchemaInfo F s log
            = (Err e, log ++ list_call :: map schema_call (take (S k) tables))))
  ∧ (∀ (log' : list Call) table,
       (∀ err, answer (db s) log' (sql_describe_table_schema, [table]) = Err err →
               column_query F (db s) log' table
               = Err (Errorf ("failed to describe table " +:+ table +:+ ": ") err))
       ∧ (∀ colRows,
            answer (db s) log' (sql_describe_table_schema, [table]) = Ok colRows →
            column_query F (db s) log' table
            = collect_columns F (column_names colRows) (Next colRows) None)).
Proof.
  split; [|split; [|split]].
  - intros err Herr. unfold getSchemaInfo, bind, QueryContext.
    unfold list_call in *. by rewrite Herr.
  - intros rows Hrows Hnone. unfold getSchemaInfo, bind, QueryContext.
    unfold list_call in *. rewrite Hrows.
    destruct (collect_tables F (column_names rows) (Next rows) None) as [tables|err] eqn:Hc;
      [|by eexists].
    apply collect_tables_reads in Hc as (l & Hl & _). destruct Hnone. by exists l.
  - intros rows tables Hrows Hread.
    assert (getSchemaInfo F s log
            = describe_each F (db s) tables ∅ (log ++ [list_call])) as Hrun.
    { unfold getSchemaInfo, bind, QueryContext.
      unfold list_call in *. rewrite Hrows.
      by rewrite (collect_tables_ok F _ _ None tables Hread), elems_extend_nil. }
    split.
    + intros Hall.
      destruct (describe_each_all F (db s) tables ∅ (log ++ [list_call]) Hall)
        as (m & Hm & Hdom & _ & Hin).
      exists m. rewrite Hrun, Hm. split; [by rewrite <- app_assoc|].
      split; [|exact Hin].
      rewrite Hdom, dom_empty_L. apply (left_id_L (∅ : gset string) (∪)).
    + intros k t e Hk Hbefore Hfail. rewrite Hrun.
      rewrite (describe_each_first_failure F (db s) tables ∅ _ k t e Hk Hbefore Hfail).
      by rewrite <- app_assoc.
  - intros log' table. unfold column_query, schema_call. split.
    + by intros err ->.
    + by intros colRows ->.
Qed.

(** [ListTables] answers all the names or none.  When every row the
    database delivers is one value that reads as a string, the answer is
    these strings in the order delivered; and it gives an answer in that case
    only, so a row it cannot read costs the whole list. *)
Theorem list_tables_is_all_or_nothing F s req (log : list Call) rows :
  answer (db s) log (sql_list_tables, []) = Ok rows →
  (∀ tables,
     Forall2 (reads_as F) (Next rows) tables →
     ListTables F s req log
     = (Ok (NewToolResultText (Marshal_strings F (extend None tables))),
        log ++ [(sql_list_tables, [])]))
  ∧ (∀ r, (ListTables F s req log).1 = Ok r →
          ∃ tables, Forall2 (reads_as F) (Next rows) tables
                    ∧ r = NewToolResultText (Marshal_strings F (extend None tables)))
  ∧ (∀ tables, tables ≠ [] →
               Marshal_strings F (extend None tables)
               = json_array (map (json_string F) tables)).
Proof.
  intros Hrows. unfold ListTables, bind, QueryContext. rewrite Hrows.
  split; [|split].
  - intros tables Hread. by rewrite (collect_tables_ok F _ _ None tables Hread).
  - intros r Hr.
    destruct (collect_tables F (column_names rows) (Next rows) None) as [tables|err] eqn:Hc;
      [|done].
    apply collect_tables_reads in Hc as (l & Hl & ->).
    injection Hr as <-. by exists l.
  - intros [|t tables] Hne; [done|]. reflexivity.
Qed.

Lemma list_tables_is_all_or_nothing_example :
  ListTables sample_Formats (failing_server sample_catalog "down")
    (request "unused" "") []
  = (Ok (NewToolResultText (Marshal_strings sample_Formats (extend None ["users"]))),
     [] ++ [(sql_list_tables, [])]).
Proof.
  apply (proj1 (list_tables_is_all_or_nothing sample_Formats
                  (failing_server sample_catalog "down") (request "unused" "") []
                  (text_rows ["table_name"] [["users"]])
                  ltac:(vm_compute; reflexivity))).
  constructor; [|constructor]. by exists (VString "users").
Defined.

(** ** Serializing a result *)

Lemma sequence_Err {A} (l : list (result A)) :
  (∃ e, sequence l = Err e) ↔ ∃ e, Err e ∈ l.
Proof.
  induction l as [|[a|e] l IH]; simpl.
  - split; intros [e H]; [done|]. by apply elem_of_nil in H.
  - split.
    + destruct (sequence l) as [r|e] eqn:E; intros [e' H]; [done|].
      destruct (proj1 IH) as [e'' He'']; [by eexists|]. exists e''. by right.
    + intros [e H]. apply elem_of_cons in H as [?|H]; [done|].
      destruct (proj2 IH) as [e' ->]; [by eexists|]. by eexists.
  - split; intros _; eexists; [left|done].
Qed.

Lemma elem_of_sorted_entries {V} (m : gmap string V) k v :
  (k, v) ∈ sorted_entries m ↔ m !! k = Some v.
Proof.
  unfold sorted_entries. rewrite merge_sort_Permutation. apply elem_of_map_to_list.
Qed.

Lemma Marshal_row_Err F (m : gmap string value) :
  (∃ e, Marshal_row F m = Err e) ↔ ∃ k v, m !! k = Some v ∧ unserializable F v.
Proof.
  unfold Marshal_row, unserializable.
  destruct (sequence _) as [fields|e] eqn:E.
  - split; [by intros [e H]|]. intros (k & v & Hkv & err & Hv). exfalso.
    apply elem_of_sorted_entries in Hkv.
    assert (∃ e, sequence (map (λ kv : string * value,
                   match Marshal_value F kv.2 with
                   | Ok s => Ok (kv.1, s)
                   | Err e => Err e
                   end) (sorted_entries m)) = Err e) as [e He].
    { apply sequence_Err. exists err. apply list_elem_of_In, in_map_iff.
      exists (k, v). simpl. rewrite Hv. split; [done|]. by apply list_elem_of_In. }
    congruence.
  - split; [|by eexists]. intros _.
    pose proof (ex_intro (λ e, _ = Err e) e E) as Hex.
    apply sequence_Err in Hex as [e' He'].
    apply list_elem_of_In, in_map_iff in He' as ([k v] & Hkv & Hin). simpl in Hkv.
    exists k, v. split; [by apply elem_of_sorted_entries, list_elem_of_In|].
    destruct (Marshal_value F v) as [s|e'']; [done|]. by eexists.
Qed.

Lemma Marshal_QueryResult_Err F columns rows count :
  (∃ e, Marshal_QueryResult F
          {| QR_Columns := columns; QR_Rows := Some rows; QR_Count := count |} = Err e)
  ↔ ∃ rowMap k v, rowMap ∈ rows ∧ rowMap !! k = Some v ∧ unserializable F v.
Proof.
  unfold Marshal_QueryResult. cbn [QR_Rows QR_Columns QR_Count].
  destruct (sequence (map (Marshal_row F) rows)) as [rs|e] eqn:E.
  - split; [by intros [e H]|]. intros (rowMap & k & v & Hin & Hkv & Hv). exfalso.
    destruct (proj2 (Marshal_row_Err F rowMap)) as [e He]; [by eauto|].
    assert (∃ e, sequence (map (Marshal_row F) rows) = Err e) as [e' He'].
    { apply sequence_Err. exists e. rewrite <- He.
      apply list_elem_of_In, in_map, list_elem_of_In, Hin. }
    congruence.
  - split; [|by eexists]. intros _.
    pose proof (ex_intro (λ e, _ = Err e) e E) as Hex.
    apply sequence_Err in Hex as [e' He'].
    apply list_elem_of_In, in_map_iff in He' as (rowMap & Hrow & Hin).
    destruct (proj1 (Marshal_row_Err F rowMap)) as (k & v & Hkv & Hv); [by eexists|].
    exists rowMap, k, v. split; [by apply list_elem_of_In|done].
Qed.

Lemma unserializable_cases F v :
  unserializable F v
  ↔ (∃ f, v = VFloat64 f ∧ is_finite f = false)
    ∨ (∃ t err, v = VTime t ∧ json_time F t = Err err).
Proof.
  unfold unserializable. split.
  - intros [err H]. destruct v; simpl in H; try done.
    + destruct (is_finite f) eqn:E; [done|]. left. by exists f.
    + right. by exists t, err.
  - intros [(f & -> & Hf) | (t & err & -> & Ht)]; simpl.
    + rewrite Hf. by eexists.
    + by eexists.
Qed.

Section ExecutorOutcomes.

Variable To_LowerCase : rune → rune.
Variable F : Formats.

(** When the response of the three-tool server comes out empty.  For a
    query the database answers, the text of the result is empty exactly when
    some entry of some row is a float that is not finite or a time the
    encoder refuses, which is also exactly when the single-tool server
    reports a marshalling error; in every other case both servers return the
    same text, and it is not empty. *)
Theorem response_is_lost_exactly_on_unserializable_values
    s req query (log : list Call) rows columns :
  Arguments req !! "query" = Some (ArgString query) →
  isSafeQuery To_LowerCase query = None →
  answer (db s) log (query, []) = Ok rows →
  Columns rows = Ok columns →
  Forall (λ row, length row = len columns) (Next rows) →
  let lost := ∃ row k v, row ∈ Next rows
                         ∧ rowMap_of columns row !! k = Some v
                         ∧ unserializable F v in
  (lost ↔ ExecuteQuery To_LowerCase F s req log
          = (Ok (NewToolResultText ""), log ++ [(query, [])]))
  ∧ (lost ↔ ∃ err, MainGo.ExecuteQuery To_LowerCase F s req log
                   = (Err (Errorf "failed to marshal response: " err),
                      log ++ [(query, [])]))
  ∧ (¬ lost →
     ∃ text, text ≠ ""
             ∧ ExecuteQuery To_LowerCase F s req log
               = (Ok (NewToolResultText text), log ++ [(query, [])])
             ∧ MainGo.ExecuteQuery To_LowerCase F s req log
               = (Ok (NewToolResultText text), log ++ [(query, [])]))
  ∧ (∀ v, unserializable F v
          ↔ (∃ f, v = VFloat64 f ∧ is_finite f = false)
            ∨ (∃ t err, v = VTime t ∧ json_time F t = Err err)).
Proof.
  intros Hreq Hsafe Hrows Hcols Harity lost.
  destruct (ExecuteQuery_success To_LowerCase F s req query log rows columns)
    as [-> ->]; [done..|].
  assert (lost ↔ ∃ e, Marshal_QueryResult F
            {| QR_Columns := columns;
               QR_Rows := Some (map (rowMap_of columns) (Next rows));
               QR_Count := length (Next rows) |} = Err e) as Hlost.
  { rewrite Marshal_QueryResult_Err. unfold lost. split.
    - intros (row & k & v & Hin & Hkv & Hv). exists (rowMap_of columns row), k, v.
      split; [|done]. by apply list_elem_of_In, in_map, list_elem_of_In.
    - intros (rowMap & k & v & Hin & Hkv & Hv).
      apply list_elem_of_In, in_map_iff in Hin as (row & <- & Hin).
      exists row, k, v. split; [by apply list_elem_of_In|done]. }
  assert (∀ r, Marshal_QueryResult F r ≠ Ok "") as Hne.
  { intros r. unfold Marshal_QueryResult. destruct (QR_Rows r); [|done].
    by destruct (sequence _). }
  split; [|split; [|split]].
  - rewrite Hlost. destruct (Marshal_QueryResult F _) as [text|e] eqn:E.
    + split; [by intros [e H]|]. intros [= H]. subst text. by destruct (Hne _ E).
    + split; [done|]. by eexists.
  - rewrite Hlost. destruct (Marshal_QueryResult F _) as [text|e] eqn:E.
    + split; [by intros [e H]|by intros [e H]].
    + split; intros _; by eexists.
  - rewrite Hlost. destruct (Marshal_QueryResult F _) as [text|e] eqn:E.
    + intros _. exists text. split; [|done]. intros ->. by destruct (Hne _ E).
    + intros H. destruct H. by eexists.
  - apply unserializable_cases.
Qed.

(** A query that selects no row is answered with an empty array and the
    count zero, by both servers: unlike the catalog tools, the executor
    starts from an empty slice, not from nil. *)
Theorem empty_result_set_is_an_empty_array s req query (log : list Call) rows columns :
  Arguments req !! "query" = Some (ArgString query) →
  isSafeQuery To_LowerCase query = None →
  answer (db s) log (query, []) = Ok rows →
  Columns rows = Ok columns →
  Next rows = [] →
  let text := json_object F [("columns", Marshal_strings F columns);
                             ("rows", "[]"); ("count", "0")] in
  ExecuteQuery To_LowerCase F s req log
  = (Ok (NewToolResultText text), log ++ [(query, [])])
  ∧ MainGo.ExecuteQuery To_LowerCase F s req log
    = (Ok (NewToolResultText text), log ++ [(query, [])]).
Proof.
  intros Hreq Hsafe Hrows Hcols Hnext text.
  destruct (ExecuteQuery_success To_LowerCase F s req query log rows columns)
    as [-> ->]; [done..|by rewrite Hnext|].
  by rewrite Hnext.
Qed.


End ExecutorOutcomes.

Lemma response_is_lost_exactly_on_unserializable_values_example :
  ExecuteQuery sample_LowerCase sample_Formats (answering_server [] nan_rows)
    (request "query" "SELECT 'NaN'::float8 AS x") []
  = (Ok (NewToolResultText ""), [] ++ [("SELECT 'NaN'::float8 AS x", [])]).
Proof.
  apply (proj1 (response_is_lost_exactly_on_unserializable_values
                  sample_LowerCase sample_Formats (answering_server [] nan_rows)
                  (request "query" "SELECT 'NaN'::float8 AS x")
                  "SELECT 'NaN'::float8 AS x" [] nan_rows (Some ["x"])
                  ltac:(vm_compute; reflexivity) ltac:(vm_compute; reflexivity)
                  ltac:(vm_compute; reflexivity) ltac:(reflexivity)
                  ltac:(repeat constructor))).
  exists [VFloat64 S754_nan], "x", (VFloat64 S754_nan).
  split; [left|]. split; [vm_compute; reflexivity|].
  exists "json: unsupported value: NaN". reflexivity.
Defined.

Lemma empty_result_set_is_an_empty_array_example :
  ExecuteQuery sample_LowerCase sample_Formats (answering_server [] empty_rows)
    (request "query" "SELECT a FROM t WHERE false") []
  = (Ok (NewToolResultText
           (json_object sample_Formats
              [("columns", Marshal_strings sample_Formats (Some ["a"]));
               ("rows", "[]"); ("count", "0")])),
     [] ++ [("SELECT a FROM t WHERE false", [])])
  ∧ MainGo.ExecuteQuery sample_LowerCase sample_Formats (answering_server [] empty_rows)
      (request "query" "SELECT a FROM t WHERE false") []
    = (Ok (NewToolResultText
             (json_object sample_Formats
                [("columns", Marshal_strings sample_Formats (Some ["a"]));
                 ("rows", "[]"); ("count", "0")])),
       [] ++ [("SELECT a FROM t WHERE false", [])]).
Proof.
  apply (empty_result_set_is_an_empty_array sample_LowerCase sample_Formats
           (answering_server [] empty_rows)
           (request "query" "SELECT a FROM t WHERE false")
           "SELECT a FROM t WHERE false" [] empty_rows (Some ["a"])).
  - vm_compute. reflexivity.
  - vm_compute. reflexivity.
  - vm_compute. reflexivity.
  - reflexivity.
  - reflexivity.
Defined.


(** ** The tools and their declared parameters *)

Lemma ExecuteQuery_not_missing To_LowerCase F s req (log : list Call) p :
  has_string req "query" →
  (ExecuteQuery To_LowerCase F s req log).1 ≠ Ok (missing_parameter p).
Proof.
  intros [query Hq]. unfold ExecuteQuery, bind, QueryContext.
  rewrite (RequireString_ok F req "query" query Hq).
  destruct (isSafeQuery To_LowerCase query); [done|].
  destruct (answer (db s) log (query, [])) as [rows|err].
  - destruct (Columns rows); [|done]. by destruct (collect_rows _ _ _).
  - destruct (Contains err "column" || Contains err "table"); [|done].
    unfold bind. by destruct (getSchemaInfo F s _) as [[schemaInfo|schemaErr] log2].
Qed.

Lemma ListTables_not_missing F s req (log : list Call) p :
  (ListTables F s req log).1 ≠ Ok (missing_parameter p).
Proof.
  unfold ListTables, bind, QueryContext.
  destruct (answer (db s) log _) as [rows|err]; [|done].
  by destruct (collect_tables _ _ _ _).
Qed.

Lemma DescribeTable_not_missing F s req (log : list Call) p :
  has_string req "table" →
  (DescribeTable F s req log).1 ≠ Ok (missing_parameter p).
Proof.
  intros [table Ht]. unfold DescribeTable, bind, QueryContext.
  rewrite (RequireString_ok F req "table" table Ht).
  destruct (answer (db s) log _) as [rows|err]; [|done].
  by destruct (collect_columns _ _ _ _).
Qed.

(** [setupMCPTools] registers three tools under their own names, each with
    its own handler.  The parameters a tool declares are all of type string
    and all required, and they are the ones its handler insists on: a
    request that lacks one is answered with the tool error that names it,
    before any database call, and a request that carries them never is.
    The single-tool server of [main.go] declares no parameter at all for its
    tool, yet answers a request without the string [query] with a tool
    error. *)
Theorem declared_parameters_are_the_required_ones To_LowerCase F s :
  dom (tools (setupMCPTools To_LowerCase F s NewMCPServer))
  = {["postgres_query"; "list_tables"; "describe_table"]}
  ∧ (∀ name tool handler,
       tools (setupMCPTools To_LowerCase F s NewMCPServer) !! name
       = Some (tool, handler) →
       Name tool = name
       ∧ dom (Properties tool) = list_to_set (Required tool)
       ∧ (∀ p schema, Properties tool !! p = Some schema →
                      SchemaType schema = "string")
       ∧ Required tool = match name with
                         | "postgres_query" => ["query"]
                         | "describe_table" => ["table"]
                         | _ => []
                         end
       ∧ (name = "postgres_query" → handler = ExecuteQuery To_LowerCase F s)
       ∧ (name = "list_tables" → handler = ListTables F s)
       ∧ (name = "describe_table" → handler = DescribeTable F s)
       ∧ ∀ req (log : list Call),
           (∀ p, p ∈ Required tool → ¬ has_string req p →
                 handler req log = (Ok (missing_parameter p), log))
           ∧ ((∀ p, p ∈ Required tool → has_string req p) →
              ∀ p, (handler req log).1 ≠ Ok (missing_parameter p)))
  ∧ (∀ name tool handler,
       tools (SingleTool.setupMCPTools To_LowerCase F s NewMCPServer) !! name
       = Some (tool, handler) →
       name = "postgres_query" ∧ Required tool = [] ∧ Properties tool = ∅
       ∧ handler = MainGo.ExecuteQuery To_LowerCase F s
       ∧ ∀ req (log : list Call),
           ¬ has_string req "query" →
           ∃ text, handler req log = (Ok (NewToolResultError text), log)).
Proof.
  split; [|split].
  - unfold setupMCPTools, AddTool, NewMCPServer.
    cbn [tools Name NewTool foldl WithDescription WithString].
    rewrite !dom_insert_L, dom_empty_L. set_solver.
  - intros name tool handler. unfold setupMCPTools, AddTool, NewMCPServer.
    cbn [tools Name NewTool foldl WithDescription WithString].
    intros H.
    apply lookup_insert_Some in H as [[<- [= <- <-]]|[_ H]];
      [|apply lookup_insert_Some in H as [[<- [= <- <-]]|[_ H]];
        [|apply lookup_insert_Some in H as [[<- [= <- <-]]|[_ H]]; [|done]]].
    + split; [done|]. unfold WithString, WithDescription.
      cbn [Properties Required Name Description app]. split.
      { rewrite dom_insert_L, dom_empty_L. set_solver. }
      split.
      { intros p schema [[_ <-]|[_ H]]%lookup_insert_Some; [done|].
        by rewrite lookup_empty in H. }
      split; [done|]. split; [done|]. split; [done|]. split; [done|].
      intros req log. split.
      * intros p ->%list_elem_of_singleton Hp. unfold DescribeTable.
        destruct (RequireString_Err F req "table" Hp) as [e ->]. done.
      * intros Hall p. apply DescribeTable_not_missing, Hall. by left.
    + split; [done|]. unfold WithString, WithDescription.
      cbn [Properties Required Name Description app]. split.
      { by rewrite dom_empty_L. }
      split.
      { intros p schema H. by rewrite lookup_empty in H. }
      split; [done|]. split; [done|]. split; [done|]. split; [done|].
      intros req log. split.
      * intros p Hp. by apply elem_of_nil in Hp.
      * intros _ p. apply ListTables_not_missing.
    + split; [done|]. unfold WithString, WithDescription.
      cbn [Properties Required Name Description app]. split.
      { rewrite dom_insert_L, dom_empty_L. set_solver. }
      split.
      { intros p schema [[_ <-]|[_ H]]%lookup_insert_Some; [done|].
        by rewrite lookup_empty in H. }
      split; [done|]. split; [done|]. split; [done|]. split; [done|].
      intros req log. split.
      * intros p ->%list_elem_of_singleton Hp. unfold ExecuteQuery.
        destruct (RequireString_Err F req "query" Hp) as [e ->]. done.
      * intros Hall p. apply ExecuteQuery_not_missing, Hall. by left.
  - intros name tool handler. unfold SingleTool.setupMCPTools, AddTool, NewMCPServer.
    cbn [tools Name NewTool foldl WithDescription].
    intros H. apply lookup_insert_Some in H as [[<- [= <- <-]]|[_ H]]; [|done].
    split; [done|]. split; [done|]. split; [done|]. split; [done|]. intros req log Hq.
    unfold MainGo.ExecuteQuery.
    destruct (RequireString_Err F req "query" Hq) as [e ->]. by eexists.
Qed.

(** ** Reading the environment *)

Lemma runes_isASCII s : isASCII s = true → runes s = codes s.
Proof.
  unfold isASCII, runes, codes. induction s as [|a s IH]; [done|]. simpl.
  intros [Ha Hw]%andb_true_iff. apply N.ltb_lt in Ha.
  rewrite range_ascii by done. rewrite fmap_cons. simpl. f_equal. by apply IH.
Qed.

Lemma runes_ascii_append ws s :
  isASCII ws = true → runes (ws +:+ s) = codes ws ++ runes s.
Proof.
  intros H. unfold runes at 1. rewrite range_blank_append by done.
  rewrite fmap_app. f_equal. by apply runes_isASCII.
Qed.

Lemma codes_cons a s : codes (String a s) = ord a :: codes s.
Proof. done. Qed.

(** *** Decimal numerals *)

Lemma pretty_N_char_digit x : (x < 10)%N → isDigit (ord (pretty_N_char x)) = true.
Proof.
  intros H.
  assert (x = 0 ∨ x = 1 ∨ x = 2 ∨ x = 3 ∨ x = 4 ∨ x = 5 ∨ x = 6 ∨ x = 7 ∨ x = 8 ∨ x = 9)%N
    as Hx by lia.
  repeat (destruct Hx as [->|Hx]; [reflexivity|]). by subst x.
Qed.

Lemma pretty_N_char_value x : (x < 10)%N → (ord (pretty_N_char x) - 0x30 = x)%N.
Proof.
  intros H.
  assert (x = 0 ∨ x = 1 ∨ x = 2 ∨ x = 3 ∨ x = 4 ∨ x = 5 ∨ x = 6 ∨ x = 7 ∨ x = 8 ∨ x = 9)%N
    as Hx by lia.
  repeat (destruct Hx as [->|Hx]; [reflexivity|]). by subst x.
Qed.

Lemma pretty_N_go_digits x s :
  Forall (λ r, isDigit r = true) (codes s) →
  Forall (λ r, isDigit r = true) (codes (pretty_N_go x s)).
Proof.
  revert s. induction (N.lt_wf_0 x) as [x _ IH]; intros s Hs.
  assert (x = 0 ∨ 0 < x)%N as [->|Hx] by lia; [by rewrite pretty_N_go_0|].
  rewrite pretty_N_go_step by done. apply IH; [by apply N.div_lt|].
  unfold codes. simpl. constructor; [|done].
  apply pretty_N_char_digit. by apply N.mod_lt.
Qed.

Lemma pretty_N_go_fold x s a :
  fold_left (λ n d, 10 * n + (d - 0x30))%N (codes (pretty_N_go x s)) a
  = fold_left (λ n d, 10 * n + (d - 0x30))%N (codes s)
      (fold_left (λ n d, 10 * n + (d - 0x30))%N (codes (pretty_N_go x "")) a).
Proof.
  revert s a. induction (N.lt_wf_0 x) as [x _ IH]; intros s a.
  assert (x = 0 ∨ 0 < x)%N as [->|Hx] by lia; [by rewrite !pretty_N_go_0|].
  rewrite !(pretty_N_go_step x) by done.
  assert (x `div` 10 < x)%N as Hlt by by apply N.div_lt.
  rewrite (IH _ Hlt). rewrite (IH _ Hlt (String _ "")). reflexivity.
Qed.

Lemma ParseUint_pretty_N_go x :
  ParseUint (codes (pretty_N_go x "")) = x.
Proof.
  unfold ParseUint. induction (N.lt_wf_0 x) as [x _ IH].
  assert (x = 0 ∨ 0 < x)%N as [->|Hx] by lia; [done|].
  rewrite pretty_N_go_step, pretty_N_go_fold by done.
  rewrite IH by by apply N.div_lt.
  unfold codes. simpl. rewrite pretty_N_char_value by by apply N.mod_lt.
  rewrite (N.div_mod x 10) at 3 by done. lia.
Qed.

(** A number printed in decimal is made of digits, and they read back as the
    number. *)
Lemma pretty_N_digits (x : N) : Forall (λ r, isDigit r = true) (codes (pretty x)).
Proof.
  unfold pretty, pretty_N. destruct (decide (x = 0%N)); [by repeat constructor|].
  by apply pretty_N_go_digits.
Qed.

Lemma ParseUint_pretty_N (x : N) : ParseUint (codes (pretty x)) = x.
Proof.
  unfold pretty, pretty_N. destruct (decide (x = 0%N)) as [->|]; [done|].
  apply ParseUint_pretty_N_go.
Qed.

Lemma pretty_N_go_length x s : (String.length s ≤ String.length (pretty_N_go x s))%nat.
Proof.
  revert s. induction (N.lt_wf_0 x) as [x _ IH]; intros s.
  assert (x = 0 ∨ 0 < x)%N as [->|Hx] by lia; [by rewrite pretty_N_go_0|].
  rewrite pretty_N_go_step by done.
  etrans; [|apply IH; by apply N.div_lt]. simpl. lia.
Qed.

Lemma pretty_N_cons (x : N) : ∃ a s, pretty x = String a s.
Proof.
  unfold pretty, pretty_N. destruct (decide (x = 0%N)); [by eexists _, _|].
  rewrite pretty_N_go_step by lia.
  pose proof (pretty_N_go_length (x `div` 10)%N
                (String (pretty_N_char (x `mod` 10)%N) "")) as Hlen.
  destruct (pretty_N_go _ _) as [|a s]; [simpl in Hlen; lia|]. by eexists _, _.
Qed.

Lemma digits_isASCII s : Forall (λ r, isDigit r = true) (codes s) → isASCII s = true.
Proof.
  unfold isASCII, codes. induction s as [|a s IH]; [done|]. simpl.
  inversion_clear 1 as [|? ? Ha Hs]. rewrite IH by done.
  unfold isDigit, between in Ha. apply andb_true_iff in Ha as [_ Ha%N.leb_le].
  rewrite andb_true_r. apply N.ltb_lt. unfold RuneSelf. lia.
Qed.

Lemma pretty_Z_isASCII (n : Z) : isASCII (pretty n) = true.
Proof.
  destruct n as [|p|p]; [done| |].
  - apply digits_isASCII, (pretty_N_digits (Npos p)).
  - change (pretty (Z.neg p)) with (String "-" (pretty (Npos p))).
    unfold isASCII. simpl. apply digits_isASCII, (pretty_N_digits (Npos p)).
Qed.

(** *** Scanning a number *)

Lemma isDigit_cases r :
  isDigit r = true →
  (r = 0x30 ∨ r = 0x31 ∨ r = 0x32 ∨ r = 0x33 ∨ r = 0x34 ∨ r = 0x35 ∨ r = 0x36
   ∨ r = 0x37 ∨ r = 0x38 ∨ r = 0x39)%N.
Proof.
  unfold isDigit, between. intros [H1%N.leb_le H2%N.leb_le]%andb_true_iff. lia.
Qed.

Lemma isDigit_not_sign r : isDigit r = true → isSign r = false.
Proof.
  intros H%isDigit_cases. unfold isSign. apply orb_false_iff.
  split; apply N.eqb_neq; lia.
Qed.

Lemma SkipSpace_digit r s : isDigit r = true → SkipSpace (r :: s) = Ok (r :: s).
Proof.
  intros H%isDigit_cases.
  repeat (destruct H as [->|H]; [reflexivity|]). by subst r.
Qed.

Lemma SkipSpace_sign r s : isSign r = true → SkipSpace (r :: s) = Ok (r :: s).
Proof.
  unfold isSign. intros [->%N.eqb_eq| ->%N.eqb_eq]%orb_true_iff; reflexivity.
Qed.

Lemma SkipSpace_blanks blanks s :
  string_forall blank blanks = true →
  SkipSpace (codes blanks ++ s) = SkipSpace s.
Proof.
  unfold codes. induction blanks as [|a blanks IH]; [done|]. simpl.
  intros [Ha Hb]%andb_true_iff. unfold blank in Ha.
  apply orb_true_iff in Ha as [->%N.eqb_eq| ->%N.eqb_eq]; simpl; by apply IH.
Qed.

Lemma SkipSpace_idem s s' : SkipSpace s = Ok s' → SkipSpace s' = Ok s'.
Proof.
  induction s as [|r s IH]; simpl.
  - by intros [= <-].
  - destruct ((r =? 0x0D)%N && peek_newline s) eqn:E1; [exact IH|].
    destruct (r =? 0x0A)%N eqn:E2; [done|].
    destruct (negb (isSpace r)) eqn:E3; [|exact IH].
    intros [= <-]. simpl. by rewrite E1, E2, E3.
Qed.

Lemma accept_all_digits buf ds rest :
  Forall (λ r, isDigit r = true) ds →
  match rest with r :: _ => isDigit r = false | [] => True end →
  accept_all isDigit buf (ds ++ rest) = (buf ++ ds, rest).
Proof.
  intros Hds Hrest. revert buf. induction Hds as [|d ds Hd _ IH]; intros buf.
  - simpl. rewrite app_nil_r. destruct rest as [|r rest]; [done|]. simpl. by rewrite Hrest.
  - simpl. rewrite Hd, IH. by rewrite <- app_assoc.
Qed.

Lemma scanNumber_digits buf d ds rest :
  Forall (λ r, isDigit r = true) (d :: ds) →
  match rest with r :: _ => isDigit r = false | [] => True end →
  scanNumber buf ((d :: ds) ++ rest) = Ok (buf ++ d :: ds, rest).
Proof.
  intros Hds Hrest. inversion_clear Hds as [|? ? Hd Hds'].
  unfold scanNumber. simpl. rewrite Hd.
  rewrite accept_all_digits by done. by rewrite <- app_assoc.
Qed.

Lemma forallb_digits ds :
  Forall (λ r, isDigit r = true) ds → forallb isDigit ds = true.
Proof.
  intros H. apply forallb_forall. intros r Hr.
  by apply (proj1 (Forall_forall _ _) H), list_elem_of_In.
Qed.

(** What [scanInt] makes of digits, and of a minus sign and digits: the
    token goes to [ParseInt]. *)
Lemma scanInt_unsigned_token d ds rest :
  Forall (λ r, isDigit r = true) (d :: ds) →
  match rest with r :: _ => isDigit r = false | [] => True end →
  scanInt ((d :: ds) ++ rest)
  = if (2 ^ 63 <=? Z.of_N (ParseUint (d :: ds)))%Z
    then Err ("strconv.ParseInt: parsing " +:+ dquote +:+ token (d :: ds) +:+ dquote
              +:+ ": value out of range")
    else Ok (Z.of_N (ParseUint (d :: ds))).
Proof.
  intros Hds Hrest. unfold scanInt.
  assert (isDigit d = true) as Hd by by inversion Hds.
  change ((d :: ds) ++ rest) with (d :: (ds ++ rest)).
  rewrite SkipSpace_digit by done.
  unfold accept. rewrite (isDigit_not_sign d Hd).
  change (d :: (ds ++ rest)) with ((d :: ds) ++ rest).
  rewrite (scanNumber_digits _ d ds rest Hds Hrest). cbn [app].
  unfold ParseInt. apply isDigit_cases in Hd.
  assert ((d =? 0x2B)%N = false ∧ (d =? 0x2D)%N = false) as [-> ->].
  { split; apply N.eqb_neq; lia. }
  rewrite (forallb_digits (d :: ds) Hds).
  cbv zeta. change (2 ^ (64 - 1))%Z with (2 ^ 63)%Z. cbn [negb andb].
  destruct (Z.leb_spec (2 ^ 63) (Z.of_N (ParseUint (d :: ds)))); [done|].
  unfold intBits. change (2 ^ (64 - 1))%Z with (2 ^ 63)%Z.
  destruct (Z.leb_spec (- 2 ^ 63) (Z.of_N (ParseUint (d :: ds)))); [|lia].
  by destruct (Z.ltb_spec (Z.of_N (ParseUint (d :: ds))) (2 ^ 63)); [|lia].
Qed.

Lemma scanInt_negative_token d ds rest :
  Forall (λ r, isDigit r = true) (d :: ds) →
  match rest with r :: _ => isDigit r = false | [] => True end →
  scanInt (0x2D%N :: (d :: ds) ++ rest)
  = if (2 ^ 63 <? Z.of_N (ParseUint (d :: ds)))%Z
    then Err ("strconv.ParseInt: parsing " +:+ dquote +:+ token (0x2D%N :: d :: ds)
              +:+ dquote +:+ ": value out of range")
    else Ok (- Z.of_N (ParseUint (d :: ds)))%Z.
Proof.
  intros Hds Hrest. unfold scanInt.
  rewrite SkipSpace_sign by done.
  unfold accept. cbn [isSign N.eqb Pos.eqb orb app].
  change (d :: ds ++ rest) with ((d :: ds) ++ rest).
  rewrite (scanNumber_digits _ d ds rest Hds Hrest). cbn [app].
  unfold ParseInt. cbn [N.eqb Pos.eqb].
  rewrite (forallb_digits (d :: ds) Hds).
  cbv zeta. change (2 ^ (64 - 1))%Z with (2 ^ 63)%Z. cbn [negb andb].
  destruct (Z.ltb_spec (2 ^ 63) (Z.of_N (ParseUint (d :: ds)))); [done|].
  unfold intBits. change (2 ^ (64 - 1))%Z with (2 ^ 63)%Z.
  destruct (Z.leb_spec (- 2 ^ 63) (- Z.of_N (ParseUint (d :: ds)))); [|lia].
  by destruct (Z.ltb_spec (- Z.of_N (ParseUint (d :: ds))) (2 ^ 63)); [|lia].
Qed.

(** The numeral of [n], whatever follows it that is not a digit, scans as
    [n] when [n] is an [int64], and as an error otherwise. *)
Lemma scanInt_pretty (n : Z) rest :
  match rest with r :: _ => isDigit r = false | [] => True end →
  if decide (- 2 ^ 63 ≤ n < 2 ^ 63)%Z
  then scanInt (codes (pretty n) ++ rest) = Ok n
  else ∃ e, scanInt (codes (pretty n) ++ rest) = Err e.
Proof.
  intros Hrest.
  assert (∀ x : N,
            scanInt (codes (pretty x) ++ rest)
            = if (2 ^ 63 <=? Z.of_N x)%Z
              then Err ("strconv.ParseInt: parsing " +:+ dquote
                        +:+ token (codes (pretty x)) +:+ dquote
                        +:+ ": value out of range")
              else Ok (Z.of_N x)) as Hpos.
  { intros x. pose proof (pretty_N_digits x) as Hd.
    pose proof (ParseUint_pretty_N x) as Hv.
    destruct (pretty_N_cons x) as (a & s & Heq). rewrite Heq in *.
    rewrite codes_cons in *.
    pose proof (scanInt_unsigned_token (ord a) (codes s) rest Hd Hrest) as Hs.
    unfold rune in *. by rewrite Hs, Hv. }
  assert (∀ p : positive,
            scanInt (codes (pretty (Z.neg p)) ++ rest)
            = if (2 ^ 63 <? Z.pos p)%Z
              then Err ("strconv.ParseInt: parsing " +:+ dquote
                        +:+ token (codes (pretty (Z.neg p))) +:+ dquote
                        +:+ ": value out of range")
              else Ok (Z.neg p)) as Hneg.
  { intros p. pose proof (pretty_N_digits (Npos p)) as Hd.
    pose proof (ParseUint_pretty_N (Npos p)) as Hv.
    change (pretty (Z.neg p)) with ("-" +:+ pretty (Npos p)).
    destruct (pretty_N_cons (Npos p)) as (a & s & Heq). rewrite Heq in *.
    change ("-" +:+ String a s) with (String "-" (String a s)).
    rewrite !codes_cons in *.
    change ((ord "-" :: ord a :: codes s) ++ rest)
      with (0x2D%N :: (ord a :: codes s) ++ rest).
    pose proof (scanInt_negative_token (ord a) (codes s) rest Hd Hrest) as Hs.
    unfold rune in *. by rewrite Hs, Hv. }
  destruct n as [|p|p].
  - rewrite decide_True by lia. apply (Hpos 0%N).
  - change (pretty (Z.pos p)) with (pretty (Npos p)). rewrite (Hpos (Npos p)).
    change (Z.of_N (N.pos p)) with (Z.pos p).
    destruct (Z.leb_spec (2 ^ 63) (Z.pos p)).
    + rewrite decide_False by lia. by eexists.
    + by rewrite decide_True by lia.
  - rewrite (Hneg p). destruct (Z.ltb_spec (2 ^ 63) (Z.pos p)).
    + rewrite decide_False by lia. by eexists.
    + by rewrite decide_True by lia.
Qed.

Lemma scanInt_blanks blanks s :
  string_forall blank blanks = true → scanInt (codes blanks ++ s) = scanInt s.
Proof. intros H. unfold scanInt. by rewrite SkipSpace_blanks. Qed.

Lemma scanInt_no_number c s :
  (c = 0x0A%N ∨ (isSpace c = false ∧ isDigit c = false ∧ isSign c = false)) →
  ∃ e, scanInt (c :: s) = Err e.
Proof.
  intros [->|(Hsp & Hd & Hs)]; [by eexists|].
  unfold scanInt. cbn [SkipSpace].
  assert ((c =? 0x0D)%N = false) as ->.
  { apply N.eqb_neq. by intros ->. }
  assert ((c =? 0x0A)%N = false) as ->.
  { apply N.eqb_neq. by intros ->. }
  cbn [andb]. rewrite Hsp. cbn [negb]. unfold accept. rewrite Hs.
  unfold scanNumber, accept. rewrite Hd. by eexists.
Qed.

Lemma Sscanf_d_scanInt str arg :
  Sscanf_d str arg
  = match scanInt (runes str) with
    | Ok i => (1, None, i)
    | Err e => (0, Some e, arg)
    end.
Proof.
  unfold Sscanf_d, scanInt.
  destruct (SkipSpace (runes str)) as [s'|e] eqn:Hskip; [|done].
  by rewrite (SkipSpace_idem _ _ Hskip).
Qed.

(** What [getEnvInt] returns, in one expression. *)
Lemma getEnvInt_scan env key defaultValue :
  getEnvInt env key defaultValue
  = match env !! key with
    | Some value =>
      if decide (value = "") then defaultValue
      else match scanInt (runes value) with
           | Ok i => i
           | Err _ => defaultValue
           end
    | None => defaultValue
    end.
Proof.
  unfold getEnvInt, Getenv. destruct (env !! key) as [value|]; [|done].
  cbn [default from_option id]. destruct (decide (value = "")) as [->|Hne]; [done|].
  rewrite decide_True by done. rewrite Sscanf_d_scanInt.
  destruct (scanInt (runes value)); by destruct (decide _).
Qed.

Lemma blank_isASCII blanks : string_forall blank blanks = true → isASCII blanks = true.
Proof.
  unfold isASCII. induction blanks as [|c blanks IH]; [done|]. simpl.
  intros [Hc Hblanks]%andb_true_iff. rewrite IH by done.
  unfold blank in Hc. by apply orb_true_iff in Hc as [->%N.eqb_eq| ->%N.eqb_eq].
Qed.

Lemma getEnvInt_numeral env key defaultValue blanks (n : Z) rest :
  env !! key = Some (blanks +:+ pretty n +:+ rest) →
  string_forall blank blanks = true →
  no_digit_ahead rest →
  getEnvInt env key defaultValue
  = if decide (- 2 ^ 63 ≤ n < 2 ^ 63)%Z then n else defaultValue.
Proof.
  intros Henv Hblanks Hrest.
  pose proof (scanInt_pretty n (runes rest) Hrest) as Hscan.
  rewrite getEnvInt_scan, Henv.
  rewrite decide_False.
  2:{ destruct blanks; [|done]. rewrite append_nil.
      destruct n as [|p|p]; [done| |done].
      change (pretty (Z.pos p)) with (pretty (Npos p)).
      by destruct (pretty_N_cons (Npos p)) as (a & s & ->). }
  rewrite !runes_ascii_append by auto using blank_isASCII, pretty_Z_isASCII.
  rewrite scanInt_blanks by done.
  destruct (decide _).
  - unfold rune in *. by rewrite Hscan.
  - destruct Hscan as [e He]. unfold rune in *. by rewrite He.
Qed.

(** A setting that begins, after spaces and tabs, with the decimal numeral
    of an [int64], a minus sign before a negative one, is read as that
    number, whatever follows the numeral that is not a digit; no range of
    port numbers is enforced.  For [DB_PORT] this is the port of the
    configuration. *)
Theorem port_setting_is_read_as_a_decimal_numeral
    env key defaultValue blanks (n : Z) rest :
  env !! key = Some (blanks +:+ pretty n +:+ rest) →
  string_forall blank blanks = true →
  (- 2 ^ 63 ≤ n < 2 ^ 63)%Z →
  no_digit_ahead rest →
  getEnvInt env key defaultValue = n
  ∧ (key = "DB_PORT" → Port (main_config env) = n ∧ Port (SingleTool.main_config env) = n).
Proof.
  intros Henv Hblanks Hn Hrest. split.
  - rewrite (getEnvInt_numeral env key defaultValue blanks n rest) by done.
    by rewrite decide_True.
  - intros ->. unfold main_config, SingleTool.main_config. cbn [Port].
    rewrite (getEnvInt_numeral env "DB_PORT" 5432 blanks n rest) by done.
    by rewrite decide_True.
Qed.

Lemma port_setting_is_read_as_a_decimal_numeral_example :
  getEnvInt {["DB_PORT" := " 6543/tcp"]} "DB_PORT" 5432 = 6543%Z
  ∧ ("DB_PORT" = "DB_PORT" →
     Port (main_config {["DB_PORT" := " 6543/tcp"]}) = 6543%Z
     ∧ Port (SingleTool.main_config {["DB_PORT" := " 6543/tcp"]}) = 6543%Z).
Proof.
  apply (port_setting_is_read_as_a_decimal_numeral
           {["DB_PORT" := " 6543/tcp"]} "DB_PORT" 5432 " " 6543 "/tcp").
  - vm_compute. reflexivity.
  - reflexivity.
  - lia.
  - reflexivity.
Defined.

(** A port setting that cannot be read is replaced by the default without
    a word: a variable that is unset or empty, a value whose first character
    after spaces and tabs is a line feed or anything but a digit, a sign or
    white space, and a numeral outside [int64]. *)
Theorem unusable_port_setting_falls_back_to_the_default env key defaultValue :
  (env !! key = None
   ∨ env !! key = Some ""
   ∨ (∃ blanks c rest,
        env !! key = Some (blanks +:+ String c rest)
        ∧ string_forall blank blanks = true
        ∧ (ord c < RuneSelf)%N
        ∧ (ord c = 0x0A%N
           ∨ (isSpace (ord c) = false ∧ isDigit (ord c) = false
              ∧ isSign (ord c) = false)))
   ∨ (∃ blanks (n : Z) rest,
        env !! key = Some (blanks +:+ pretty n +:+ rest)
        ∧ string_forall blank blanks = true
        ∧ (n < - 2 ^ 63 ∨ 2 ^ 63 ≤ n)%Z
        ∧ no_digit_ahead rest)) →
  getEnvInt env key defaultValue = defaultValue.
Proof.
  intros [Henv | [Henv | [(blanks & c & rest & Henv & Hb & Hc & Hbad)
                         | (blanks & n & rest & Henv & Hb & Hn & Hrest)]]].
  - by rewrite getEnvInt_scan, Henv.
  - by rewrite getEnvInt_scan, Henv.
  - rewrite getEnvInt_scan, Henv. destruct (decide _); [done|].
    rewrite runes_ascii_append by auto using blank_isASCII.
    unfold runes. rewrite range_ascii by done. rewrite fmap_cons. cbn [fst].
    destruct (scanInt_no_number (ord c) (range rest).*1 Hbad) as [e He].
    rewrite scanInt_blanks by done. unfold rune in *. by rewrite He.
  - rewrite (getEnvInt_numeral env key defaultValue blanks n rest) by done.
    by rewrite decide_False by lia.
Qed.

Lemma unusable_port_setting_falls_back_to_the_default_example :
  getEnvInt {["DB_PORT" := "five432"]} "DB_PORT" 5432 = 5432%Z.
Proof.
  apply (unusable_port_setting_falls_back_to_the_default
           {["DB_PORT" := "five432"]} "DB_PORT" 5432).
  right. right. left. exists "", "f"%char, "ive432".
  split; [vm_compute; reflexivity|]. split; [reflexivity|]. split; [reflexivity|].
  right. split; [reflexivity|]. split; reflexivity.
Defined.

(** *** The string settings *)

Lemma getEnv_lookup env key defaultValue :
  getEnv env key defaultValue
  = match env !! key with
    | Some value => if decide (value = "") then defaultValue else value
    | None => defaultValue
    end.
Proof.
  unfold getEnv, Getenv. destruct (env !! key) as [value|]; [|done].
  cbn [default from_option id]. by repeat destruct (decide _).
Qed.

(** In the configuration the three-tool server loads, host, user, password,
    database name and SSL mode are never empty, whatever the environment: a
    variable set to the empty string counts as unset, so an empty password
    cannot be configured.  The single-tool server of [main.go] has an empty
    user, or password, exactly when the variable is unset or empty. *)
Theorem configured_strings_are_never_empty env :
  Host (main_config env) ≠ "" ∧ User (main_config env) ≠ ""
  ∧ Password (main_config env) ≠ "" ∧ DBName (main_config env) ≠ ""
  ∧ SSLMode (main_config env) ≠ ""
  ∧ (∀ key defaultValue,
       env !! key = None ∨ env !! key = Some "" →
       getEnv env key defaultValue = defaultValue)
  ∧ (∀ key defaultValue value,
       env !! key = Some value → value ≠ "" →
       getEnv env key defaultValue = value)
  ∧ (User (SingleTool.main_config env) = ""
     ↔ env !! "DB_USER" = None ∨ env !! "DB_USER" = Some "")
  ∧ (Password (SingleTool.main_config env) = ""
     ↔ env !! "DB_PASSWORD" = None ∨ env !! "DB_PASSWORD" = Some "").
Proof.
  assert (∀ key d, d ≠ "" → getEnv env key d ≠ "") as Hne.
  { intros key d Hd. rewrite getEnv_lookup. destruct (env !! key) as [value|]; [|done].
    by destruct (decide _). }
  assert (∀ key, getEnv env key "" = "" ↔ env !! key = None ∨ env !! key = Some "") as Hempty.
  { intros key. rewrite getEnv_lookup. destruct (env !! key) as [value|].
    - destruct (decide (value = "")) as [->|Hv]; [by split; auto|].
      split; [done|]. by intros [?|[= ?]].
    - by split; auto. }
  unfold main_config, SingleTool.main_config.
  cbn [Host User Password DBName SSLMode].
  repeat (split; [by apply Hne|]).
  split; [|split; [|split; apply Hempty]].
  - intros key d [H|H]; by rewrite getEnv_lookup, H.
  - intros key d value H Hv. rewrite getEnv_lookup, H. by rewrite decide_False.
Qed.

(** ** The update rule against its wording *)

Lemma is_space_not_word c : is_space c → isWordChar c = false.
Proof.
  unfold is_space. cbn [atom_matches]. intros H.
  repeat (apply orb_true_iff in H as [H|H]); apply N.eqb_eq in H; by subst c.
Qed.

(** What the pattern of the update rule matches is an update-then-set in
    the words of the specification. *)
Lemma update_rule_within_its_wording text :
  rule_matches "\bupdate\s+.*\s+set\b" text → spec_update_then_set (runes text).
Proof.
  intros (re & [= <-] & Hocc).
  destruct (proj1 (update_set_rule_occurs (runes text)) Hocc)
    as (pre & ws1 & mid & ws2 & post & Heq & Hne1 & Hws1 & _ & Hne2 & Hws2 & Hp & Hq).
  exists pre, (ws1 ++ mid ++ ws2), post.
  split; [by rewrite Heq, <- !app_assoc|].
  split; [by destruct ws1|]. split; [done|]. split; [|split; [|done]].
  - destruct ws1 as [|c ws1]; [done|]. simpl.
    apply is_space_not_word. by inversion Hws1.
  - destruct (exists_last Hne2) as (l & c & ->).
    rewrite !app_assoc, last_snoc. simpl. apply is_space_not_word.
    apply Forall_app in Hws2 as [_ Hc]. by inversion Hc.
Qed.

Lemma multiline_update_normalized To_LowerCase :
  TrimSpace (ToLower To_LowerCase multiline_update)
  = "with moved as (update only" +:+ nl +:+ "accounts" +:+ nl
    +:+ "set balance = 0 returning id) select id from moved".
Proof. rewrite ToLower_isASCII by reflexivity. vm_compute. reflexivity. Qed.

(** C1.  The denylist misses an UPDATE written over several lines.  The
    query [multiline_update] is an update-then-set in the words of the
    specification ([update], any characters, [set], each a word of its own);
    no pattern of the list matches it, since the [.] of the update pattern
    stops at a line feed; it starts with [with], so [isSafeQuery] accepts
    it, whatever the case table, and both servers send it to the database
    as it came.  The pattern matches nothing outside the wording. *)
Theorem multiline_update_escapes_the_denylist To_LowerCase :
  spec_update_then_set (runes (TrimSpace (ToLower To_LowerCase multiline_update)))
  ∧ (∀ rule, rule ∈ dangerousPatterns →
             ¬ rule_matches rule (TrimSpace (ToLower To_LowerCase multiline_update)))
  ∧ isSafeQuery To_LowerCase multiline_update = None
  ∧ (∀ text, rule_matches "\bupdate\s+.*\s+set\b" text →
             spec_update_then_set (runes text))
  ∧ (∀ F s (log : list Call),
       (∃ more,
          (ExecuteQuery To_LowerCase F s (request "query" multiline_update) log).2
          = log ++ (multiline_update, []) :: more)
       ∧ (MainGo.ExecuteQuery To_LowerCase F s (request "query" multiline_update) log).2
         = log ++ [(multiline_update, [])]).
Proof.
  assert (∀ rule, rule ∈ dangerousPatterns →
            ¬ rule_matches rule (TrimSpace (ToLower To_LowerCase multiline_update)))
    as Hnone.
  { rewrite multiline_update_normalized. intros rule Hr Hm.
    apply rule_matches_MatchString in Hm. unfold dangerousPatterns in Hr.
    repeat (apply elem_of_cons in Hr as [->|Hr]; [vm_compute in Hm; discriminate|]).
    by apply elem_of_nil in Hr. }
  assert (isSafeQuery To_LowerCase multiline_update = None) as Hsafe.
  { apply isSafeQuery_nil_iff. split; [exact Hnone|].
    right. rewrite multiline_update_normalized. reflexivity. }
  split; [|split; [exact Hnone|split; [exact Hsafe|split;
    [apply update_rule_within_its_wording|]]]].
  - rewrite multiline_update_normalized.
    exists (runes "with moved as ("),
           (runes (" only" +:+ nl +:+ "accounts" +:+ nl)),
           (runes " balance = 0 returning id) select id from moved").
    split; [vm_compute; reflexivity|]. split; [by vm_compute|].
    repeat split; reflexivity.
  - intros F s log. unfold ExecuteQuery, MainGo.ExecuteQuery.
    rewrite (RequireString_ok F (request "query" multiline_update) "query"
               multiline_update) by apply lookup_insert_eq.
    rewrite Hsafe. unfold bind at 1 3. unfold QueryContext. split.
    + destruct (answer (db s) log (multiline_update, [])) as [rows|err].
      * exists []. destruct (Columns rows); [|done].
        by destruct (collect_rows _ _ _).
      * destruct (Contains err "column" || Contains err "table"); [|by exists []].
        unfold bind.
        destruct (getSchemaInfo_log F s (log ++ [(multiline_update, [])]))
          as (more & Hlog & _).
        exists more. destruct (getSchemaInfo F s _) as [[schemaInfo|schemaErr] log2];
          simpl in *; subst log2; by rewrite <- app_assoc.
    + destruct (answer (db s) log (multiline_update, [])) as [rows|err]; [|done].
      destruct (Columns rows); [|done].
      destruct (collect_rows _ _ _); [|done].
      by destruct (Marshal_QueryResult _ _).
Qed.

(** ** Counterexamples to the claims as first worded *)

(** C3, counterexample.  The database starts to answer, delivers two rows
    and then fails with an error: the caller gets the two rows as a success,
    with no error, no message and no catalog call. *)
Lemma iteration_error_is_not_reported :
  isSafeQuery sample_LowerCase interrupted_query = None
  ∧ answer (db (answering_server [] interrupted_rows)) [] (interrupted_query, [])
    = Ok interrupted_rows
  ∧ rows_Err interrupted_rows = Some "pq: division by zero"
  ∧ ∃ r, ExecuteQuery sample_LowerCase sample_Formats
           (answering_server [] interrupted_rows)
           (request "query" interrupted_query) []
         = (Ok r, [(interrupted_query, [])])
         ∧ IsError r = false
         ∧ Contains (Text r) "division by zero" = false
         ∧ r = NewToolResultText
                 (bytes_or_nil (Marshal_QueryResult sample_Formats
                    {| QR_Columns := Some ["q"];
                       QR_Rows := Some [<["q" := VInt64 5]> ∅; <["q" := VInt64 10]> ∅];
                       QR_Count := 2 |})).
Proof.
  split; [vm_compute; reflexivity|]. split; [vm_compute; reflexivity|].
  split; [reflexivity|]. eexists. split; [vm_compute; reflexivity|].
  split; [reflexivity|]. split; vm_compute; reflexivity.
Qed.

